(** * hdtSMP64: the skinned-mesh collision and merge pipeline

    A shallow embedding of [hdtSkinnedMesh/hdtSkinnedMeshAlgorithm.cpp]:
    the geometry checkers, the bounded result sink with its role-swap
    variant, the local broad-phase refiner in both of its variants, the
    pair dispatcher, the merge buffer and the manifold emitter.

    Scalars are IEEE-754 binary32 values ([float] in the source), taken
    from the Standard Library's executable specification of floating
    point, so every definition below can be evaluated. *)

From Stdlib Require Import ZArith List Bool Lia SpecFloat.
From stdpp Require Import base option list gmap.
Import ListNotations.

Local Open Scope Z_scope.

(** ** Scalars: binary32 *)

Module F32.

Definition prec : Z := 24.
Definition emax : Z := 128.

Definition float : Type := spec_float.

Definition add : float -> float -> float := SFadd prec emax.
Definition sub : float -> float -> float := SFsub prec emax.
Definition mul : float -> float -> float := SFmul prec emax.
Definition div : float -> float -> float := SFdiv prec emax.
Definition sqrt : float -> float := SFsqrt prec emax.
Definition opp : float -> float := SFopp.

(** [a < b], [a <= b], [a > b], [a >= b]: all false when an operand is
    not a number. *)
Definition ltb (a b : float) : bool := SFltb a b.
Definition leb (a b : float) : bool := SFleb a b.
Definition gtb (a b : float) : bool := SFltb b a.
Definition geb (a b : float) : bool := SFleb b a.
(** [a == b]: false when an operand is not a number. *)
Definition eqb (a b : float) : bool := SFeqb a b.

Definition is_nan (a : float) : bool :=
  match a with S754_nan => true | _ => false end.

(** [std::max(a, b)] is [(a < b) ? b : a]. *)
Definition max (a b : float) : float := if ltb a b then b else a.

(** The value [m * 2^e]. *)
Definition of_scaled (m e : Z) : float := binary_normalize prec emax m e false.
Definition of_Z (m : Z) : float := of_scaled m 0.

Definition zero : float := S754_zero false.
Definition one : float := of_Z 1.
Definition three : float := of_Z 3.

(** [FLT_EPSILON] is [2^-23]. *)
Definition FLT_EPSILON : float := of_scaled 1 (-23).

End F32.

Abbreviation float := F32.float.
Abbreviation FLT_EPSILON := F32.FLT_EPSILON.

Declare Scope f32_scope.
Delimit Scope f32_scope with f32.
Infix "+" := F32.add : f32_scope.
Infix "-" := F32.sub : f32_scope.
Infix "*" := F32.mul : f32_scope.
Infix "/" := F32.div : f32_scope.
Notation "- a" := (F32.opp a) : f32_scope.
Infix "<?" := F32.ltb : f32_scope.
Infix "<=?" := F32.leb : f32_scope.
Infix ">?" := F32.gtb : f32_scope.
Infix ">=?" := F32.geb : f32_scope.

(** ** Vectors (Bullet's [btVector3], three scalar lanes) *)

Record btVector3 : Type := mkVec { vx : float; vy : float; vz : float }.

Module Vec.

Definition zero : btVector3 := mkVec F32.zero F32.zero F32.zero.

Definition add (a b : btVector3) : btVector3 :=
  mkVec (vx a + vx b)%f32 (vy a + vy b)%f32 (vz a + vz b)%f32.
Definition sub (a b : btVector3) : btVector3 :=
  mkVec (vx a - vx b)%f32 (vy a - vy b)%f32 (vz a - vz b)%f32.
Definition scale (a : btVector3) (s : float) : btVector3 :=
  mkVec (vx a * s)%f32 (vy a * s)%f32 (vz a * s)%f32.
Definition neg (a : btVector3) : btVector3 :=
  mkVec (- vx a)%f32 (- vy a)%f32 (- vz a)%f32.

Definition dot (a b : btVector3) : float :=
  (vx a * vx b + vy a * vy b + vz a * vz b)%f32.
Definition cross (a b : btVector3) : btVector3 :=
  mkVec (vy a * vz b - vz a * vy b)%f32
        (vz a * vx b - vx a * vz b)%f32
        (vx a * vy b - vy a * vx b)%f32.
Definition length2 (a : btVector3) : float := dot a a.
Definition length (a : btVector3) : float := F32.sqrt (length2 a).

(** [v / s] multiplies by the reciprocal, as Bullet does. *)
Definition divs (a : btVector3) (s : float) : btVector3 :=
  scale a (F32.one / s)%f32.
Definition normalized (a : btVector3) : btVector3 := divs a (length a).

(** [fuzzyZero]: squared length below [SIMD_EPSILON^2]. *)
Definition fuzzyZero (a : btVector3) : bool :=
  (length2 a <? FLT_EPSILON * FLT_EPSILON)%f32.

(** Some lane is not a number. *)
Definition is_nan (a : btVector3) : bool :=
  F32.is_nan (vx a) || F32.is_nan (vy a) || F32.is_nan (vz a).

End Vec.

(** ** Primitive colliders and contact results *)

(** Modelled from the spec: the collider type is declared outside the
    translated unit.  A primitive collider is a point collider (one vertex
    index) or a triangle collider (three vertex indices); both carry the
    flexible coefficient.  [vertex] reads the first index, [vertices] the
    three of them. *)
Inductive Collider : Type :=
| PointCollider (v : nat) (flex : float)
| TriangleCollider (v0 v1 v2 : nat) (flex : float).

Definition vertex (c : Collider) : nat :=
  match c with
  | PointCollider v _ => v
  | TriangleCollider v _ _ _ => v
  end.

Definition vertices (c : Collider) (k : nat) : nat :=
  match c, k with
  | PointCollider v _, _ => v
  | TriangleCollider v _ _ _, O => v
  | TriangleCollider _ v _ _, S O => v
  | TriangleCollider _ _ v _, _ => v
  end.

Definition flexible (c : Collider) : float :=
  match c with
  | PointCollider _ f => f
  | TriangleCollider _ _ _ f => f
  end.

(** Modelled from the spec: a contact result holds the positions on each
    side, the contact normal, the signed depth and back-references to the
    two colliders (here: the colliders referred to). *)
Record CollisionResult : Type := mkResult {
  posA : btVector3;
  posB : btVector3;
  normOnB : btVector3;
  colliderA : Collider;
  colliderB : Collider;
  depth : float
}.

Definition zero : CollisionResult :=
  mkResult Vec.zero Vec.zero Vec.zero
           (PointCollider 0 F32.zero) (PointCollider 0 F32.zero) F32.zero.

#[global] Instance CollisionResult_inhabited : Inhabited CollisionResult :=
  populate zero.

(** Contacts can be compared for equality. *)
#[global] Instance spec_float_eq_dec : EqDecision spec_float.
Proof. solve_decision. Defined.
#[global] Instance btVector3_eq_dec : EqDecision btVector3.
Proof. solve_decision. Defined.
#[global] Instance Collider_eq_dec : EqDecision Collider.
Proof. solve_decision. Defined.
#[global] Instance CollisionResult_eq_dec : EqDecision CollisionResult.
Proof. solve_decision. Defined.

(** ** The bounded result sink *)

(** [numResults] is a [std::atomic_long] on a platform whose [long] has 32
    bits; [results] is the memory the [results] pointer refers to, as a
    map from element offsets to the contacts that were written there. *)
Record ResultSink : Type := mkSink {
  numResults : Z;
  results : gmap Z CollisionResult
}.

Definition wrap32 (z : Z) : Z := (z + 2 ^ 31) mod 2 ^ 32 - 2 ^ 31.

(** [numResults.fetch_add(n)]: returns the old value. *)
Definition fetch_add (n : Z) (st : ResultSink) : Z * ResultSink :=
  (numResults st, mkSink (wrap32 (numResults st + n)) (results st)).

(** The constructor of [CollisionCheckBase1] over the array [r]. *)
Definition CollisionCheckBase1 (r : gmap Z CollisionResult) : ResultSink :=
  mkSink 0 r.

Definition set_posA (v : btVector3) (r : CollisionResult) : CollisionResult :=
  mkResult v (posB r) (normOnB r) (colliderA r) (colliderB r) (depth r).
Definition set_posB (v : btVector3) (r : CollisionResult) : CollisionResult :=
  mkResult (posA r) v (normOnB r) (colliderA r) (colliderB r) (depth r).
Definition set_normOnB (v : btVector3) (r : CollisionResult) : CollisionResult :=
  mkResult (posA r) (posB r) v (colliderA r) (colliderB r) (depth r).
Definition set_colliderA (c : Collider) (r : CollisionResult) : CollisionResult :=
  mkResult (posA r) (posB r) (normOnB r) c (colliderB r) (depth r).
Definition set_colliderB (c : Collider) (r : CollisionResult) : CollisionResult :=
  mkResult (posA r) (posB r) (normOnB r) (colliderA r) c (depth r).
Definition set_depth (d : float) (r : CollisionResult) : CollisionResult :=
  mkResult (posA r) (posB r) (normOnB r) (colliderA r) (colliderB r) d.

Section Sink.

Variable MaxCollisionCount : Z.

(** What [results[p]] holds after the assignments of [addResult]:
    one assignment of the whole struct, or six field assignments into
    the slot's previous contents. *)
Definition store (SwapResults : bool) (old res : CollisionResult)
  : CollisionResult :=
  if SwapResults then
    set_depth (depth res)
      (set_normOnB (Vec.neg (normOnB res))
        (set_colliderB (colliderA res)
          (set_colliderA (colliderB res)
            (set_posB (posA res)
              (set_posA (posB res) old)))))
  else res.

Definition addResult (SwapResults : bool) (res : CollisionResult)
    (st : ResultSink) : bool * ResultSink :=
  let '(p, st) := fetch_add 1 st in
  if p <? MaxCollisionCount then
    (true, mkSink (numResults st)
                  (<[p := store SwapResults (results st !!! p) res]> (results st)))
  else (false, st).

(** A sequence of submissions, one [addResult] call after the other;
    the flags are the values the calls returned. *)
Fixpoint addResults (SwapResults : bool) (rs : list CollisionResult)
    (st : ResultSink) : list bool * ResultSink :=
  match rs with
  | [] => ([], st)
  | r :: rs' =>
      let '(b, st1) := addResult SwapResults r st in
      let '(bs, st2) := addResults SwapResults rs' st1 in
      (b :: bs, st2)
  end.

End Sink.

(** ** Geometry checkers *)

(** A skinned vertex: its position and its margin multiplier. *)
Record VertexPos : Type := mkVertexPos {
  pos : btVector3;
  marginMultiplier : float
}.

(** The shape properties of a body's shape: [margin] for both shape
    kinds, [penetration] for triangle shapes. *)
Record ShapeProp : Type := mkShapeProp {
  margin : float;
  penetration : float
}.

(** The read-only members of [CollisionCheckBase1]: the two vertex
    buffers (raw pointers, indexed without a bound) and the two shape
    properties. *)
Record CheckContext : Type := mkContext {
  v0 : nat -> VertexPos;
  v1 : nat -> VertexPos;
  sp0 : ShapeProp;
  sp1 : ShapeProp
}.

Section Checkers.

(** The sphere-sphere and sphere-triangle primitives and the triangle
    constructor are declared outside the translated unit. *)
Variable checkSphereSphere :
  btVector3 -> btVector3 -> float -> float -> CollisionResult ->
  bool * CollisionResult.
Variable CheckTriangle : Type.
Variable mkCheckTriangle :
  btVector3 -> btVector3 -> btVector3 -> float -> float -> CheckTriangle.
Variable valid : CheckTriangle -> bool.
Variable checkSphereTriangle :
  btVector3 -> float -> CheckTriangle -> CollisionResult ->
  bool * CollisionResult.

Variable ctx : CheckContext.

(** [CollisionChecker<PerVertexShape, SwapResults>::checkCollide] *)
Definition checkCollide_vertex (a b : Collider) (res : CollisionResult)
  : bool * CollisionResult :=
  let s0 := v0 ctx (vertex a) in
  let r0 := (marginMultiplier s0 * margin (sp0 ctx))%f32 in
  let s1 := v0 ctx (vertex a) in
  let r1 := (marginMultiplier s1 * margin (sp0 ctx))%f32 in
  let '(ret, res) := checkSphereSphere (pos s0) (pos s1) r0 r1 res in
  let res := set_colliderA a res in
  let res := set_colliderB b res in
  (ret, res).

(** [CollisionChecker<PerTriangleShape, SwapResults>::checkCollide] *)
Definition checkCollide_triangle (a b : Collider) (res : CollisionResult)
  : bool * CollisionResult :=
  let s := v0 ctx (vertex a) in
  let r := (marginMultiplier s * margin (sp0 ctx))%f32 in
  let p0 := v1 ctx (vertices b 0) in
  let p1 := v1 ctx (vertices b 1) in
  let p2 := v1 ctx (vertices b 2) in
  let margin0 :=
    ((marginMultiplier p0 + marginMultiplier p1 + marginMultiplier p2)
     / F32.three)%f32 in
  let penetration0 := (penetration (sp1 ctx) * margin0)%f32 in
  let margin0 := (margin0 * margin (sp1 ctx))%f32 in
  let tri := mkCheckTriangle (pos p0) (pos p1) (pos p2) margin0 penetration0 in
  if negb (valid tri) then (false, res)
  else
    let '(ret, res) := checkSphereTriangle (pos s) r tri res in
    let res := set_colliderA a res in
    let res := set_colliderB b res in
    (ret, res).

End Checkers.

(** A contact one of whose positions, whose normal or whose depth is
    not a number. *)
Definition has_nan (r : CollisionResult) : bool :=
  Vec.is_nan (posA r) || Vec.is_nan (posB r) || Vec.is_nan (normOnB r)
  || F32.is_nan (depth r).

(** Modelled from the spec: [checkSphereSphere] is declared outside the
    translated unit.  Overlap iff [|s1 - s0| < r0 + r1]; the depth is
    [|s1 - s0| - (r0 + r1)]; the normal is the unit vector from A to B.
    A coincident sphere pair, which has no direction from A to B, is no
    contact, and neither is any geometry whose contact would hold a value
    that is not a number.  The spec does not fix the two positions: the
    points of each sphere's surface along the normal are used.  Without a
    contact the result is left as it was. *)
Definition checkSphereSphere (s0 s1 : btVector3) (r0 r1 : float)
    (res : CollisionResult) : bool * CollisionResult :=
  let diff := Vec.sub s1 s0 in
  let dist := Vec.length diff in
  let bound := (r0 + r1)%f32 in
  if (dist <? bound)%f32 && (F32.zero <? dist)%f32 then
    let n := Vec.divs diff dist in
    let out :=
      mkResult (Vec.add s0 (Vec.scale n r0)) (Vec.sub s1 (Vec.scale n r1)) n
               (colliderA res) (colliderB res) (dist - bound)%f32 in
    if has_nan out then (false, res) else (true, out)
  else (false, res).

(** Modelled from the spec: the triangle record built before a
    sphere-triangle check is declared outside the translated unit.  A
    triangle of (near) zero area is not valid. *)
Record CheckTriangle : Type := mkTriangle {
  tri_p0 : btVector3;
  tri_p1 : btVector3;
  tri_p2 : btVector3;
  tri_margin : float;
  tri_penetration : float;
  tri_normal : btVector3;
  valid : bool
}.

Definition mkCheckTriangle (p0 p1 p2 : btVector3) (m pen : float)
  : CheckTriangle :=
  let n := Vec.cross (Vec.sub p1 p0) (Vec.sub p2 p0) in
  mkTriangle p0 p1 p2 m pen n
             (Vec.length2 n >=? FLT_EPSILON * FLT_EPSILON)%f32.

(** A sphere-triangle primitive that reports no contact, for the places
    where the primitive is not reached. *)
Definition checkSphereTriangle_none (s : btVector3) (r : float)
    (tri : CheckTriangle) (res : CollisionResult) : bool * CollisionResult :=
  (false, res).

(** The sphere-sphere scenario of the specification: radius 1 (margin 1,
    multiplier 1), centres (0,0,0) and (1.5,0,0). *)
Module Scenario.

Definition centreA : btVector3 := mkVec F32.zero F32.zero F32.zero.
Definition centreB : btVector3 := mkVec (F32.of_scaled 3 (-1)) F32.zero F32.zero.

Definition bodyA (i : nat) : VertexPos := mkVertexPos centreA F32.one.
Definition bodyB (i : nat) : VertexPos := mkVertexPos centreB F32.one.
Definition unitMargin : ShapeProp := mkShapeProp F32.one F32.zero.

Definition ctx : CheckContext := mkContext bodyA bodyB unitMargin unitMargin.

Definition a : Collider := PointCollider 0 F32.one.
Definition b : Collider := PointCollider 0 F32.one.

Definition minus_half : float := F32.of_scaled (-1) (-1).

(** A triangle collider over body B's vertices, all at one point: a
    triangle of zero area. *)
Definition flat : Collider := TriangleCollider 0 1 2 F32.one.

End Scenario.

(** ** The local broad-phase refiner and the pair dispatcher *)

Section Refiner.

Variable MaxCollisionCount : Z.
Variable SwapResults : bool.

(** Bounding boxes are declared outside the translated unit; the
    algorithms use them through these operations only:
    [collideWith x y] is [x.collideWith(y)], [merge x y] is the box [x]
    after [x.merge(y)], [invalidate x] is [x] after [x.invalidate()],
    and [Aabb_new] is a default-constructed box. *)
Variable Aabb : Type.
Variable collideWith : Aabb -> Aabb -> bool.
Variable merge : Aabb -> Aabb -> Aabb.
Variable invalidate : Aabb -> Aabb.
Variable Aabb_new : Aabb.

(** The [checkCollide] method of the checker the algorithm derives
    from; it works on the caller's [temp] result. *)
Variable checkCollide :
  Collider -> Collider -> CollisionResult -> bool * CollisionResult.

(** A node of a body's collider tree, as far as the algorithms read it:
    the box and collider buffers (raw pointers), the node's own box,
    and the sizes of the dynamic prefix and of the whole range. *)
Record ColliderTree : Type := mkTree {
  aabb : nat -> Aabb;
  cbuf : nat -> Collider;
  aabbMe : Aabb;
  isKinematic : bool;
  dynCollider : nat;
  numCollider : nat
}.

(** [hasResult], [result] and [temp] of the scanning loops. *)
Definition Best : Type := bool * CollisionResult * CollisionResult.

Definition best_init : Best := (false, zero, zero).

(** The innermost loop body, shared by all the scanning loops: skip the
    pair unless the two boxes collide, run the checker, and keep the
    hit when it is the first or strictly deeper than the one held.
    A pointer into [a->aabb] is modelled by its index. *)
Definition test_pair (a b : ColliderTree) (i j : nat) (acc : Best) : Best :=
  let '(hasResult, result, temp) := acc in
  if negb (collideWith (aabb a i) (aabb b j)) then acc
  else
    let '(hit, temp) := checkCollide (cbuf a i) (cbuf b j) temp in
    if hit then
      if negb hasResult || (depth result >? depth temp)%f32
      then (true, temp, temp)
      else (hasResult, result, temp)
    else (hasResult, result, temp).

Definition nonempty {A : Type} (l : list A) : bool :=
  match l with [] => false | _ :: _ => true end.

(** The loops of [CollisionCheckDispatcher::dispatch]. *)
Definition dispatch_scan (a b : ColliderTree) (listA listB : list nat) : Best :=
  if nonempty listA && nonempty listB then
    fold_left
      (fun acc i => fold_left (fun acc j => test_pair a b i j acc) listB acc)
      listA best_init
  else best_init.

(** [if (hasResult) addResult(result);] *)
Definition submit (acc : Best) (st : ResultSink) : ResultSink :=
  let '(hasResult, result, _) := acc in
  if hasResult then snd (addResult MaxCollisionCount SwapResults result st)
  else st.

Definition dispatch (a b : ColliderTree) (listA listB : list nat)
    (st : ResultSink) : ResultSink :=
  submit (dispatch_scan a b listA listB) st.

(** One box-collecting loop of the refactored algorithm: the indices
    below [n] whose box collides with [against], in order, and the
    merge of their boxes into [box]. *)
Definition collect (boxes : nat -> Aabb) (n : nat) (against box : Aabb)
  : list nat * Aabb :=
  fold_left
    (fun '(l, box) i =>
       if collideWith (boxes i) against
       then (l ++ [i], merge box (boxes i))
       else (l, box))
    (seq 0 n) ([], box).

Definition asize_of (a b : ColliderTree) : nat :=
  if isKinematic b then dynCollider a else numCollider a.
Definition bsize_of (a b : ColliderTree) : nat :=
  if isKinematic a then dynCollider b else numCollider b.

(** The candidate lists of the refactored algorithm. *)
Definition refine (a b : ColliderTree) : list nat * list nat :=
  let asize := asize_of a b in
  let bsize := bsize_of a b in
  let aabbB := aabbMe b in
  let '(listA, aabbA) := collect (aabb a) asize aabbB Aabb_new in
  let '(listB, aabbB) :=
    if nonempty listA
    then collect (aabb b) bsize aabbA (invalidate aabbB)
    else ([], aabbB) in
  let listA :=
    if nonempty listB
    then List.filter (fun i => collideWith (aabb a i) aabbB) listA
    else listA in
  (listA, listB).

(** What the [e_CPURefactored] algorithm finds for one coarse pair. *)
Definition scan_refactored (a b : ColliderTree) : Best :=
  let '(listA, listB) := refine a b in
  dispatch_scan a b listA listB.

(** What the [e_CPU] algorithm finds for one coarse pair. *)
Definition scan_cpu (a b : ColliderTree) : Best :=
  let aabbA := aabbMe a in
  let aabbB := aabbMe b in
  let asize := asize_of a b in
  let bsize := bsize_of a b in
  if (bsize <? asize)%nat then
    let list :=
      List.filter (fun j => collideWith (aabb b j) aabbA) (seq 0 bsize) in
    fold_left
      (fun acc i =>
         if negb (collideWith (aabb a i) aabbB) then acc
         else fold_left (fun acc j => test_pair a b i j acc) list acc)
      (seq 0 asize) best_init
  else
    let list :=
      List.filter (fun i => collideWith (aabb a i) aabbB) (seq 0 asize) in
    fold_left
      (fun acc j =>
         if negb (collideWith (aabb b j) aabbA) then acc
         else fold_left (fun acc i => test_pair a b i j acc) list acc)
      (seq 0 bsize) best_init.

(** The per-pair closure [func]: the capacity guard, the scan (which
    touches only the worker's own scratch lists, empty on entry and on
    exit) and the submission. *)
Definition guard (st : ResultSink) : bool :=
  numResults st >=? MaxCollisionCount.

Definition func (scan : ColliderTree -> ColliderTree -> Best)
    (pair : ColliderTree * ColliderTree) (st : ResultSink) : ResultSink :=
  if guard st then st
  else submit (scan (fst pair) (snd pair)) st.

Definition func_refactored := func scan_refactored.
Definition func_cpu := func scan_cpu.

(** [concurrency::parallel_for_each]: one task per pair.  A task reads
    the counter (the guard), works on its own, and then reserves a slot;
    tasks interleave between these two accesses of the shared sink.  A
    schedule lists the task that moves next. *)
Inductive TaskState : Type := Ready | Running | Finished.

Record Pool : Type := mkPool {
  sink : ResultSink;
  tasks : list TaskState
}.

Definition step (scan : ColliderTree -> ColliderTree -> Best)
    (pairs : list (ColliderTree * ColliderTree)) (k : nat) (pl : Pool) : Pool :=
  match tasks pl !! k, pairs !! k with
  | Some Ready, Some _ =>
      if guard (sink pl)
      then mkPool (sink pl) (<[k := Finished]> (tasks pl))
      else mkPool (sink pl) (<[k := Running]> (tasks pl))
  | Some Running, Some (a, b) =>
      mkPool (submit (scan a b) (sink pl))
             (<[k := Finished]> (tasks pl))
  | _, _ => pl
  end.

Definition parallel_for_each (scan : ColliderTree -> ColliderTree -> Best)
    (pairs : list (ColliderTree * ColliderTree)) (sched : list nat)
    (st : ResultSink) : Pool :=
  fold_left (fun pl k => step scan pairs k pl) sched
            (mkPool st (repeat Ready (length pairs))).

Definition is_finished (t : TaskState) : bool :=
  match t with Finished => true | _ => false end.

(** [operator()], given the coarse pairs [checkCollisionL] produced, the
    hardware concurrency and the schedule the pool follows; [None] when
    the schedule leaves a task unfinished. *)
Definition operator_call (scan : ColliderTree -> ColliderTree -> Best)
    (hardware_concurrency : nat)
    (pairs : list (ColliderTree * ColliderTree)) (sched : list nat)
    (st : ResultSink) : option (Z * ResultSink) :=
  if nonempty pairs then
    if (hardware_concurrency <=? length pairs)%nat then
      let pl := parallel_for_each scan pairs sched st in
      if forallb is_finished (tasks pl)
      then Some (numResults (sink pl), sink pl)
      else None
    else
      let st := fold_left (fun st pair => func scan pair st) pairs st in
      Some (numResults st, st)
  else Some (0, st).

End Refiner.

(** ** Bodies, bones and shapes *)

(** A skinned bone entry of a body; [ptr] is the address of the bone's
    rigid body. *)
Record SkinnedBone : Type := mkBone {
  ptr : nat;
  weightThreshold : float;
  bone_isKinematic : bool
}.

(** A body, as far as the merge stage reads it: its bone entries and its
    [canCollideWith] predicate on bones (given by address). *)
Record SkinnedMeshBody : Type := mkBody {
  m_skinnedBones : list SkinnedBone;
  canCollideWith : nat -> bool
}.

(** A shape, as far as the merge stage reads it: its owner and the three
    bone accessors. *)
Record SkinnedMeshShape : Type := mkShape {
  m_owner : SkinnedMeshBody;
  getBonePerCollider : nat;
  getColliderBoneWeight : Collider -> nat -> float;
  getColliderBoneIndex : Collider -> nat -> nat
}.

(** ** The merge buffer *)

(** A merge cell: [pos0] and [pos1] are [pos[0]] and [pos[1]]. *)
Record CollisionMerge : Type := mkMerge {
  normal : btVector3;
  pos0 : btVector3;
  pos1 : btVector3;
  weight : float
}.

Definition CollisionMerge_zero : CollisionMerge :=
  mkMerge Vec.zero Vec.zero Vec.zero F32.zero.

#[global] Instance CollisionMerge_inhabited : Inhabited CollisionMerge :=
  populate CollisionMerge_zero.

(** ** Rigid bodies, manifold points and the dispatcher's events *)

(** Bullet's [btTransform]: the three rows of the basis and the origin. *)
Record btTransform : Type := mkTransform {
  row0 : btVector3;
  row1 : btVector3;
  row2 : btVector3;
  m_origin : btVector3
}.

(** [invXform]: the transposed basis applied to [v - origin]. *)
Definition invXform (t : btTransform) (v : btVector3) : btVector3 :=
  let d := Vec.sub v (m_origin t) in
  mkVec (vx (row0 t) * vx d + vx (row1 t) * vy d + vx (row2 t) * vz d)%f32
        (vy (row0 t) * vx d + vy (row1 t) * vy d + vy (row2 t) * vz d)%f32
        (vz (row0 t) * vx d + vz (row1 t) * vy d + vz (row2 t) * vz d)%f32.

(** The rigid body [m_rig] of a bone. *)
Record RigidBody : Type := mkRigid {
  getWorldTransform : btTransform;
  getFriction : float;
  getRestitution : float;
  getRollingFriction : float
}.

Record btManifoldPoint : Type := mkPoint {
  m_localPointA : btVector3;
  m_localPointB : btVector3;
  m_normalWorldOnB : btVector3;
  m_distance1 : float;
  m_positionWorldOnA : btVector3;
  m_positionWorldOnB : btVector3;
  m_combinedFriction : float;
  m_combinedRestitution : float;
  m_combinedRollingFriction : float
}.

(** What [apply] asks of the dispatcher, in order.  Each event names the
    bone pair [(i, j)] being handled and the addresses of the two rigid
    bodies of the manifold. *)
Inductive Event : Type :=
| GetNewManifold (i j : nat) (rb0 rb1 : nat)
| AddManifoldPoint (i j : nat) (rb0 rb1 : nat) (pt : btManifoldPoint).

(** The bone pair and the two rigid bodies an event is about. *)
Definition event_bones (e : Event) : nat * nat :=
  match e with
  | GetNewManifold i j _ _ => (i, j)
  | AddManifoldPoint i j _ _ _ => (i, j)
  end.

Definition event_bodies (e : Event) : nat * nat :=
  match e with
  | GetNewManifold _ _ rb0 rb1 => (rb0, rb1)
  | AddManifoldPoint _ _ rb0 rb1 _ => (rb0, rb1)
  end.

Module MergeBuffer.

(** Modelled from the spec: the buffer's storage and its [get] are
    declared outside the translated unit.  The buffer is a table of
    merge cells keyed by (bone of A, bone of B); a cell that was never
    accumulated into is zero. *)
Definition get (buf : gmap (nat * nat) CollisionMerge) (x y : nat)
  : CollisionMerge := buf !!! (x, y).

Definition alloc : gmap (nat * nat) CollisionMerge := ∅.

(** The four [+=] of the innermost loop of [doMerge]. *)
Definition accumulate (res : CollisionResult) (flexible0 : float)
    (c : CollisionMerge) : CollisionMerge :=
  let w := (flexible0 * depth res)%f32 in
  let w2 := (w * w)%f32 in
  mkMerge (Vec.add (normal c) (Vec.scale (Vec.scale (normOnB res) w) w2))
          (Vec.add (pos0 c) (Vec.scale (posA res) w2))
          (Vec.add (pos1 c) (Vec.scale (posB res) w2))
          (weight c + w2)%f32.

(** A loop whose body can leave the defined behaviour ([None]: a bone
    index outside the bone vector). *)
Fixpoint loop {A B : Type} (body : B -> A -> option B) (l : list A) (acc : B)
  : option B :=
  match l with
  | [] => Some acc
  | x :: l' =>
      match body acc x with
      | Some acc' => loop body l' acc'
      | None => None
      end
  end.

Section DoMerge.

Variables a b : SkinnedMeshShape.

(** The body of the loop over [jb]. *)
Definition merge_bone_pair (res : CollisionResult) (flexible0 : float)
    (boneIdx0 : nat) (bone0 : SkinnedBone)
    (buf : gmap (nat * nat) CollisionMerge) (jb : nat)
  : option (gmap (nat * nat) CollisionMerge) :=
  let w1 := getColliderBoneWeight b (colliderB res) jb in
  let boneIdx1 := getColliderBoneIndex b (colliderB res) jb in
  match m_skinnedBones (m_owner b) !! boneIdx1 with
  | None => None
  | Some bone1 =>
      if (w1 <=? weightThreshold bone1)%f32 then Some buf
      else if bone_isKinematic bone0 && bone_isKinematic bone1 then Some buf
      else
        Some (<[(boneIdx0, boneIdx1) :=
                  accumulate res flexible0 (get buf boneIdx0 boneIdx1)]> buf)
  end.

(** The body of the loop over [ib]. *)
Definition merge_bone (res : CollisionResult) (flexible0 : float)
    (buf : gmap (nat * nat) CollisionMerge) (ib : nat)
  : option (gmap (nat * nat) CollisionMerge) :=
  let w0 := getColliderBoneWeight a (colliderA res) ib in
  let boneIdx0 := getColliderBoneIndex a (colliderA res) ib in
  match m_skinnedBones (m_owner a) !! boneIdx0 with
  | None => None
  | Some bone0 =>
      if (w0 <=? weightThreshold bone0)%f32 then Some buf
      else
        loop (merge_bone_pair res flexible0 boneIdx0 bone0)
             (seq 0 (getBonePerCollider b)) buf
  end.

(** The loop over the contacts, from index [i] with [n] iterations
    left.  The first component logs the indices of [collision] that
    were read. *)
Fixpoint merge_from (collision : gmap Z CollisionResult) (n : nat) (i : Z)
    (buf : gmap (nat * nat) CollisionMerge)
  : list Z * option (gmap (nat * nat) CollisionMerge) :=
  match n with
  | O => ([], Some buf)
  | S n' =>
      let res := collision !!! i in
      if (depth res >=? - FLT_EPSILON)%f32 then ([i], Some buf)
      else
        let flexible0 :=
          F32.max (flexible (colliderA res)) (flexible (colliderB res)) in
        if (flexible0 <? FLT_EPSILON)%f32 then ([i], Some buf)
        else
          match loop (merge_bone res flexible0)
                     (seq 0 (getBonePerCollider a)) buf with
          | None => ([i], None)
          | Some buf' =>
              let '(reads, out) := merge_from collision n' (i + 1) buf' in
              (i :: reads, out)
          end
  end.

Definition doMerge (collision : gmap Z CollisionResult) (count : Z)
    (buf : gmap (nat * nat) CollisionMerge)
  : list Z * option (gmap (nat * nat) CollisionMerge) :=
  merge_from collision (Z.to_nat count) 0 buf.

End DoMerge.

(** The vector [v] with its indices: [for (int i = 0; i < v.size(); ++i)]
    over [v[i]]. *)
Definition indexed {A : Type} (v : list A) : list (nat * A) :=
  combine (seq 0 (length v)) v.

Section Apply.

Variables body0 body1 : SkinnedMeshBody.
(** The memory holding the bones' rigid bodies, by address. *)
Variable rigid : nat -> RigidBody.
Variable buf : gmap (nat * nat) CollisionMerge.

(** The body of the loop over [j], after the test on [j]'s bone. *)
Definition emit (i j : nat) (bone0 bone1 : SkinnedBone) : list Event :=
  if (weight (get buf i j) <? FLT_EPSILON)%f32 then []
  else if bone_isKinematic bone0 && bone_isKinematic bone1 then []
  else
    let rb0 := ptr bone0 in
    let rb1 := ptr bone1 in
    if Nat.eqb rb0 rb1 then []
    else
      let c := get buf i j in
      let invWeight := (F32.one / weight c)%f32 in
      GetNewManifold i j rb0 rb1 ::
      (let worldA := Vec.scale (pos0 c) invWeight in
       let worldB := Vec.scale (pos1 c) invWeight in
       let localA := invXform (getWorldTransform (rigid rb0)) worldA in
       let localB := invXform (getWorldTransform (rigid rb1)) worldB in
       let normal0 := Vec.scale (normal c) invWeight in
       if Vec.fuzzyZero normal0 then []
       else
         let depth0 := (- Vec.length normal0)%f32 in
         let normal0 := Vec.neg (Vec.normalized normal0) in
         if (depth0 >=? - FLT_EPSILON)%f32 then []
         else
           [AddManifoldPoint i j rb0 rb1
              (mkPoint localA localB normal0 depth0 worldA worldB
                 (getFriction (rigid rb0) * getFriction (rigid rb1))%f32
                 (getRestitution (rigid rb0) * getRestitution (rigid rb1))%f32
                 (getRollingFriction (rigid rb0)
                  * getRollingFriction (rigid rb1))%f32)]).

Definition apply : list Event :=
  flat_map
    (fun '(i, bone0) =>
       if negb (canCollideWith body1 (ptr bone0)) then []
       else
         flat_map
           (fun '(j, bone1) =>
              if negb (canCollideWith body0 (ptr bone1)) then []
              else emit i j bone0 bone1)
           (indexed (m_skinnedBones body1)))
    (indexed (m_skinnedBones body0)).

End Apply.

End MergeBuffer.

(** ** [processCollision] *)

(** [body->m_shape] through its two casts: every shape has a per-vertex
    view, a per-triangle shape has a per-triangle view as well. *)
Record ShapeViews : Type := mkViews {
  asPerVertexShape : SkinnedMeshShape;
  asPerTriangleShape : option SkinnedMeshShape
}.

Section ProcessCollision.

Variable MaxCollisionCount : Z.

(** The overloads of [checkCollide(shape0, shape1, results)]: they run
    the pair dispatcher over the array and return its count. *)
Variable checkCollide :
  SkinnedMeshShape -> SkinnedMeshShape -> gmap Z CollisionResult ->
  Z * gmap Z CollisionResult.

(** The state the two stages of [processCollision] thread: the indices
    of [collision] read so far, the array, and the merge buffer ([None]
    once a bone index left its vector). *)
Record Stage : Type := mkStage {
  reads : list Z;
  collision : gmap Z CollisionResult;
  merge : option (gmap (nat * nat) CollisionMerge)
}.

(** The template [processCollision(shape0, shape1, merge, collision)]. *)
Definition processCollision_shapes (shape0 shape1 : SkinnedMeshShape)
    (s : Stage) : Stage :=
  match merge s with
  | None => s
  | Some buf =>
      let '(r, coll) := checkCollide shape0 shape1 (collision s) in
      let count := Z.min r MaxCollisionCount in
      if 0 <? count then
        let '(rd, out) := MergeBuffer.doMerge shape0 shape1 coll count buf in
        mkStage (reads s ++ rd) coll out
      else mkStage (reads s) coll (Some buf)
  end.

(** [processCollision(body0, body1, dispatcher)]: the indices of the
    collision array that were read, and the events sent to the
    dispatcher ([None] when the merge left the defined behaviour). *)
Definition processCollision (body0 body1 : SkinnedMeshBody)
    (shape0 shape1 : ShapeViews) (rigid : nat -> RigidBody)
  : list Z * option (list Event) :=
  let s := mkStage [] ∅ (Some MergeBuffer.alloc) in
  let s :=
    match asPerTriangleShape shape0, asPerTriangleShape shape1 with
    | Some t0, Some t1 =>
        processCollision_shapes (asPerVertexShape shape0) t1
          (processCollision_shapes t0 (asPerVertexShape shape1) s)
    | Some t0, None =>
        processCollision_shapes t0 (asPerVertexShape shape1) s
    | None, Some t1 =>
        processCollision_shapes (asPerVertexShape shape0) t1 s
    | None, None =>
        processCollision_shapes (asPerVertexShape shape0)
          (asPerVertexShape shape1) s
    end in
  (reads s, MergeBuffer.apply body0 body1 rigid <$> merge s).

End ProcessCollision.

(** The role-swapped relabeling of a contact, in the words of the
    specification: sides A and B exchanged (positions and colliders), the
    normal negated, the depth kept. *)
Definition mirror (r : CollisionResult) : CollisionResult :=
  mkResult (posB r) (posA r) (Vec.neg (normOnB r))
           (colliderB r) (colliderA r) (depth r).

(** A contact used in the examples: the one of the sphere-sphere
    scenario when the two centres are handed to the primitive. *)
Definition sample_contact : CollisionResult :=
  snd (checkSphereSphere Scenario.centreA Scenario.centreB F32.one F32.one
         (mkResult Vec.zero Vec.zero Vec.zero Scenario.a
                   (TriangleCollider 0 1 2 F32.one) F32.zero)).

(** ** The merge, in the words of the specification *)

Module MergeSpec.

(** A weight exceeds a threshold: it is not at most the threshold (for
    numbers: it is strictly greater). *)
Definition exceeds (w t : float) : bool := negb (w <=? t)%f32.

Definition flexible_of (res : CollisionResult) : float :=
  F32.max (flexible (colliderA res)) (flexible (colliderB res)).

(** The contacts that are merged: those before the first contact with
    [depth >= -FLT_EPSILON] or with [flexible < FLT_EPSILON]. *)
Fixpoint processed (contacts : list CollisionResult) : list CollisionResult :=
  match contacts with
  | [] => []
  | res :: rest =>
      if (depth res >=? - FLT_EPSILON)%f32 then []
      else if (flexible_of res <? FLT_EPSILON)%f32 then []
      else res :: processed rest
  end.

(** The bones of collider [c] of shape [s] whose weight exceeds the
    bone's threshold, with their indices, in slot order. *)
Definition influencing (s : SkinnedMeshShape) (c : Collider)
  : list (nat * SkinnedBone) :=
  flat_map
    (fun ib =>
       let idx := getColliderBoneIndex s c ib in
       match m_skinnedBones (m_owner s) !! idx with
       | Some bone =>
           if exceeds (getColliderBoneWeight s c ib) (weightThreshold bone)
           then [(idx, bone)] else []
       | None => []
       end)
    (seq 0 (getBonePerCollider s)).

(** The cells a contact contributes to: every influencing bone of A
    with every influencing bone of B, except when both are kinematic. *)
Definition bone_pairs (a b : SkinnedMeshShape) (res : CollisionResult)
  : list (nat * nat) :=
  flat_map
    (fun '(x, bone0) =>
       flat_map
         (fun '(y, bone1) =>
            if bone_isKinematic bone0 && bone_isKinematic bone1
            then [] else [(x, y)])
         (influencing b (colliderB res)))
    (influencing a (colliderA res)).

(** The contribution of a contact to a cell, with [w = flexible * depth]
    and [w2 = w * w]. *)
Definition contribute (res : CollisionResult) (c : CollisionMerge)
  : CollisionMerge :=
  let w := (flexible_of res * depth res)%f32 in
  let w2 := (w * w)%f32 in
  mkMerge (Vec.add (normal c) (Vec.scale (Vec.scale (normOnB res) w) w2))
          (Vec.add (pos0 c) (Vec.scale (posA res) w2))
          (Vec.add (pos1 c) (Vec.scale (posB res) w2))
          (weight c + w2)%f32.

Definition add_contact (res : CollisionResult)
    (buf : gmap (nat * nat) CollisionMerge) (xy : nat * nat)
  : gmap (nat * nat) CollisionMerge :=
  <[xy := contribute res (buf !!! xy)]> buf.

Definition merge_contact (a b : SkinnedMeshShape)
    (buf : gmap (nat * nat) CollisionMerge) (res : CollisionResult)
  : gmap (nat * nat) CollisionMerge :=
  fold_left (add_contact res) (bone_pairs a b res) buf.

Definition merged (a b : SkinnedMeshShape) (contacts : list CollisionResult)
    (buf : gmap (nat * nat) CollisionMerge)
  : gmap (nat * nat) CollisionMerge :=
  fold_left (merge_contact a b) (processed contacts) buf.

(** Every bone index of collider [c] lies inside the owner's bone
    vector. *)
Definition bones_in_range (s : SkinnedMeshShape) (c : Collider) : Prop :=
  forall ib : nat,
    (ib < getBonePerCollider s)%nat ->
    (getColliderBoneIndex s c ib < length (m_skinnedBones (m_owner s)))%nat.

(** The first [count] entries of the array, in index order. *)
Definition contacts_of (collision : gmap Z CollisionResult) (count : Z)
  : list CollisionResult :=
  map (fun i => collision !!! i) (seqZ 0 count).

End MergeSpec.

(** ** A small body pair for the examples *)

Module Demo.

Definition half : float := F32.of_scaled 1 (-1).

(** Two bones, the second kinematic, with rigid bodies at addresses 10
    and 11. *)
Definition bonesA : list SkinnedBone :=
  [mkBone 10 half false; mkBone 11 half true].
Definition bonesB : list SkinnedBone :=
  [mkBone 20 half true; mkBone 21 half false].

Definition bodyA : SkinnedMeshBody := mkBody bonesA (fun _ => true).
Definition bodyB : SkinnedMeshBody := mkBody bonesB (fun _ => true).

(** Every collider is skinned to bones 0 and 1 with weight 1. *)
Definition shapeA : SkinnedMeshShape :=
  mkShape bodyA 2 (fun _ _ => F32.one) (fun _ ib => ib).
Definition shapeB : SkinnedMeshShape :=
  mkShape bodyB 2 (fun _ _ => F32.one) (fun _ ib => ib).

(** A collision array: one penetrating contact, then an untouched
    slot. *)
Definition collision : gmap Z CollisionResult :=
  <[0 := sample_contact]> ∅.

(** All rigid bodies sit at the origin with the identity basis and unit
    coefficients. *)
Definition identity : btTransform :=
  mkTransform (mkVec F32.one F32.zero F32.zero)
              (mkVec F32.zero F32.one F32.zero)
              (mkVec F32.zero F32.zero F32.one)
              Vec.zero.
Definition rigid (address : nat) : RigidBody :=
  mkRigid identity F32.one F32.one F32.one.

End Demo.

Arguments mkTree {Aabb}.
Arguments aabb {Aabb}.
Arguments cbuf {Aabb}.
Arguments aabbMe {Aabb}.
Arguments isKinematic {Aabb}.
Arguments dynCollider {Aabb}.
Arguments numCollider {Aabb}.
Arguments asize_of {Aabb}.
Arguments bsize_of {Aabb}.

(** ** The candidate universe of a coarse pair, in the words of the
    specification *)

Section Universe.

Variable Aabb : Type.
Variable collideWith : Aabb -> Aabb -> bool.
Variable checkCollide :
  Collider -> Collider -> CollisionResult -> bool * CollisionResult.

(** All pairs of an index of [l1] with an index of [l2], the first index
    varying slowest. *)
Definition product (l1 l2 : list nat) : list (nat * nat) :=
  flat_map (fun i => map (fun j => (i, j)) l2) l1.

(** The primitive pairs of a coarse pair that are worth a precise test:
    a collider of A in range whose box meets the box of B, with a collider
    of B in range whose box it meets. *)
Definition candidates (a b : ColliderTree Aabb) : list (nat * nat) :=
  List.filter
    (fun p =>
       collideWith (aabb a (fst p)) (aabb b (snd p))
       && collideWith (aabb a (fst p)) (aabbMe b))
    (product (seq 0 (asize_of a b)) (seq 0 (bsize_of a b))).

(** The contacts of the candidates that overlap. *)
Definition overlaps (a b : ColliderTree Aabb) : list CollisionResult :=
  flat_map
    (fun p =>
       let '(hit, r) := checkCollide (cbuf a (fst p)) (cbuf b (snd p)) zero in
       if hit then [r] else [])
    (candidates a b).

(** [found] is a best-of-pair result for the contacts [U]: nothing when
    [U] is empty, else one of [U] than which none is strictly deeper. *)
Definition deepest (U : list CollisionResult) (found : Best) : Prop :=
  let '(hasResult, result, _) := found in
  if hasResult
  then In result U
       /\ forall r, In r U -> (depth r <? depth result)%f32 = false
  else U = [].

End Universe.

Arguments product : clear implicits.
Arguments candidates {Aabb}.
Arguments overlaps {Aabb}.

(** ** Bounding boxes over binary32 lanes *)

Module Box.

(** Modelled from the spec: the box type is declared outside the
    translated unit.  An axis-aligned box is given by its minimum and
    maximum corners; two boxes collide when they overlap on each of the
    three axes; merging takes the lane-wise minimum of the minima and
    maximum of the maxima; an invalidated box, and a new one, is the empty
    box that runs from [FLT_MAX] down to [-FLT_MAX]. *)
Record Aabb : Type := mkAabb { m_min : btVector3; m_max : btVector3 }.

Definition le3 (u v : btVector3) : bool :=
  (vx u <=? vx v)%f32 && (vy u <=? vy v)%f32 && (vz u <=? vz v)%f32.

Definition collideWith (x y : Aabb) : bool :=
  le3 (m_min x) (m_max y) && le3 (m_min y) (m_max x).

Definition fmin (u v : float) : float := if (u <? v)%f32 then u else v.
Definition fmax (u v : float) : float := if (u >? v)%f32 then u else v.

Definition min3 (u v : btVector3) : btVector3 :=
  mkVec (fmin (vx u) (vx v)) (fmin (vy u) (vy v)) (fmin (vz u) (vz v)).
Definition max3 (u v : btVector3) : btVector3 :=
  mkVec (fmax (vx u) (vx v)) (fmax (vy u) (vy v)) (fmax (vz u) (vz v)).

Definition merge (x y : Aabb) : Aabb :=
  mkAabb (min3 (m_min x) (m_min y)) (max3 (m_max x) (m_max y)).

Definition FLT_MAX : float := F32.of_scaled (2 ^ 24 - 1) 104.

Definition Aabb_new : Aabb :=
  mkAabb (mkVec FLT_MAX FLT_MAX FLT_MAX)
         (mkVec (- FLT_MAX)%f32 (- FLT_MAX)%f32 (- FLT_MAX)%f32).

Definition invalidate (x : Aabb) : Aabb := Aabb_new.

(** [big] encloses [small]. *)
Definition encloses (big small : Aabb) : bool :=
  le3 (m_min big) (m_min small) && le3 (m_max small) (m_max big).

(** The box of a sphere. *)
Definition around (c : btVector3) (r : float) : Aabb :=
  mkAabb (mkVec (vx c - r)%f32 (vy c - r)%f32 (vz c - r)%f32)
         (mkVec (vx c + r)%f32 (vy c + r)%f32 (vz c + r)%f32).

End Box.

(** The sphere-sphere checker as the specification describes it: the
    second sphere is the vertex of [b], read from the second body with the
    second shape's margin. *)
Definition checkCollide_as_specified (ctx : CheckContext) (a b : Collider)
    (res : CollisionResult) : bool * CollisionResult :=
  let s0 := v0 ctx (vertex a) in
  let r0 := (marginMultiplier s0 * margin (sp0 ctx))%f32 in
  let s1 := v1 ctx (vertex b) in
  let r1 := (marginMultiplier s1 * margin (sp1 ctx))%f32 in
  let '(ret, res) := checkSphereSphere (pos s0) (pos s1) r0 r1 res in
  (ret, set_colliderB b (set_colliderA a res)).

(** ** A coarse pair with two equally deep contacts *)

Module Tie.

(** Body A has unit spheres at (0,0,0) and (10,0,0); body B has unit
    spheres at (10.5,0,0) and (0.5,0,0).  The first sphere of A overlaps
    the second of B and the second of A the first of B, by the same
    amount: both contacts have depth [-1.5]. *)
Definition at_x (m e : Z) : VertexPos :=
  mkVertexPos (mkVec (F32.of_scaled m e) F32.zero F32.zero) F32.one.

Definition vposA (i : nat) : VertexPos :=
  match i with O => at_x 0 0 | _ => at_x 10 0 end.
Definition vposB (i : nat) : VertexPos :=
  match i with O => at_x 21 (-1) | _ => at_x 1 (-1) end.

Definition ctx : CheckContext :=
  mkContext vposA vposB Scenario.unitMargin Scenario.unitMargin.

Definition box_of (v : VertexPos) : Box.Aabb := Box.around (pos v) F32.one.

Definition treeA : ColliderTree Box.Aabb :=
  mkTree (fun i => box_of (vposA i)) (fun i => PointCollider i F32.one)
         (Box.merge (box_of (vposA 0)) (box_of (vposA 1))) false 2 2.
Definition treeB : ColliderTree Box.Aabb :=
  mkTree (fun i => box_of (vposB i)) (fun i => PointCollider i F32.one)
         (Box.merge (box_of (vposB 0)) (box_of (vposB 1))) false 2 2.

(** Body B seen through its first collider only. *)
Definition treeB1 : ColliderTree Box.Aabb :=
  mkTree (fun i => box_of (vposB i)) (fun i => PointCollider i F32.one)
         (box_of (vposB 0)) false 1 1.

(** The sphere-sphere checker over these bodies, as the specification
    describes it.  (The checker of the source hands the first sphere to
    the primitive twice, a coincident pair, and so finds no contact
    here.) *)
Definition checker : Collider -> Collider -> CollisionResult ->
                     bool * CollisionResult :=
  checkCollide_as_specified ctx.

Definition refactored (a b : ColliderTree Box.Aabb) : Best :=
  scan_refactored Box.Aabb Box.collideWith Box.merge Box.invalidate
    Box.Aabb_new checker a b.
Definition cpu (a b : ColliderTree Box.Aabb) : Best :=
  scan_cpu Box.Aabb Box.collideWith checker a b.

(** What each variant leaves in slot 0 of a fresh sink of capacity 256
    after handling the coarse pair. *)
Definition submitted_refactored
    (check : Collider -> Collider -> CollisionResult -> bool * CollisionResult)
  : option CollisionResult :=
  results
    (func_refactored 256 false Box.Aabb Box.collideWith Box.merge
       Box.invalidate Box.Aabb_new check (treeA, treeB)
       (CollisionCheckBase1 ∅)) !! 0.
Definition submitted_cpu
    (check : Collider -> Collider -> CollisionResult -> bool * CollisionResult)
  : option CollisionResult :=
  results
    (func_cpu 256 false Box.Aabb Box.collideWith check (treeA, treeB)
       (CollisionCheckBase1 ∅)) !! 0.

End Tie.

(** ** A run of the pair dispatcher that overshoots the capacity *)

Module Overshoot.

(** 257 coarse pairs, each with an overlapping contact, for a sink of
    capacity 256 and two hardware threads. *)
Definition pairs : list (ColliderTree Box.Aabb * ColliderTree Box.Aabb) :=
  repeat (Tie.treeA, Tie.treeB) 257.

(** Tasks 0 to 254 run one after the other; then tasks 255 and 256 both
    pass the guard (the counter reads 255) before either reserves its
    slot. *)
Definition schedule : list nat :=
  flat_map (fun k => [k; k]) (seq 0 255) ++ [255; 256; 255; 256]%nat.

Definition run : option (Z * ResultSink) :=
  operator_call 256 false Box.Aabb (fun a b => Tie.refactored a b) 2
    pairs schedule (CollisionCheckBase1 ∅).

Definition final : ResultSink :=
  match run with
  | Some (_, st) => st
  | None => CollisionCheckBase1 ∅
  end.

End Overshoot.

(** ** More bodies for the examples *)

Module Apart.

(** Body B of the tie example moved far away along x: spheres at
    (100,0,0) and (101,0,0). *)
Definition vposFar (i : nat) : VertexPos :=
  match i with O => Tie.at_x 100 0 | _ => Tie.at_x 101 0 end.

Definition treeFar : ColliderTree Box.Aabb :=
  mkTree (fun i => Tie.box_of (vposFar i)) (fun i => PointCollider i F32.one)
         (Box.merge (Tie.box_of (vposFar 0)) (Tie.box_of (vposFar 1)))
         false 2 2.

(** A sink of capacity 3 whose counter already stands at 5. *)
Definition full : ResultSink := mkSink 5 (<[0 := sample_contact]> ∅).

End Apart.

(** ** The shape-level entry points of the checker *)

(** The two kinds of shape the checker is instantiated for. *)
Inductive ShapeType : Type := PerVertexShape | PerTriangleShape.

Section CheckShapes.

Variable MaxCollisionCount : Z.
Variable Aabb : Type.
Variable collideWith : Aabb -> Aabb -> bool.
Variable merge : Aabb -> Aabb -> Aabb.
Variable invalidate : Aabb -> Aabb.
Variable Aabb_new : Aabb.
Variable sphereSphere :
  btVector3 -> btVector3 -> float -> float -> CollisionResult ->
  bool * CollisionResult.
Variable Triangle : Type.
Variable mkTri : btVector3 -> btVector3 -> btVector3 -> float -> float -> Triangle.
Variable validTri : Triangle -> bool.
Variable sphereTriangle :
  btVector3 -> float -> Triangle -> CollisionResult -> bool * CollisionResult.

(** [c0->checkCollisionL(c1, pairs)] of the collider tree, declared
    outside the translated unit: the coarse pairs of two trees. *)
Variable checkCollisionL :
  ColliderTree Aabb -> ColliderTree Aabb ->
  list (ColliderTree Aabb * ColliderTree Aabb).
Variable hardware_concurrency : nat.

(** A per-vertex or per-triangle shape, as far as the checker reads it:
    the owner's vertex buffer, the collider tree and the shape
    properties. *)
Record PerShape : Type := mkPerShape {
  m_vpos : nat -> VertexPos;
  m_tree : ColliderTree Aabb;
  m_shapeProp : ShapeProp
}.

(** The [checkCollide] method of [CollisionChecker<T, SwapResults>]. *)
Definition CollisionChecker (T : ShapeType) (ctx : CheckContext)
  : Collider -> Collider -> CollisionResult -> bool * CollisionResult :=
  match T with
  | PerVertexShape => checkCollide_vertex sphereSphere ctx
  | PerTriangleShape =>
      checkCollide_triangle Triangle mkTri validTri sphereTriangle ctx
  end.

(** [CollisionCheckAlgorithm<T, SwapResults>(a, b, r)()], with the
    default algorithm [e_CPURefactored]: the constructor of
    [CollisionCheckBase1] followed by [operator()], under the schedule the
    pool follows. *)
Definition CollisionCheckAlgorithm (T : ShapeType) (SwapResults : bool)
    (a b : PerShape) (r : gmap Z CollisionResult) (sched : list nat)
  : option (Z * ResultSink) :=
  let ctx := mkContext (m_vpos a) (m_vpos b) (m_shapeProp a) (m_shapeProp b) in
  operator_call MaxCollisionCount SwapResults Aabb
    (scan_refactored Aabb collideWith merge invalidate Aabb_new
       (CollisionChecker T ctx))
    hardware_concurrency (checkCollisionL (m_tree a) (m_tree b)) sched
    (CollisionCheckBase1 r).

(** [checkCollide(PerVertexShape* a, T1* b, results)] *)
Definition checkCollide_vertex_first (T1 : ShapeType) (a b : PerShape)
    (r : gmap Z CollisionResult) (sched : list nat) : option (Z * ResultSink) :=
  CollisionCheckAlgorithm T1 false a b r sched.

(** [checkCollide(PerTriangleShape* a, PerVertexShape* b, results)] *)
Definition checkCollide_triangle_first (a b : PerShape)
    (r : gmap Z CollisionResult) (sched : list nat) : option (Z * ResultSink) :=
  CollisionCheckAlgorithm PerTriangleShape true b a r sched.

End CheckShapes.

Arguments mkPerShape {Aabb}.
Arguments m_vpos {Aabb}.
Arguments m_tree {Aabb}.
Arguments m_shapeProp {Aabb}.

(** The schedule that runs the tasks one after the other: each task
    takes its two steps before the next one starts. *)
Definition serial_schedule (n : nat) : list nat :=
  flat_map (fun k => [k; k]) (seq 0 n).

(** The requests that add a contact point to a manifold. *)
Definition is_point (e : Event) : bool :=
  match e with
  | AddManifoldPoint _ _ _ _ _ => true
  | GetNewManifold _ _ _ _ => false
  end.

(** ** A merge buffer with one accumulated cell *)

Module OneCell.

(** The cell of bone pair (0, 0): weight 1 and the unit normal along x. *)
Definition cell : CollisionMerge :=
  mkMerge (mkVec F32.one F32.zero F32.zero) Vec.zero Vec.zero F32.one.

Definition table : gmap (nat * nat) CollisionMerge :=
  <[(0%nat, 0%nat) := cell]> ∅.

End OneCell.

(** The contacts a scan finds for the coarse pairs, one at most per
    pair, in the order of the pairs. *)
Definition found_contacts {Aabb : Type}
    (scan : ColliderTree Aabb -> ColliderTree Aabb -> Best)
    (pairs : list (ColliderTree Aabb * ColliderTree Aabb))
  : list CollisionResult :=
  flat_map
    (fun pair =>
       let '(hasResult, result, _) := scan (fst pair) (snd pair) in
       if hasResult then [result] else [])
    pairs.

(** * Properties *)

(** ** The order of binary32 values *)

Section FloatOrder.

Ltac cmp_split :=
  repeat match goal with
    | H : context [Z.compare ?a ?b] |- _ => destruct (Z.compare_spec a b)
    | |- context [Z.compare ?a ?b] => destruct (Z.compare_spec a b)
    | H : context [Pos.compare_cont Eq ?a ?b] |- _ =>
        change (Pos.compare_cont Eq a b) with (Pos.compare a b) in *;
        destruct (Pos.compare_spec a b)
    | |- context [Pos.compare_cont Eq ?a ?b] =>
        change (Pos.compare_cont Eq a b) with (Pos.compare a b) in *;
        destruct (Pos.compare_spec a b)
    end.

Ltac float_order :=
  unfold F32.ltb, F32.leb, F32.gtb, F32.geb, SFltb, SFleb;
  intros;
  repeat match goal with
    | x : float |- _ => destruct x as [[]|[]| |[] ? ?]
    | x : spec_float |- _ => destruct x as [[]|[]| |[] ? ?]
    end;
  simpl in *; try discriminate; try reflexivity;
  cmp_split; simpl in *; try discriminate; try reflexivity; try lia.

Lemma ltb_trans (x y z : float) :
  F32.ltb x y = true -> F32.ltb y z = true -> F32.ltb x z = true.
Proof. float_order. Qed.

Lemma leb_trans (x y z : float) :
  F32.leb x y = true -> F32.leb y z = true -> F32.leb x z = true.
Proof. float_order. Qed.

Lemma ltb_leb_trans (x y z : float) :
  F32.ltb x y = true -> F32.leb y z = true -> F32.leb x z = true.
Proof. float_order. Qed.

Lemma leb_ltb_trans (x y z : float) :
  F32.leb x y = true -> F32.ltb y z = true -> F32.leb x z = true.
Proof. float_order. Qed.

(** Two numbers are comparable: [x <= x] says that [x] is a number. *)
Lemma leb_total (x y : float) :
  F32.leb x x = true -> F32.leb y y = true ->
  F32.ltb y x = false -> F32.leb x y = true.
Proof. float_order. Qed.

(** For numbers, "not at most" is "strictly greater". *)
Lemma not_leb_gtb (x y : float) :
  F32.leb x x = true -> F32.leb y y = true ->
  negb (F32.leb x y) = F32.gtb x y.
Proof. float_order. Qed.

Lemma leb_number_l (x y : float) : F32.leb x y = true -> F32.leb x x = true.
Proof. float_order. Qed.

Lemma leb_number_r (x y : float) : F32.leb x y = true -> F32.leb y y = true.
Proof. float_order. Qed.

(** Numbers neither of which is below the other are equal. *)
Lemma ltb_neither_eqb (x y : float) :
  F32.is_nan x = false -> F32.is_nan y = false ->
  F32.ltb x y = false -> F32.ltb y x = false -> F32.eqb x y = true.
Proof. unfold F32.eqb, SFeqb, F32.is_nan. float_order. Qed.

(** For numbers, "not at least" is "strictly below". *)
Lemma not_geb_ltb (x y : float) :
  F32.is_nan x = false -> F32.is_nan y = false ->
  F32.geb x y = false -> F32.ltb x y = true.
Proof. unfold F32.is_nan. float_order. Qed.

End FloatOrder.

(** ** The bounded result sink *)
Section SinkFacts.

Variable MaxCollisionCount : Z.
Variable SwapResults : bool.

Lemma wrap32_small (z : Z) : - 2 ^ 31 <= z < 2 ^ 31 -> wrap32 z = z.
Proof. intros H. unfold wrap32. rewrite Z.mod_small; lia. Qed.

Lemma addResult_unfold (res : CollisionResult) (st : ResultSink) :
  addResult MaxCollisionCount SwapResults res st =
  (numResults st <? MaxCollisionCount,
   mkSink (wrap32 (numResults st + 1))
     (if numResults st <? MaxCollisionCount
      then <[numResults st :=
               store SwapResults (results st !!! numResults st) res]>
             (results st)
      else results st)).
Proof.
  unfold addResult, fetch_add.
  destruct (numResults st <? MaxCollisionCount); reflexivity.
Qed.

(** A run of submissions that starts at counter value [numResults st]
    and does not wrap the counter: the flags returned, the final
    counter, and the slots of the array afterwards. *)
Lemma addResults_spec (rs : list CollisionResult) :
  forall st : ResultSink,
    0 <= numResults st ->
    numResults st + Z.of_nat (length rs) < 2 ^ 31 ->
    let out := addResults MaxCollisionCount SwapResults rs st in
    fst out = map (fun k => numResults st + Z.of_nat k <? MaxCollisionCount)
                  (seq 0 (length rs))
    /\ numResults (snd out) = numResults st + Z.of_nat (length rs)
    /\ (forall k,
          ~ (numResults st <= k < numResults st + Z.of_nat (length rs)
             /\ k < MaxCollisionCount) ->
          results (snd out) !! k = results st !! k)
    /\ (forall (i : nat) (r : CollisionResult),
          rs !! i = Some r ->
          numResults st + Z.of_nat i < MaxCollisionCount ->
          results (snd out) !! (numResults st + Z.of_nat i) =
          Some (store SwapResults
                  (results st !!! (numResults st + Z.of_nat i)) r)).
Proof.
  induction rs as [|r rs IH]; intros st Hpos Hlen.
  - simpl in *. split; [reflexivity|]. split; [lia|]. split; [reflexivity|].
    intros i r Hi. destruct i; discriminate.
  - cbn [addResults length] in *. rewrite addResult_unfold.
    match goal with |- context [addResults _ _ rs ?s] => set (st1 := s) end.
    specialize (IH st1).
    assert (H1 : numResults st1 = numResults st + 1).
    { subst st1; simpl. apply wrap32_small. lia. }
    destruct (addResults MaxCollisionCount SwapResults rs st1) as [bs st2].
    cbn [fst snd] in *. rewrite H1 in IH.
    destruct IH as (Hf & Hn & Hout & Hin); [lia|lia|].
    assert (Hst1 : forall k, k <> numResults st ->
                             results st1 !! k = results st !! k).
    { intros k Hk. subst st1; simpl.
      destruct (numResults st <? MaxCollisionCount); [|reflexivity].
      apply lookup_insert_ne. congruence. }
    split; [|split; [|split]].
    + cbn [seq map]. f_equal; [rewrite Z.add_0_r; reflexivity|].
      rewrite Hf, <- seq_shift, map_map. apply map_ext. intros k.
      f_equal. lia.
    + lia.
    + intros k Hk.
      destruct (decide (k = numResults st)) as [->|Hne].
      * rewrite Hout by lia. subst st1; simpl.
        destruct (numResults st <? MaxCollisionCount) eqn:Hp; [|reflexivity].
        apply Z.ltb_lt in Hp. lia.
      * rewrite Hout by lia. apply Hst1, Hne.
    + intros [|i] r0 Hi Hlt; simpl in Hi.
      * injection Hi as ->. rewrite Z.add_0_r in *.
        rewrite Hout by lia. subst st1; simpl.
        apply Z.ltb_lt in Hlt. rewrite Hlt. apply lookup_insert_eq.
      * replace (numResults st + Z.of_nat (S i))
          with (numResults st + 1 + Z.of_nat i) in * by lia.
        rewrite (Hin i r0 Hi Hlt).
        assert (He : results st1 !!! (numResults st + 1 + Z.of_nat i) =
                     results st !!! (numResults st + 1 + Z.of_nat i)).
        { unfold lookup_total, map_lookup_total. f_equal. apply Hst1. lia. }
        rewrite He. reflexivity.
Qed.

(** A map whose keys are exactly [0 .. n-1] has [n] entries. *)
Lemma size_initial_segment (m : gmap Z CollisionResult) (n : Z) :
  0 <= n ->
  (forall k, is_Some (m !! k) <-> 0 <= k < n) ->
  size m = Z.to_nat n.
Proof.
  intros Hn H.
  assert (Hd : dom m = list_to_set (seqZ 0 n)).
  { apply set_eq. intros k. rewrite elem_of_dom, H, elem_of_list_to_set, elem_of_seqZ. lia. }
  rewrite <- size_dom, Hd, size_list_to_set by apply NoDup_seqZ.
  apply length_seqZ.
Qed.

End SinkFacts.

Lemma store_value (SwapResults : bool) (old res : CollisionResult) :
  store SwapResults old res = if SwapResults then mirror res else res.
Proof. destruct SwapResults; reflexivity. Qed.

Section SinkRuns.

Variable MaxCollisionCount : Z.
Variable SwapResults : bool.

Lemma addResults_app (rs1 rs2 : list CollisionResult) :
  forall st : ResultSink,
    addResults MaxCollisionCount SwapResults (rs1 ++ rs2) st
    = (fst (addResults MaxCollisionCount SwapResults rs1 st)
       ++ fst (addResults MaxCollisionCount SwapResults rs2
                 (snd (addResults MaxCollisionCount SwapResults rs1 st))),
       snd (addResults MaxCollisionCount SwapResults rs2
              (snd (addResults MaxCollisionCount SwapResults rs1 st)))).
Proof.
  induction rs1 as [|r rs1 IH]; intros st; cbn [app addResults].
  - cbn [fst snd app].
    destruct (addResults MaxCollisionCount SwapResults rs2 st); reflexivity.
  - destruct (addResult MaxCollisionCount SwapResults r st) as [b st1].
    rewrite IH.
    destruct (addResults MaxCollisionCount SwapResults rs1 st1) as [bs st2].
    cbn [fst snd].
    destruct (addResults MaxCollisionCount SwapResults rs2 st2) as [bs' st3].
    reflexivity.
Qed.

(** A run of fewer than [2^31] submissions on a fresh sink. *)
Lemma addResults_fresh (rs : list CollisionResult) :
  Z.of_nat (length rs) < 2 ^ 31 ->
  let out :=
    addResults MaxCollisionCount SwapResults rs (CollisionCheckBase1 ∅) in
  fst out = map (fun k => Z.of_nat k <? MaxCollisionCount) (seq 0 (length rs))
  /\ numResults (snd out) = Z.of_nat (length rs)
  /\ (forall (i : nat) (r : CollisionResult),
         rs !! i = Some r ->
         results (snd out) !! Z.of_nat i =
         if Z.of_nat i <? MaxCollisionCount
         then Some (if SwapResults then mirror r else r) else None)
  /\ (forall k, is_Some (results (snd out) !! k) <->
                0 <= k < Z.min (Z.of_nat (length rs)) MaxCollisionCount)
  /\ size (results (snd out)) =
     Z.to_nat (Z.min (Z.of_nat (length rs)) MaxCollisionCount).
Proof.
  intros Hlen.
  pose proof (addResults_spec MaxCollisionCount SwapResults rs
                (CollisionCheckBase1 ∅)) as H.
  cbv beta zeta in H.
  change (numResults (CollisionCheckBase1 ∅)) with 0 in H.
  change (results (CollisionCheckBase1 ∅)) with (∅ : gmap Z CollisionResult) in H.
  destruct H as (Hf & Hn & Hout & Hin); [lia|lia|].
  cbv zeta. set (out := addResults _ _ _ _) in *.
  assert (Hin' : forall (i : nat) (r : CollisionResult),
             rs !! i = Some r -> Z.of_nat i < MaxCollisionCount ->
             results (snd out) !! Z.of_nat i =
             Some (if SwapResults then mirror r else r)).
  { intros i r Hi Hp. specialize (Hin i r Hi). rewrite !Z.add_0_l in Hin.
    rewrite (Hin Hp). rewrite store_value. reflexivity. }
  assert (Hout' : forall k,
             ~ (0 <= k < Z.of_nat (length rs) /\ k < MaxCollisionCount) ->
             results (snd out) !! k = None).
  { intros k Hk. rewrite Hout; [apply lookup_empty|]. rewrite !Z.add_0_l. exact Hk. }
  assert (Hkeys : forall k, is_Some (results (snd out) !! k) <->
            0 <= k < Z.min (Z.of_nat (length rs)) MaxCollisionCount).
  { intros k. split.
    - intros Hs.
      destruct (decide (0 <= k < Z.of_nat (length rs) /\ k < MaxCollisionCount))
        as [Hd|Hd]; [lia|].
      rewrite (Hout' k Hd) in Hs. destruct Hs; discriminate.
    - intros Hk.
      destruct (lookup_lt_is_Some_2 rs (Z.to_nat k)) as [r Hr]; [lia|].
      specialize (Hin' _ _ Hr). rewrite Z2Nat.id in Hin' by lia.
      rewrite Hin' by lia. eauto. }
  split; [|split; [|split; [|split]]].
  - rewrite Hf. apply map_ext. intros k. rewrite Z.add_0_l. reflexivity.
  - lia.
  - intros i r Hi.
    destruct (Z.ltb_spec (Z.of_nat i) MaxCollisionCount) as [Hp|Hp].
    + apply (Hin' i r Hi Hp).
    + apply Hout'. lia.
  - exact Hkeys.
  - assert (Hkeys' : forall k, is_Some (results (snd out) !! k) <->
              0 <= k < Z.max 0 (Z.min (Z.of_nat (length rs)) MaxCollisionCount)).
    { intros k. rewrite Hkeys. lia. }
    rewrite (size_initial_segment _ _ (Z.le_max_l 0 _) Hkeys'). lia.
Qed.

(** A run of exactly [2^31] submissions on a fresh sink wraps the
    counter: it reads [-2^31], and the array holds [MaxCollisionCount]
    contacts in the slots from 0. *)
Lemma addResults_wrap (rs : list CollisionResult) :
  0 <= MaxCollisionCount < 2 ^ 31 ->
  Z.of_nat (length rs) = 2 ^ 31 ->
  numResults
    (snd (addResults MaxCollisionCount SwapResults rs (CollisionCheckBase1 ∅)))
  = - 2 ^ 31
  /\ (forall k,
        is_Some
          (results
             (snd (addResults MaxCollisionCount SwapResults rs
                     (CollisionCheckBase1 ∅))) !! k)
        <-> 0 <= k < MaxCollisionCount)
  /\ size
       (results
          (snd (addResults MaxCollisionCount SwapResults rs
                  (CollisionCheckBase1 ∅))))
     = Z.to_nat MaxCollisionCount.
Proof.
  intros HM Hlen.
  assert (Hne : rs <> []).
  { intros ->. cbn [length] in Hlen. discriminate Hlen. }
  destruct (exists_last Hne) as (rs1 & r & ->). clear Hne.
  rewrite length_app in Hlen. cbn [length] in Hlen.
  assert (Hlen1 : Z.of_nat (length rs1) = 2 ^ 31 - 1) by lia.
  rewrite addResults_app.
  destruct (addResults_fresh rs1 ltac:(lia)) as (_ & Hn & _ & Hkeys & Hsize).
  cbv zeta in Hn, Hkeys, Hsize.
  set (st1 := snd (addResults MaxCollisionCount SwapResults rs1
                     (CollisionCheckBase1 ∅))) in *.
  cbn [addResults snd]. rewrite addResult_unfold. cbn [snd numResults results].
  rewrite Hn, Hlen1.
  assert (Hfull : (2 ^ 31 - 1 <? MaxCollisionCount) = false)
    by (apply Z.ltb_ge; lia).
  rewrite Hfull.
  split; [reflexivity|]. split.
  - intros k. rewrite Hkeys. lia.
  - rewrite Hsize. f_equal. lia.
Qed.

End SinkRuns.

(** C3 (amended): a call of [addResult] reserves the index [p] the
    counter held and moves the counter to [p + 1], wrapped to 32 bits.
    Exactly when [p < MaxCollisionCount] it returns [true] and stores the
    contact in slot [p] -- as it is, or relabelled when [SwapResults] --
    leaving every other slot as it was; otherwise it leaves the array as
    it was and returns [false].  Hence, for a run of fewer than [2^31]
    submissions on a fresh sink, the calls that return [true] are the
    first [MaxCollisionCount] ones, the contact of each is found in its
    slot, every slot written lies inside the array, and the array ends up
    holding [min (number of submissions, MaxCollisionCount)] contacts,
    never more than [MaxCollisionCount]. *)
Theorem addResult_bounded (MaxCollisionCount : Z) (SwapResults : bool)
    (rs : list CollisionResult) :
  Z.of_nat (length rs) < 2 ^ 31 ->
  (forall (res : CollisionResult) (st : ResultSink),
      let p := numResults st in
      let out := addResult MaxCollisionCount SwapResults res st in
      (fst out = true <-> p < MaxCollisionCount)
      /\ numResults (snd out) = wrap32 (p + 1)
      /\ (p < MaxCollisionCount ->
          results (snd out) !! p
          = Some (if SwapResults then mirror res else res)
          /\ forall k, k <> p -> results (snd out) !! k = results st !! k)
      /\ (~ p < MaxCollisionCount -> results (snd out) = results st))
  /\ (let out :=
        addResults MaxCollisionCount SwapResults rs (CollisionCheckBase1 ∅) in
      fst out = map (fun k => Z.of_nat k <? MaxCollisionCount)
                    (seq 0 (length rs))
      /\ (forall (i : nat) (r : CollisionResult),
             rs !! i = Some r ->
             results (snd out) !! Z.of_nat i =
             if Z.of_nat i <? MaxCollisionCount
             then Some (if SwapResults then mirror r else r) else None)
      /\ (forall k, is_Some (results (snd out) !! k) ->
                    0 <= k < MaxCollisionCount)
      /\ size (results (snd out)) =
         Z.to_nat (Z.min (Z.of_nat (length rs)) MaxCollisionCount)
      /\ (size (results (snd out)) <= Z.to_nat MaxCollisionCount)%nat).
Proof.
  intros Hlen. split.
  - intros res st p out. subst out p. rewrite addResult_unfold.
    cbn [fst snd numResults results].
    destruct (Z.ltb_spec (numResults st) MaxCollisionCount) as [Hp|Hp].
    + split; [split; [intros _; exact Hp|reflexivity]|].
      split; [reflexivity|]. split; [|lia]. intros _. split.
      * rewrite lookup_insert_eq, store_value. reflexivity.
      * intros k Hk. apply lookup_insert_ne. congruence.
    + split; [split; [discriminate|lia]|].
      split; [reflexivity|]. split; [lia|reflexivity].
  - destruct (addResults_fresh MaxCollisionCount SwapResults rs Hlen)
      as (Hf & _ & Hin & Hkeys & Hsize).
    cbv zeta in *.
    split; [exact Hf|]. split; [exact Hin|]. split.
    + intros k Hk. apply Hkeys in Hk. lia.
    + split; [exact Hsize|]. rewrite Hsize. lia.
Qed.

Lemma addResult_bounded_witness :
  Z.of_nat (length [sample_contact; zero; sample_contact]) < 2 ^ 31
  /\ fst (addResults 2 true [sample_contact; zero; sample_contact]
            (CollisionCheckBase1 ∅)) = [true; true; false]
  /\ results (snd (addResults 2 true [sample_contact; zero; sample_contact]
                     (CollisionCheckBase1 ∅))) !! 0
     = Some (mirror sample_contact)
  /\ size (results (snd (addResults 2 true [sample_contact; zero; sample_contact]
                           (CollisionCheckBase1 ∅)))) = 2%nat.
Proof.
  assert (H : Z.of_nat (length [sample_contact; zero; sample_contact]) < 2 ^ 31)
    by (simpl; lia).
  split; [exact H|].
  destruct (addResult_bounded 2 true [sample_contact; zero; sample_contact] H)
    as [_ (Hf & Hin & _ & Hs & _)].
  split; [exact Hf|]. split; [exact (Hin 0%nat sample_contact eq_refl)|exact Hs].
Defined.

(** C3 (as stated, refuted): the counter is a 32-bit integer.  After
    [2^31] submissions on a fresh sink of capacity 256 it has wrapped to
    [-2^31], with 256 contacts in the array.  The next submission
    reserves index [-2^31], which is below the capacity: [addResult]
    returns [true] and stores the contact at that index, outside the
    array, and 257 contacts are held. *)
Lemma addResult_wraps :
  numResults
    (snd (addResults 256 false (repeat sample_contact (Z.to_nat (2 ^ 31)))
            (CollisionCheckBase1 ∅)))
  = - 2 ^ 31
  /\ size
       (results
          (snd (addResults 256 false
                  (repeat sample_contact (Z.to_nat (2 ^ 31)))
                  (CollisionCheckBase1 ∅))))
     = 256%nat
  /\ fst (addResult 256 false sample_contact
            (snd (addResults 256 false
                    (repeat sample_contact (Z.to_nat (2 ^ 31)))
                    (CollisionCheckBase1 ∅))))
     = true
  /\ results
       (snd (addResult 256 false sample_contact
               (snd (addResults 256 false
                       (repeat sample_contact (Z.to_nat (2 ^ 31)))
                       (CollisionCheckBase1 ∅)))))
       !! (- 2 ^ 31)
     = Some sample_contact
  /\ size
       (results
          (snd (addResult 256 false sample_contact
                  (snd (addResults 256 false
                          (repeat sample_contact (Z.to_nat (2 ^ 31)))
                          (CollisionCheckBase1 ∅))))))
     = 257%nat.
Proof.
  assert (Hlen : Z.of_nat (length (repeat sample_contact (Z.to_nat (2 ^ 31))))
                 = 2 ^ 31).
  { rewrite repeat_length. apply Z2Nat.id. lia. }
  assert (HM : 0 <= 256 < 2 ^ 31) by lia.
  pose proof (addResults_wrap 256 false
                (repeat sample_contact (Z.to_nat (2 ^ 31))) HM Hlen) as H.
  clear Hlen HM. revert H.
  generalize (snd (addResults 256 false
                     (repeat sample_contact (Z.to_nat (2 ^ 31)))
                     (CollisionCheckBase1 ∅))).
  intros w (Hn & Hkeys & Hsize).
  assert (Hfree : results w !! (- 2 ^ 31) = None).
  { apply eq_None_not_Some. rewrite Hkeys. lia. }
  rewrite addResult_unfold. cbn [fst snd results]. rewrite Hn.
  change (- 2 ^ 31 <? 256) with true. cbv iota.
  split; [reflexivity|]. split; [exact Hsize|]. split; [reflexivity|]. split.
  - apply lookup_insert_eq.
  - rewrite map_size_insert_None by exact Hfree. rewrite Hsize. reflexivity.
Qed.

(** ** The role-swap adapter *)

(** C5: on the same contact and the same sink with room left, the
    swapped adapter accepts exactly when the plain one does and stores, in
    the same slot, the plain adapter's stored contact with [posA]/[posB]
    and [colliderA]/[colliderB] exchanged, the normal negated and the
    depth unchanged; the counter and all other slots end up the same. *)
Theorem addResult_swap_mirror (MaxCollisionCount : Z)
    (res : CollisionResult) (st : ResultSink) :
  numResults st < MaxCollisionCount ->
  let plain := addResult MaxCollisionCount false res st in
  let swapped := addResult MaxCollisionCount true res st in
  fst plain = true /\ fst swapped = true
  /\ results (snd plain) !! numResults st = Some res
  /\ results (snd swapped) !! numResults st = Some (mirror res)
  /\ numResults (snd swapped) = numResults (snd plain)
  /\ (forall k, k <> numResults st ->
        results (snd swapped) !! k = results (snd plain) !! k).
Proof.
  intros Hp plain swapped. subst plain swapped.
  rewrite !addResult_unfold. apply Z.ltb_lt in Hp. rewrite Hp. simpl.
  rewrite !lookup_insert_eq.
  repeat split; try reflexivity.
  intros k Hk. rewrite !lookup_insert_ne by congruence. reflexivity.
Qed.

Lemma addResult_swap_mirror_witness :
  numResults (CollisionCheckBase1 ∅) < 256
  /\ results (snd (addResult 256 true sample_contact (CollisionCheckBase1 ∅)))
       !! 0 = Some (mirror sample_contact).
Proof.
  assert (H : numResults (CollisionCheckBase1 ∅) < 256) by (simpl; lia).
  split; [exact H|].
  exact (proj1 (proj2 (proj2 (proj2
           (addResult_swap_mirror 256 sample_contact (CollisionCheckBase1 ∅) H))))).
Defined.

(** ** Geometry checkers *)

(** A binary32 value minus itself is [+0], or not a number. *)
Lemma sub_self (x : float) :
  F32.sub x x = S754_zero false \/ F32.sub x x = S754_nan.
Proof.
  destruct x as [s|s| |s m e]; unfold F32.sub, SFsub.
  - left. destruct s; reflexivity.
  - right. destruct s; reflexivity.
  - right. reflexivity.
  - left. rewrite Z.min_id. unfold shl_align. rewrite Z.sub_diag. cbn [fst].
    rewrite ?Z.sub_diag. reflexivity.
Qed.

Lemma length_sub_self (s : btVector3) :
  F32.ltb F32.zero (Vec.length (Vec.sub s s)) = false.
Proof.
  unfold Vec.sub.
  destruct (sub_self (vx s)) as [-> | ->], (sub_self (vy s)) as [-> | ->],
           (sub_self (vz s)) as [-> | ->]; vm_compute; reflexivity.
Qed.

(** The per-vertex checker of the source hands one sphere to the
    primitive twice: with the primitive of the specification it reports
    no contact, whatever the bodies. *)
Lemma checkCollide_vertex_silent (ctx : CheckContext) (a b : Collider)
    (res : CollisionResult) :
  fst (checkCollide_vertex checkSphereSphere ctx a b res) = false.
Proof.
  unfold checkCollide_vertex, checkSphereSphere.
  rewrite length_sub_self, andb_false_r. reflexivity.
Qed.

(** C1 (the code departs from the claim): the sphere-sphere checker
    reads the vertex of [a] and the margin of [a]'s shape for both
    spheres, so its outcome does not depend on the second body's vertices
    or shape margin at all.  The two spheres it hands to the primitive
    coincide, so with the primitive of the specification it reports no
    contact, whatever the bodies; in particular on the scenario of the
    specification -- unit spheres at (0,0,0) and (1.5,0,0) -- it reports
    no contact, where handing the two centres to the primitive gives the
    claimed depth [-0.5] and normal (1,0,0). *)
Theorem checkCollide_vertex_scenario :
  (forall (sphere : btVector3 -> btVector3 -> float -> float ->
                    CollisionResult -> bool * CollisionResult)
          (ctx : CheckContext) (vposB : nat -> VertexPos) (propB : ShapeProp)
          (a b : Collider) (res : CollisionResult),
      checkCollide_vertex sphere (mkContext (v0 ctx) vposB (sp0 ctx) propB)
        a b res
      = checkCollide_vertex sphere ctx a b res)
  /\ (forall (ctx : CheckContext) (a b : Collider) (res : CollisionResult),
        fst (checkCollide_vertex checkSphereSphere ctx a b res) = false)
  /\ (let out :=
        checkCollide_vertex checkSphereSphere Scenario.ctx
          Scenario.a Scenario.b zero in
      let meant :=
        checkSphereSphere Scenario.centreA Scenario.centreB F32.one F32.one
          zero in
      fst out = false
      /\ fst meant = true
      /\ depth (snd meant) = Scenario.minus_half
      /\ normOnB (snd meant) = mkVec F32.one F32.zero F32.zero).
Proof.
  split; [reflexivity|]. split; [exact checkCollide_vertex_silent|].
  vm_compute. repeat split; reflexivity.
Qed.

(** C8: when the triangle built from the three vertex positions, with the
    averaged margin and penetration, is not valid, the sphere-triangle
    checker returns [false] and hands back the caller's result untouched:
    the primitive is not run and no contact is produced. *)
Theorem checkCollide_triangle_invalid
    (Triangle : Type)
    (mkTri : btVector3 -> btVector3 -> btVector3 -> float -> float -> Triangle)
    (validTri : Triangle -> bool)
    (sphereTriangle :
       btVector3 -> float -> Triangle -> CollisionResult -> bool * CollisionResult)
    (ctx : CheckContext) (a b : Collider) (res : CollisionResult) :
  let p0 := v1 ctx (vertices b 0) in
  let p1 := v1 ctx (vertices b 1) in
  let p2 := v1 ctx (vertices b 2) in
  let mean :=
    ((marginMultiplier p0 + marginMultiplier p1 + marginMultiplier p2)
     / F32.three)%f32 in
  validTri (mkTri (pos p0) (pos p1) (pos p2)
              (mean * margin (sp1 ctx))%f32
              (penetration (sp1 ctx) * mean)%f32) = false ->
  checkCollide_triangle Triangle mkTri validTri sphereTriangle ctx a b res
  = (false, res).
Proof.
  intros p0 p1 p2 mean Hinvalid. unfold checkCollide_triangle.
  fold p0 p1 p2. fold mean. rewrite Hinvalid. reflexivity.
Qed.

Lemma checkCollide_triangle_invalid_witness :
  valid (mkCheckTriangle Scenario.centreB Scenario.centreB Scenario.centreB
           (F32.div (F32.add (F32.add F32.one F32.one) F32.one) F32.three
            * F32.one)%f32
           (F32.zero
            * F32.div (F32.add (F32.add F32.one F32.one) F32.one) F32.three)%f32)
  = false
  /\ checkCollide_triangle CheckTriangle mkCheckTriangle valid
       checkSphereTriangle_none Scenario.ctx Scenario.a Scenario.flat
       sample_contact
     = (false, sample_contact).
Proof.
  assert (H : valid (mkCheckTriangle Scenario.centreB Scenario.centreB
                       Scenario.centreB
           (F32.div (F32.add (F32.add F32.one F32.one) F32.one) F32.three
            * F32.one)%f32
           (F32.zero
            * F32.div (F32.add (F32.add F32.one F32.one) F32.one) F32.three)%f32)
              = false) by (vm_compute; reflexivity).
  split; [exact H|].
  exact (checkCollide_triangle_invalid CheckTriangle
           mkCheckTriangle valid checkSphereTriangle_none Scenario.ctx
           Scenario.a Scenario.flat sample_contact H).
Defined.

(** ** The merge buffer *)

Section MergeFacts.

Import MergeBuffer MergeSpec.

Lemma loop_flat_map {A B C : Type} (body : B -> A -> option B)
    (f : B -> C -> B) (g : A -> list C) (l : list A) :
  (forall x, In x l -> forall acc, body acc x = Some (fold_left f (g x) acc)) ->
  forall acc, loop body l acc = Some (fold_left f (flat_map g l) acc).
Proof.
  induction l as [|x l IH]; intros H acc; simpl.
  - reflexivity.
  - rewrite (H x (or_introl eq_refl)), fold_left_app.
    apply IH. intros y Hy. apply H. right. exact Hy.
Qed.

Lemma flat_map_nested {A B C : Type} (h : B -> list C) (k : A -> list B)
    (l : list A) :
  flat_map h (flat_map k l) = flat_map (fun x => flat_map h (k x)) l.
Proof.
  induction l as [|x l IH]; simpl; [reflexivity|].
  rewrite flat_map_app, IH. reflexivity.
Qed.

Variables a b : SkinnedMeshShape.

Lemma merge_bone_spec (res : CollisionResult) :
  bones_in_range a (colliderA res) ->
  bones_in_range b (colliderB res) ->
  forall buf,
    loop (merge_bone a b res (flexible_of res))
         (seq 0 (getBonePerCollider a)) buf
    = Some (merge_contact a b buf res).
Proof.
  intros Ha Hb buf. unfold merge_contact, bone_pairs, influencing.
  rewrite flat_map_nested.
  apply loop_flat_map. intros ib Hib acc. apply in_seq in Hib.
  unfold merge_bone.
  destruct (lookup_lt_is_Some_2 (m_skinnedBones (m_owner a))
              (getColliderBoneIndex a (colliderA res) ib)) as [bone0 H0];
    [apply Ha; lia|].
  rewrite H0. unfold exceeds.
  destruct (getColliderBoneWeight a (colliderA res) ib <=? weightThreshold bone0)%f32;
    simpl; [reflexivity|].
  rewrite app_nil_r, flat_map_nested.
  apply loop_flat_map. intros jb Hjb acc'. apply in_seq in Hjb.
  unfold merge_bone_pair.
  destruct (lookup_lt_is_Some_2 (m_skinnedBones (m_owner b))
              (getColliderBoneIndex b (colliderB res) jb)) as [bone1 H1];
    [apply Hb; lia|].
  rewrite H1.
  destruct (getColliderBoneWeight b (colliderB res) jb <=? weightThreshold bone1)%f32;
    simpl; [reflexivity|].
  rewrite app_nil_r.
  destruct (bone_isKinematic bone0 && bone_isKinematic bone1); reflexivity.
Qed.

Lemma merge_from_spec (collision : gmap Z CollisionResult) (n : nat) :
  forall (i : Z) (buf : gmap (nat * nat) CollisionMerge),
    let contacts := map (fun k => collision !!! k) (seqZ i (Z.of_nat n)) in
    Forall (fun res => bones_in_range a (colliderA res)
                       /\ bones_in_range b (colliderB res))
           (processed contacts) ->
    merge_from a b collision n i buf
    = (seqZ i (Z.min (Z.of_nat n) (Z.of_nat (length (processed contacts)) + 1)),
       Some (merged a b contacts buf)).
Proof.
  induction n as [|n IH]; intros i buf contacts Hrange.
  - reflexivity.
  - subst contacts. revert Hrange.
    rewrite Nat2Z.inj_succ, seqZ_cons by lia.
    replace (Z.pred (Z.succ (Z.of_nat n))) with (Z.of_nat n) by lia.
    replace (Z.succ i) with (i + 1) by lia.
    cbn [map processed merge_from]. unfold merged. cbn [processed].
    destruct (depth (collision !!! i) >=? - FLT_EPSILON)%f32.
    { intros _. simpl. f_equal. rewrite Z.min_r by lia. reflexivity. }
    fold (flexible_of (collision !!! i)).
    destruct (flexible_of (collision !!! i) <? FLT_EPSILON)%f32.
    { intros _. simpl. f_equal. rewrite Z.min_r by lia. reflexivity. }
    intros Hrange. apply Forall_cons_1 in Hrange as [[Ha Hb] Hrest].
    rewrite (merge_bone_spec _ Ha Hb).
    rewrite (IH (i + 1) _ Hrest). cbn [fold_left length]. f_equal.
    rewrite (seqZ_cons i (Z.min _ _)) by lia. f_equal.
    + replace (Z.succ i) with (i + 1) by lia. f_equal. lia.
Qed.

End MergeFacts.

(** C2: [doMerge] goes through the contacts in index order and stops at
    the first one with [depth >= -FLT_EPSILON] or whose
    [flexible = max (colliderA.flexible, colliderB.flexible)] is below
    [FLT_EPSILON]: it reads that contact and none after it.  Each contact
    before it is merged for every bone of [colliderA] whose weight exceeds
    its threshold with every bone of [colliderB] whose weight exceeds its
    threshold, except when both bones are kinematic, and the cell of that
    bone pair changes by exactly [weight += w2],
    [normal += normOnB * w * w2], [posA += posA * w2], [posB += posB * w2]
    with [w = flexible * depth] and [w2 = w * w].  A weight exceeds a
    threshold when the test [w <= threshold] fails, which for numbers is
    [w > threshold].  (Bone indices are taken to lie inside the owners'
    bone vectors.) *)
Theorem doMerge_spec (a b : SkinnedMeshShape)
    (collision : gmap Z CollisionResult) (count : Z)
    (buf : gmap (nat * nat) CollisionMerge) :
  let contacts := MergeSpec.contacts_of collision count in
  Forall (fun res => MergeSpec.bones_in_range a (colliderA res)
                     /\ MergeSpec.bones_in_range b (colliderB res))
         (MergeSpec.processed contacts) ->
  MergeBuffer.doMerge a b collision count buf
  = (seqZ 0 (Z.min count
               (Z.of_nat (length (MergeSpec.processed contacts)) + 1)),
     Some (MergeSpec.merged a b contacts buf))
  /\ (forall (res : CollisionResult) (table : gmap (nat * nat) CollisionMerge)
             (xy : nat * nat),
        let w := (MergeSpec.flexible_of res * depth res)%f32 in
        let w2 := (w * w)%f32 in
        let old := table !!! xy in
        MergeSpec.add_contact res table xy
        = <[xy := mkMerge
                    (Vec.add (normal old)
                       (Vec.scale (Vec.scale (normOnB res) w) w2))
                    (Vec.add (pos0 old) (Vec.scale (posA res) w2))
                    (Vec.add (pos1 old) (Vec.scale (posB res) w2))
                    (weight old + w2)%f32]> table)
  /\ (forall w t : float,
        (w <=? w)%f32 = true -> (t <=? t)%f32 = true ->
        MergeSpec.exceeds w t = (w >? t)%f32).
Proof.
  intros contacts Hrange.
  split; [|split; [reflexivity|exact not_leb_gtb]].
  unfold MergeBuffer.doMerge.
  destruct (Z.le_gt_cases 0 count) as [Hc|Hc].
  - pose proof (merge_from_spec a b collision (Z.to_nat count) 0 buf) as H.
    cbv zeta in H. rewrite Z2Nat.id in H by exact Hc.
    apply H. exact Hrange.
  - replace (Z.to_nat count) with 0%nat by lia. simpl.
    subst contacts. unfold MergeSpec.contacts_of.
    rewrite (seqZ_nil 0 count) by lia. simpl.
    rewrite seqZ_nil by lia. reflexivity.
Qed.

Lemma doMerge_spec_witness :
  Forall (fun res => MergeSpec.bones_in_range Demo.shapeA (colliderA res)
                     /\ MergeSpec.bones_in_range Demo.shapeB (colliderB res))
         (MergeSpec.processed (MergeSpec.contacts_of Demo.collision 2))
  /\ MergeBuffer.doMerge Demo.shapeA Demo.shapeB Demo.collision 2 MergeBuffer.alloc
     = ([0; 1],
        Some (MergeSpec.merged Demo.shapeA Demo.shapeB
                (MergeSpec.contacts_of Demo.collision 2) MergeBuffer.alloc)).
Proof.
  assert (H : Forall
                (fun res => MergeSpec.bones_in_range Demo.shapeA (colliderA res)
                            /\ MergeSpec.bones_in_range Demo.shapeB (colliderB res))
                (MergeSpec.processed (MergeSpec.contacts_of Demo.collision 2))).
  { replace (MergeSpec.processed (MergeSpec.contacts_of Demo.collision 2))
      with [sample_contact] by (vm_compute; reflexivity).
    constructor; [split; intros ib Hib; exact Hib | constructor]. }
  split; [exact H|].
  exact (proj1 (doMerge_spec Demo.shapeA Demo.shapeB Demo.collision 2
                  MergeBuffer.alloc H)).
Defined.

(** ** [processCollision] *)

Section ProcessFacts.

Variables a b : SkinnedMeshShape.

(** [doMerge] reads the array inside [0, count) only, whatever the
    array, the shapes and the buffer are. *)
Lemma merge_from_reads (collision : gmap Z CollisionResult) (n : nat) :
  forall (i : Z) (buf : gmap (nat * nat) CollisionMerge),
    Forall (fun k => i <= k < i + Z.of_nat n)
           (fst (MergeBuffer.merge_from a b collision n i buf)).
Proof.
  induction n as [|n IH]; intros i buf; cbn [MergeBuffer.merge_from].
  - constructor.
  - destruct (depth (collision !!! i) >=? - FLT_EPSILON)%f32;
      [repeat constructor; lia|].
    destruct (_ <? FLT_EPSILON)%f32; [repeat constructor; lia|].
    destruct (MergeBuffer.loop _ _ _) as [buf'|]; [|repeat constructor; lia].
    specialize (IH (i + 1) buf').
    destruct (MergeBuffer.merge_from a b collision n (i + 1) buf') as [rd out].
    cbn [fst] in *. constructor; [lia|].
    eapply Forall_impl; [exact IH|]. intros k Hk. simpl in Hk. lia.
Qed.

Lemma doMerge_reads (collision : gmap Z CollisionResult) (count : Z)
    (buf : gmap (nat * nat) CollisionMerge) :
  Forall (fun k => 0 <= k < count)
         (fst (MergeBuffer.doMerge a b collision count buf)).
Proof.
  unfold MergeBuffer.doMerge.
  eapply Forall_impl; [apply merge_from_reads|].
  intros k Hk. simpl in Hk. lia.
Qed.

End ProcessFacts.

Section ProcessCollisionFacts.

Variable MaxCollisionCount : Z.
Variable checkCollide :
  SkinnedMeshShape -> SkinnedMeshShape -> gmap Z CollisionResult ->
  Z * gmap Z CollisionResult.

(** One shape-pair stage adds reads below the clamped count only. *)
Lemma processCollision_shapes_reads (shape0 shape1 : SkinnedMeshShape)
    (s : Stage) :
  exists rd,
    reads (processCollision_shapes MaxCollisionCount checkCollide
             shape0 shape1 s) = reads s ++ rd
    /\ Forall (fun k =>
                 0 <= k < Z.min (fst (checkCollide shape0 shape1 (collision s)))
                                MaxCollisionCount) rd.
Proof.
  unfold processCollision_shapes.
  destruct (merge s) as [buf|].
  - destruct (checkCollide shape0 shape1 (collision s)) as [r coll]. cbn [fst].
    destruct (0 <? Z.min r MaxCollisionCount).
    + pose proof (doMerge_reads shape0 shape1 coll
                    (Z.min r MaxCollisionCount) buf) as H.
      destruct (MergeBuffer.doMerge _ _ _ _ _) as [rd out].
      exists rd. split; [reflexivity|exact H].
    + exists []. split; [simpl; rewrite app_nil_r; reflexivity|constructor].
  - exists []. split; [rewrite app_nil_r; reflexivity|constructor].
Qed.

Lemma processCollision_shapes_bounded (shape0 shape1 : SkinnedMeshShape)
    (s : Stage) :
  Forall (fun k => 0 <= k < MaxCollisionCount) (reads s) ->
  Forall (fun k => 0 <= k < MaxCollisionCount)
         (reads (processCollision_shapes MaxCollisionCount checkCollide
                   shape0 shape1 s)).
Proof.
  intros Hs.
  destruct (processCollision_shapes_reads shape0 shape1 s) as (rd & -> & Hrd).
  apply Forall_app. split; [exact Hs|].
  eapply Forall_impl; [exact Hrd|]. intros k Hk. simpl in Hk. lia.
Qed.

End ProcessCollisionFacts.

(** C9: in [processCollision], the count handed to [doMerge] is the
    checker's return value clamped to [MaxCollisionCount] (and [doMerge] is
    not called at all unless that count is positive), so every index of the
    collision array that is read is at least 0 and below
    [MaxCollisionCount], whatever value the checker returned. *)
Theorem processCollision_reads_bounded (MaxCollisionCount : Z)
    (checkCollide :
       SkinnedMeshShape -> SkinnedMeshShape -> gmap Z CollisionResult ->
       Z * gmap Z CollisionResult)
    (body0 body1 : SkinnedMeshBody) (shape0 shape1 : ShapeViews)
    (rigid : nat -> RigidBody) :
  Forall (fun k => 0 <= k < MaxCollisionCount)
         (fst (processCollision MaxCollisionCount checkCollide
                 body0 body1 shape0 shape1 rigid))
  /\ (forall (s0 s1 : SkinnedMeshShape) (rd : list Z)
             (coll0 : gmap Z CollisionResult)
             (buf : gmap (nat * nat) CollisionMerge),
        let r := fst (checkCollide s0 s1 coll0) in
        let coll := snd (checkCollide s0 s1 coll0) in
        let count := Z.min r MaxCollisionCount in
        processCollision_shapes MaxCollisionCount checkCollide s0 s1
          (mkStage rd coll0 (Some buf))
        = if 0 <? count
          then mkStage
                 (rd ++ fst (MergeBuffer.doMerge s0 s1 coll count buf))
                 coll (snd (MergeBuffer.doMerge s0 s1 coll count buf))
          else mkStage rd coll (Some buf)).
Proof.
  split.
  - unfold processCollision. cbn [fst].
    destruct (asPerTriangleShape shape0), (asPerTriangleShape shape1);
      repeat apply processCollision_shapes_bounded; constructor.
  - intros s0 s1 rd coll0 buf r coll count. subst r coll count.
    unfold processCollision_shapes. cbn [merge collision reads].
    destruct (checkCollide s0 s1 coll0) as [r coll]. cbn [fst snd].
    destruct (0 <? Z.min r MaxCollisionCount); [|reflexivity].
    destruct (MergeBuffer.doMerge _ _ _ _ _); reflexivity.
Qed.

(** ** The manifold emitter *)

Section ApplyFacts.

Import MergeBuffer.

Lemma indexed_lookup {A : Type} (v : list A) (i : nat) (x : A) :
  In (i, x) (indexed v) -> v !! i = Some x.
Proof.
  assert (H : forall (l : list A) (k : nat),
             In (i, x) (combine (seq k (length l)) l) ->
             (k <= i)%nat /\ l !! (i - k)%nat = Some x).
  { induction l as [|y l IH]; intros k; simpl; [tauto|].
    intros [Heq|Hin].
    - injection Heq as -> ->. rewrite Nat.sub_diag. split; [lia|reflexivity].
    - apply IH in Hin as [Hle Hl]. split; [lia|].
      replace (i - k)%nat with (S (i - S k)) by lia. exact Hl. }
  intros Hin. apply H in Hin as [_ Hl]. rewrite Nat.sub_0_r in Hl. exact Hl.
Qed.

Variables body0 body1 : SkinnedMeshBody.
Variable rigid : nat -> RigidBody.
Variable buf : gmap (nat * nat) CollisionMerge.

(** Every request [apply] sends to the dispatcher is for a bone pair
    that passed all the gates of the two loops. *)
Lemma apply_gates (e : Event) :
  In e (apply body0 body1 rigid buf) ->
  exists bone0 bone1,
    m_skinnedBones body0 !! fst (event_bones e) = Some bone0
    /\ m_skinnedBones body1 !! snd (event_bones e) = Some bone1
    /\ event_bodies e = (ptr bone0, ptr bone1)
    /\ canCollideWith body1 (ptr bone0) = true
    /\ canCollideWith body0 (ptr bone1) = true
    /\ (weight (get buf (fst (event_bones e)) (snd (event_bones e)))
        <? FLT_EPSILON)%f32 = false
    /\ bone_isKinematic bone0 && bone_isKinematic bone1 = false
    /\ ptr bone0 <> ptr bone1.
Proof.
  unfold apply. rewrite in_flat_map. intros ([i bone0] & Hi & He).
  apply indexed_lookup in Hi.
  destruct (canCollideWith body1 (ptr bone0)) eqn:Hc1; simpl in He; [|tauto].
  rewrite in_flat_map in He. destruct He as ([j bone1] & Hj & He).
  apply indexed_lookup in Hj.
  destruct (canCollideWith body0 (ptr bone1)) eqn:Hc0; simpl in He; [|tauto].
  unfold emit in He.
  destruct (weight (get buf i j) <? FLT_EPSILON)%f32 eqn:Hw; [destruct He|].
  destruct (bone_isKinematic bone0 && bone_isKinematic bone1) eqn:Hk;
    [destruct He|].
  destruct (Nat.eqb_spec (ptr bone0) (ptr bone1)) as [Heq|Hne]; [destruct He|].
  assert (Hev : event_bones e = (i, j)
                /\ event_bodies e = (ptr bone0, ptr bone1)).
  { destruct He as [<-|He]; [split; reflexivity|].
    destruct (Vec.fuzzyZero _); [destruct He|].
    destruct (_ >=? _)%f32; [destruct He|].
    destruct He as [<-|[]]. split; reflexivity. }
  destruct Hev as [Hb Hp]. rewrite Hb. cbn [fst snd].
  exists bone0, bone1. repeat split; assumption.
Qed.

End ApplyFacts.

(** C6: among the requests [apply] sends to the dispatcher, no manifold
    point is for a bone pair whose two bones are both kinematic, nor for a
    bone pair whose two bones have the same rigid body; this holds for
    every pair of bodies and every content of the merge buffer. *)
Theorem apply_no_kinematic_or_self_pair (body0 body1 : SkinnedMeshBody)
    (rigid : nat -> RigidBody) (buf : gmap (nat * nat) CollisionMerge) :
  Forall
    (fun e =>
       match e with
       | AddManifoldPoint i j rb0 rb1 _ =>
           exists bone0 bone1,
             m_skinnedBones body0 !! i = Some bone0
             /\ m_skinnedBones body1 !! j = Some bone1
             /\ rb0 = ptr bone0 /\ rb1 = ptr bone1
             /\ ~ (bone_isKinematic bone0 = true /\ bone_isKinematic bone1 = true)
             /\ ptr bone0 <> ptr bone1
       | GetNewManifold _ _ _ _ => True
       end)
    (MergeBuffer.apply body0 body1 rigid buf).
Proof.
  apply List.Forall_forall. intros e He.
  destruct e as [|i j rb0 rb1 pt]; [exact I|].
  destruct (apply_gates _ _ _ _ _ He)
    as (bone0 & bone1 & H0 & H1 & Hp & _ & _ & _ & Hk & Hne).
  cbn in H0, H1, Hp. injection Hp as -> ->.
  exists bone0, bone1. repeat split; try assumption.
  intros [Ha Hb]. rewrite Ha, Hb in Hk. discriminate.
Qed.

(** C10: [apply] obtains a manifold, and so emits a point, for bone pair
    [(i, j)] only if [body1] can collide with the rigid body of bone [i]
    of [body0] and [body0] can collide with the rigid body of bone [j] of
    [body1]: a pair failing either check is skipped before the dispatcher
    is asked for anything. *)
Theorem apply_only_for_colliding_bones (body0 body1 : SkinnedMeshBody)
    (rigid : nat -> RigidBody) (buf : gmap (nat * nat) CollisionMerge) :
  Forall
    (fun e =>
       exists bone0 bone1,
         m_skinnedBones body0 !! fst (event_bones e) = Some bone0
         /\ m_skinnedBones body1 !! snd (event_bones e) = Some bone1
         /\ canCollideWith body1 (ptr bone0) = true
         /\ canCollideWith body0 (ptr bone1) = true)
    (MergeBuffer.apply body0 body1 rigid buf).
Proof.
  apply List.Forall_forall. intros e He.
  destruct (apply_gates _ _ _ _ _ He)
    as (bone0 & bone1 & H0 & H1 & _ & Hc1 & Hc0 & _).
  exists bone0, bone1. repeat split; assumption.
Qed.

(** The emitter at work on the example pair: after merging the example
    contact, a manifold is obtained and a point emitted for each bone pair
    but (1, 0), whose bones are both kinematic. *)
Example apply_demo :
  option_map
    (fun table =>
       map (fun e => (event_bones e, event_bodies e))
           (MergeBuffer.apply Demo.bodyA Demo.bodyB Demo.rigid table))
    (snd (MergeBuffer.doMerge Demo.shapeA Demo.shapeB Demo.collision 2
            MergeBuffer.alloc))
  = Some [((0, 0), (10, 20)); ((0, 0), (10, 20));
          ((0, 1), (10, 21)); ((0, 1), (10, 21));
          ((1, 1), (11, 21)); ((1, 1), (11, 21))]%nat.
Proof. vm_compute. reflexivity. Qed.

(** ** The two variants of the local broad-phase refiner *)

Section ListFacts.

Context {A B : Type}.

Lemma fold_left_skip (P : A -> bool) (F : B -> A -> B) (l : list A) :
  forall acc,
    fold_left (fun acc x => if negb (P x) then acc else F acc x) l acc
    = fold_left F (List.filter P l) acc.
Proof.
  induction l as [|x l IH]; intros acc; simpl; [reflexivity|].
  destruct (P x); simpl; apply IH.
Qed.

Lemma fold_left_live (P : A -> bool) (F : B -> A -> B) (l : list A) :
  (forall acc x, P x = false -> F acc x = acc) ->
  forall acc, fold_left F l acc = fold_left F (List.filter P l) acc.
Proof.
  intros Hdead. induction l as [|x l IH]; intros acc; simpl; [reflexivity|].
  destruct (P x) eqn:Hx; simpl; [apply IH|].
  rewrite (Hdead acc x Hx). apply IH.
Qed.

Lemma filter_nil_iff (P : A -> bool) (l : list A) :
  List.filter P l = [] <-> forall x, In x l -> P x = false.
Proof.
  induction l as [|x l IH]; simpl; [tauto|].
  destruct (P x) eqn:Hx.
  - split; [discriminate|]. intros H. specialize (H x (or_introl eq_refl)).
    congruence.
  - rewrite IH. split.
    + intros H y [<-|Hy]; [exact Hx|apply H, Hy].
    + intros H y Hy. apply H. right. exact Hy.
Qed.

Lemma filter_filter (P Q : A -> bool) (l : list A) :
  List.filter P (List.filter Q l) = List.filter (fun x => P x && Q x) l.
Proof.
  induction l as [|x l IH]; simpl; [reflexivity|].
  destruct (Q x); simpl; [destruct (P x); simpl; rewrite IH; reflexivity|].
  rewrite andb_false_r. exact IH.
Qed.

End ListFacts.

Lemma fold_left_product {B : Type} (F : B -> nat * nat -> B) (l1 l2 : list nat) :
  forall acc,
    fold_left (fun acc i => fold_left (fun acc j => F acc (i, j)) l2 acc) l1 acc
    = fold_left F (product l1 l2) acc.
Proof.
  induction l1 as [|i l1 IH]; intros acc; simpl; [reflexivity|].
  rewrite fold_left_app, <- IH. f_equal.
  clear IH. revert acc. induction l2 as [|j l2 IH2]; intros acc; simpl;
    [reflexivity|apply IH2].
Qed.

Lemma product_nil_r (l1 : list nat) : product l1 [] = [].
Proof. induction l1 as [|i l1 IH]; simpl; [reflexivity|exact IH]. Qed.

Lemma in_product (l1 l2 : list nat) (p : nat * nat) :
  In p (product l1 l2) <-> In (fst p) l1 /\ In (snd p) l2.
Proof.
  unfold product. rewrite in_flat_map. split.
  - intros (i & Hi & Hp). apply in_map_iff in Hp as (j & <- & Hj).
    split; assumption.
  - intros [Hi Hj]. exists (fst p). split; [exact Hi|].
    apply in_map_iff. exists (snd p). split; [destruct p; reflexivity|exact Hj].
Qed.

Lemma filter_row (P Q : nat -> bool) (i : nat) (l2 : list nat) :
  List.filter (fun p : nat * nat => P (fst p) && Q (snd p))
    (map (fun j => (i, j)) l2)
  = if P i then map (fun j => (i, j)) (List.filter Q l2) else [].
Proof.
  induction l2 as [|j l2 IH]; simpl; [destruct (P i); reflexivity|].
  rewrite IH. destruct (P i), (Q j); reflexivity.
Qed.

Lemma product_filter (P Q : nat -> bool) (l1 l2 : list nat) :
  product (List.filter P l1) (List.filter Q l2)
  = List.filter (fun p => P (fst p) && Q (snd p)) (product l1 l2).
Proof.
  induction l1 as [|i l1 IH]; simpl; [reflexivity|].
  rewrite List.filter_app, <- IH, filter_row.
  destruct (P i); reflexivity.
Qed.

Lemma ltb_irrefl (x : float) : F32.ltb x x = false.
Proof.
  unfold F32.ltb, SFltb. destruct x as [[]|[]| |[] m e]; simpl; try reflexivity.
  - rewrite Z.compare_refl.
    change (Pos.compare_cont Eq m m) with (Pos.compare m m).
    rewrite Pos.compare_refl. reflexivity.
  - rewrite Z.compare_refl.
    change (Pos.compare_cont Eq m m) with (Pos.compare m m).
    rewrite Pos.compare_refl. reflexivity.
Qed.

Section RefinerFacts.

Variable Aabb : Type.
Variable collideWith : Aabb -> Aabb -> bool.
Variable merge : Aabb -> Aabb -> Aabb.
Variable invalidate : Aabb -> Aabb.
Variable Aabb_new : Aabb.
Variable checkCollide :
  Collider -> Collider -> CollisionResult -> bool * CollisionResult.

(** What the proofs need of boxes: colliding is symmetric, and a box
    that collides with a merged box or with the one merged into it (a box
    that collides with something) collides with the merge. *)
Hypothesis collide_sym : forall x y, collideWith x y = collideWith y x.
Hypothesis collide_merge_r :
  forall x acc y, collideWith x y = true -> collideWith x (merge acc y) = true.
Hypothesis collide_merge_l :
  forall x acc y z,
    collideWith x acc = true -> collideWith y z = true ->
    collideWith x (merge acc y) = true.

Lemma collect_from (boxes : nat -> Aabb) (against : Aabb) (l : list nat) :
  forall (l0 : list nat) (bx : Aabb),
    fold_left
      (fun '(l, box) i =>
         if collideWith (boxes i) against
         then (l ++ [i], merge box (boxes i))
         else (l, box))
      l (l0, bx)
    = (l0 ++ List.filter (fun i => collideWith (boxes i) against) l,
       fold_left (fun bx i => merge bx (boxes i))
         (List.filter (fun i => collideWith (boxes i) against) l) bx).
Proof.
  induction l as [|i l IH]; intros l0 bx; simpl.
  - rewrite app_nil_r. reflexivity.
  - destruct (collideWith (boxes i) against); simpl.
    + rewrite IH, <- app_assoc. reflexivity.
    + apply IH.
Qed.

Lemma collect_spec (boxes : nat -> Aabb) (n : nat) (against box : Aabb) :
  collect Aabb collideWith merge boxes n against box
  = (List.filter (fun i => collideWith (boxes i) against) (seq 0 n),
     fold_left (fun bx i => merge bx (boxes i))
       (List.filter (fun i => collideWith (boxes i) against) (seq 0 n)) box).
Proof. unfold collect. rewrite collect_from. reflexivity. Qed.

Lemma merged_box_collides (boxes : nat -> Aabb) (l : list nat) :
  forall (box x : Aabb),
    (forall i, In i l -> exists z, collideWith (boxes i) z = true) ->
    collideWith x box = true
    \/ (exists i, In i l /\ collideWith x (boxes i) = true) ->
    collideWith x (fold_left (fun bx i => merge bx (boxes i)) l box) = true.
Proof.
  induction l as [|i l IH]; intros box x Hproper Hx; simpl.
  - destruct Hx as [Hx|(i & [] & _)]. exact Hx.
  - apply IH.
    + intros i' Hi'. apply Hproper. right. exact Hi'.
    + destruct Hx as [Hx|(i0 & [<-|Hi0] & Hx)].
      * left. destruct (Hproper i (or_introl eq_refl)) as [z Hz].
        eapply collide_merge_l; eassumption.
      * left. apply collide_merge_r, Hx.
      * right. exists i0. split; assumption.
Qed.

Variables a b : ColliderTree Aabb.

(** The tree invariant the single-pass variant relies on: the box of
    node A encloses the boxes of A's colliders in range. *)
Hypothesis enclosed :
  forall i x,
    (i < asize_of a b)%nat ->
    collideWith x (aabb a i) = true -> collideWith x (aabbMe a) = true.

Local Abbreviation step :=
  (fun (acc : Best) (p : nat * nat) =>
     test_pair Aabb collideWith checkCollide a b (fst p) (snd p) acc).
Local Abbreviation live :=
  (fun p : nat * nat => collideWith (aabb a (fst p)) (aabb b (snd p))).
Local Abbreviation sa := (seq 0 (asize_of a b)).
Local Abbreviation sb := (seq 0 (bsize_of a b)).
Local Abbreviation P1 i := (collideWith (aabb a i) (aabbMe b)).
Local Abbreviation LA0 := (List.filter (fun i => P1 i) sa).
Local Abbreviation boxA :=
  (fold_left (fun bx i => merge bx (aabb a i)) LA0 Aabb_new).
Local Abbreviation Q j := (collideWith (aabb b j) boxA).
Local Abbreviation LB := (List.filter (fun j => Q j) sb).
Local Abbreviation boxB :=
  (fold_left (fun bx j => merge bx (aabb b j)) LB (invalidate (aabbMe b))).
Local Abbreviation P2 i := (collideWith (aabb a i) boxB).
Local Abbreviation Q' j := (collideWith (aabb b j) (aabbMe a)).

Lemma step_dead (acc : Best) (p : nat * nat) : live p = false -> step acc p = acc.
Proof.
  intros H. unfold test_pair. destruct acc as [[h r] t]. cbn beta in H. rewrite H. reflexivity.
Qed.

Lemma dispatch_scan_product (la lb : list nat) :
  dispatch_scan Aabb collideWith checkCollide a b la lb
  = fold_left step (product la lb) best_init.
Proof.
  unfold dispatch_scan.
  destruct la as [|i la]; [reflexivity|].
  destruct lb as [|j lb]; [rewrite product_nil_r; reflexivity|].
  cbn [nonempty andb].
  apply (fold_left_product step).
Qed.

Lemma Q_true (i j : nat) :
  In i sa -> P1 i = true -> live (i, j) = true -> Q j = true.
Proof.
  intros Hi HP Hl. cbn [fst snd] in Hl.
  apply merged_box_collides.
  - intros i' Hi'. apply filter_In in Hi' as [_ Hi']. eauto.
  - right. exists i. split; [apply filter_In; split; assumption|].
    rewrite collide_sym. exact Hl.
Qed.

Lemma P2_true (i j : nat) :
  In j sb -> Q j = true -> live (i, j) = true -> P2 i = true.
Proof.
  intros Hj HQ Hl. cbn [fst snd] in Hl.
  apply merged_box_collides.
  - intros j' Hj'. apply filter_In in Hj' as [_ Hj']. eauto.
  - right. exists j. split; [apply filter_In; split; assumption|exact Hl].
Qed.

Lemma Q'_true (i j : nat) : In i sa -> live (i, j) = true -> Q' j = true.
Proof.
  intros Hi Hl. cbn [fst snd] in Hl. apply in_seq in Hi.
  apply (enclosed i); [lia|]. rewrite collide_sym. exact Hl.
Qed.

Lemma candidates_cpu :
  List.filter live (product LA0 (List.filter (fun j => Q' j) sb))
  = candidates collideWith a b.
Proof.
  rewrite product_filter, filter_filter. unfold candidates.
  apply filter_ext_in. intros [i j] Hp. apply in_product in Hp as [Hi Hj].
  cbn [fst snd] in *.
  destruct (collideWith (aabb a i) (aabb b j)) eqn:Hl; [|reflexivity].
  rewrite (Q'_true i j Hi Hl), andb_true_r. reflexivity.
Qed.

Lemma candidates_refactored :
  List.filter live
    (product (fst (refine Aabb collideWith merge invalidate Aabb_new a b))
             (snd (refine Aabb collideWith merge invalidate Aabb_new a b)))
  = candidates collideWith a b.
Proof.
  unfold refine. rewrite collect_spec.
  destruct LA0 as [|i0 la] eqn:HLA.
  - (* no collider of A meets the box of B *)
    cbn. symmetry. apply filter_nil_iff. intros [i j] Hp.
    apply in_product in Hp as [Hi _]. cbn [fst snd] in *.
    rewrite (proj1 (filter_nil_iff _ _) HLA i Hi). apply andb_false_r.
  - cbn [nonempty]. rewrite collect_spec. rewrite <- HLA.
    destruct LB as [|j0 lb] eqn:HLB.
    + (* no collider of B meets the tightened box of A *)
      cbn [nonempty fst snd]. rewrite product_nil_r. cbn. symmetry.
      apply filter_nil_iff. intros [i j] Hp.
      apply in_product in Hp as [Hi Hj]. cbn [fst snd] in *.
      destruct (collideWith (aabb a i) (aabb b j)) eqn:Hl; [|reflexivity].
      destruct (collideWith (aabb a i) (aabbMe b)) eqn:HP; [|reflexivity].
      pose proof (Q_true i j Hi HP Hl) as HQ.
      rewrite (proj1 (filter_nil_iff _ _) HLB j Hj) in HQ. discriminate.
    + cbn [nonempty fst snd]. rewrite <- HLB.
      rewrite filter_filter, product_filter, filter_filter. unfold candidates.
      apply filter_ext_in. intros [i j] Hp. apply in_product in Hp as [Hi Hj].
      cbn [fst snd] in *.
      destruct (collideWith (aabb a i) (aabb b j)) eqn:Hl; [|reflexivity].
      destruct (collideWith (aabb a i) (aabbMe b)) eqn:HP;
        [|rewrite andb_false_r; reflexivity].
      pose proof (Q_true i j Hi HP Hl) as HQ.
      pose proof (P2_true i j Hj HQ Hl) as HP2.
      rewrite HQ, HP2. reflexivity.
Qed.

Lemma scan_refactored_fold :
  scan_refactored Aabb collideWith merge invalidate Aabb_new checkCollide a b
  = fold_left step (candidates collideWith a b) best_init.
Proof.
  unfold scan_refactored.
  rewrite (surjective_pairing
             (refine Aabb collideWith merge invalidate Aabb_new a b)).
  rewrite dispatch_scan_product, <- candidates_refactored.
  apply (fold_left_live live step). intros acc p. apply step_dead.
Qed.

Lemma scan_cpu_major :
  (bsize_of a b <? asize_of a b)%nat = true ->
  scan_cpu Aabb collideWith checkCollide a b
  = fold_left step (candidates collideWith a b) best_init.
Proof.
  intros Hlt. unfold scan_cpu. rewrite Hlt.
  rewrite (fold_left_skip (fun i => P1 i)
             (fun acc i =>
                fold_left (fun acc j => step acc (i, j))
                  (List.filter (fun j => Q' j) sb) acc)).
  rewrite (fold_left_product step), <- candidates_cpu.
  apply (fold_left_live live step). intros acc p. apply step_dead.
Qed.

Lemma scan_cpu_minor :
  (bsize_of a b <? asize_of a b)%nat = false ->
  scan_cpu Aabb collideWith checkCollide a b
  = fold_left step
      (map (fun q : nat * nat => (snd q, fst q))
         (product (List.filter (fun j => Q' j) sb) LA0))
      best_init.
Proof.
  intros Hlt. unfold scan_cpu. rewrite Hlt.
  rewrite (fold_left_skip (fun j => Q' j)
             (fun acc j =>
                fold_left (fun acc i => step acc (i, j)) LA0 acc)).
  rewrite (fold_left_product (fun acc q => step acc (snd q, fst q))).
  generalize best_init.
  induction (product (List.filter (fun j => Q' j) sb) LA0) as [|q l IH];
    intros acc; simpl; [reflexivity|apply IH].
Qed.

(** The checker's verdict, and its contact on a hit, do not depend on
    what the caller's [temp] held. *)
Hypothesis check_indep :
  forall ca cb t,
    fst (checkCollide ca cb t) = fst (checkCollide ca cb zero)
    /\ (fst (checkCollide ca cb t) = true ->
        snd (checkCollide ca cb t) = snd (checkCollide ca cb zero)).

Local Abbreviation hit_of :=
  (fun p : nat * nat =>
     let '(hit, r) := checkCollide (cbuf a (fst p)) (cbuf b (snd p)) zero in
     if hit then [r] else []).
Local Abbreviation hits L :=
  (flat_map (fun p : nat * nat => if live p then hit_of p else []) L).

Lemma step_deepest (seen : list (nat * nat)) (p : nat * nat) (acc : Best) :
  deepest (hits seen) acc -> deepest (hits (seen ++ [p])) (step acc p).
Proof.
  rewrite flat_map_app. cbn [flat_map]. rewrite app_nil_r.
  destruct acc as [[h r] t]. unfold test_pair. cbn beta.
  destruct (collideWith (aabb a (fst p)) (aabb b (snd p))) eqn:Hl; cbn [negb].
  2:{ rewrite app_nil_r. exact (fun H => H). }
  destruct (check_indep (cbuf a (fst p)) (cbuf b (snd p)) t) as [Hf Hs].
  destruct (checkCollide (cbuf a (fst p)) (cbuf b (snd p)) t) as [hit t'].
  destruct (checkCollide (cbuf a (fst p)) (cbuf b (snd p)) zero) as [hit0 r0].
  cbn [fst snd] in Hf, Hs. subst hit0.
  destruct hit.
  2:{ rewrite app_nil_r. exact (fun H => H). }
  rewrite <- (Hs eq_refl). clear Hs.
  unfold deepest. destruct h; cbn [negb orb].
  - intros [Hin Hmin].
    destruct (depth r >? depth t')%f32 eqn:Hgt.
    + split; [apply in_or_app; right; left; reflexivity|].
      intros r' Hr'. apply in_app_or in Hr' as [Hr'|[<-|[]]].
      * destruct (depth r' <? depth t')%f32 eqn:Hlt; [|reflexivity].
        rewrite <- (Hmin r' Hr'). symmetry.
        exact (ltb_trans _ _ _ Hlt Hgt).
      * apply ltb_irrefl.
    + split; [apply in_or_app; left; exact Hin|].
      intros r' Hr'. apply in_app_or in Hr' as [Hr'|[<-|[]]].
      * apply Hmin, Hr'.
      * exact Hgt.
  - intros ->. split; [left; reflexivity|].
    intros r' [<-|[]]. apply ltb_irrefl.
Qed.

Lemma fold_step_deepest (L : list (nat * nat)) :
  forall (seen : list (nat * nat)) (acc : Best),
    deepest (hits seen) acc ->
    deepest (hits (seen ++ L)) (fold_left step L acc).
Proof.
  induction L as [|p L IH]; intros seen acc Hacc; simpl.
  - rewrite app_nil_r. exact Hacc.
  - replace (seen ++ p :: L) with ((seen ++ [p]) ++ L)
      by (rewrite <- app_assoc; reflexivity).
    apply IH, step_deepest, Hacc.
Qed.

Lemma deepest_equiv (U U' : list CollisionResult) (found : Best) :
  (forall r, In r U <-> In r U') -> deepest U found -> deepest U' found.
Proof.
  intros Heq. unfold deepest. destruct found as [[h r] t]. destruct h.
  - intros [Hin Hmin]. split; [apply Heq, Hin|].
    intros r' Hr'. apply Hmin, Heq, Hr'.
  - intros ->. destruct U' as [|r' U']; [reflexivity|].
    destruct (proj2 (Heq r') (or_introl eq_refl)).
Qed.

Lemma in_hits (L : list (nat * nat)) (r : CollisionResult) :
  In r (hits L) <-> exists p, In p L /\ live p = true /\ In r (hit_of p).
Proof.
  rewrite in_flat_map. split.
  - intros (p & Hp & Hr). exists p. split; [exact Hp|].
    destruct (collideWith (aabb a (fst p)) (aabb b (snd p))); [|destruct Hr].
    split; [reflexivity|exact Hr].
  - intros (p & Hp & Hl & Hr). exists p. split; [exact Hp|].
    cbn beta in Hl. rewrite Hl. exact Hr.
Qed.

Lemma in_overlaps (r : CollisionResult) :
  In r (overlaps collideWith checkCollide a b)
  <-> exists p, In p (candidates collideWith a b) /\ In r (hit_of p).
Proof. unfold overlaps. apply in_flat_map. Qed.

Lemma in_candidates (p : nat * nat) :
  In p (candidates collideWith a b)
  <-> In (fst p) sa /\ In (snd p) sb /\ live p = true /\ P1 (fst p) = true.
Proof.
  unfold candidates. rewrite filter_In, in_product, andb_true_iff.
  split; [intros [[? ?] [? ?]]|intros (? & ? & ? & ?)];
    repeat split; assumption.
Qed.

Lemma hits_candidates (r : CollisionResult) :
  In r (hits (candidates collideWith a b))
  <-> In r (overlaps collideWith checkCollide a b).
Proof.
  rewrite in_hits, in_overlaps. split.
  - intros (p & Hp & _ & Hr). exists p. split; assumption.
  - intros (p & Hp & Hr). exists p. split; [exact Hp|].
    split; [apply in_candidates in Hp as (_ & _ & Hl & _); exact Hl|exact Hr].
Qed.

Lemma hits_minor (r : CollisionResult) :
  In r (hits (map (fun q : nat * nat => (snd q, fst q))
                (product (List.filter (fun j => Q' j) sb) LA0)))
  <-> In r (overlaps collideWith checkCollide a b).
Proof.
  rewrite in_hits, in_overlaps. split.
  - intros (p & Hp & Hl & Hr). exists p. split; [|exact Hr].
    apply in_map_iff in Hp as ([j i] & <- & Hq).
    apply in_product in Hq as [Hj Hi]. cbn [fst snd] in *.
    apply filter_In in Hj as [Hj _]. apply filter_In in Hi as [Hi HP].
    apply in_candidates. cbn [fst snd]. repeat split; assumption.
  - intros (p & Hp & Hr). apply in_candidates in Hp as (Hi & Hj & Hl & HP).
    exists p. split; [|split; assumption].
    apply in_map_iff. exists (snd p, fst p). split; [destruct p; reflexivity|].
    apply in_product. cbn [fst snd]. split; apply filter_In; split; trivial.
    destruct p as [i j]. exact (Q'_true i j Hi Hl).
Qed.

Lemma scan_refactored_deepest :
  deepest (overlaps collideWith checkCollide a b)
    (scan_refactored Aabb collideWith merge invalidate Aabb_new checkCollide a b).
Proof.
  rewrite scan_refactored_fold.
  apply (deepest_equiv _ _ _ hits_candidates).
  apply (fold_step_deepest _ []). reflexivity.
Qed.

Lemma scan_cpu_deepest :
  deepest (overlaps collideWith checkCollide a b)
    (scan_cpu Aabb collideWith checkCollide a b).
Proof.
  destruct (bsize_of a b <? asize_of a b)%nat eqn:Hlt.
  - rewrite (scan_cpu_major Hlt).
    apply (deepest_equiv _ _ _ hits_candidates).
    apply (fold_step_deepest _ []). reflexivity.
  - rewrite (scan_cpu_minor Hlt).
    apply (deepest_equiv _ _ _ hits_minor).
    apply (fold_step_deepest _ []). reflexivity.
Qed.

End RefinerFacts.

(** The closure of the refactored algorithm is the guard followed by
    [dispatch] on the refined candidate lists. *)
Lemma func_refactored_dispatch (MaxCollisionCount : Z) (SwapResults : bool)
    (Aabb : Type) (collideWith : Aabb -> Aabb -> bool)
    (merge : Aabb -> Aabb -> Aabb) (invalidate : Aabb -> Aabb)
    (Aabb_new : Aabb)
    (checkCollide :
       Collider -> Collider -> CollisionResult -> bool * CollisionResult)
    (a b : ColliderTree Aabb) (st : ResultSink) :
  func_refactored MaxCollisionCount SwapResults Aabb collideWith merge
    invalidate Aabb_new checkCollide (a, b) st
  = if guard MaxCollisionCount st then st
    else
      dispatch MaxCollisionCount SwapResults Aabb collideWith checkCollide a b
        (fst (refine Aabb collideWith merge invalidate Aabb_new a b))
        (snd (refine Aabb collideWith merge invalidate Aabb_new a b)) st.
Proof.
  unfold func_refactored, func, dispatch, scan_refactored. cbn [fst snd].
  destruct (refine Aabb collideWith merge invalidate Aabb_new a b).
  reflexivity.
Qed.

(** ** Boxes over binary32 lanes *)

Section BoxFacts.

Lemma fmax_r (x u v : float) :
  F32.leb x v = true -> F32.leb x (Box.fmax u v) = true.
Proof.
  intros H. unfold Box.fmax. change (F32.gtb u v) with (F32.ltb v u).
  destruct (F32.ltb v u) eqn:Hlt; [|exact H].
  exact (leb_ltb_trans _ _ _ H Hlt).
Qed.

Lemma fmin_r (y u v : float) :
  F32.leb v y = true -> F32.leb (Box.fmin u v) y = true.
Proof.
  intros H. unfold Box.fmin. destruct (F32.ltb u v) eqn:Hlt; [|exact H].
  exact (ltb_leb_trans _ _ _ Hlt H).
Qed.

Lemma fmax_l (x u v : float) :
  F32.leb x u = true -> F32.leb v v = true ->
  F32.leb x (Box.fmax u v) = true.
Proof.
  intros H Hv. unfold Box.fmax. change (F32.gtb u v) with (F32.ltb v u).
  destruct (F32.ltb v u) eqn:Hlt; [exact H|].
  apply (leb_trans _ _ _ H).
  exact (leb_total u v (leb_number_r _ _ H) Hv Hlt).
Qed.

Lemma fmin_l (y u v : float) :
  F32.leb u y = true -> F32.leb v v = true ->
  F32.leb (Box.fmin u v) y = true.
Proof.
  intros H Hv. unfold Box.fmin. destruct (F32.ltb u v) eqn:Hlt; [exact H|].
  refine (leb_trans _ _ _ _ H).
  exact (leb_total v u Hv (leb_number_l _ _ H) Hlt).
Qed.

Lemma le3_iff (u v : btVector3) :
  Box.le3 u v = true
  <-> F32.leb (vx u) (vx v) = true /\ F32.leb (vy u) (vy v) = true
      /\ F32.leb (vz u) (vz v) = true.
Proof. unfold Box.le3. rewrite !andb_true_iff. tauto. Qed.

Lemma collide_iff (x y : Box.Aabb) :
  Box.collideWith x y = true
  <-> Box.le3 (Box.m_min x) (Box.m_max y) = true
      /\ Box.le3 (Box.m_min y) (Box.m_max x) = true.
Proof. unfold Box.collideWith. apply andb_true_iff. Qed.

Lemma box_collide_sym (x y : Box.Aabb) :
  Box.collideWith x y = Box.collideWith y x.
Proof. unfold Box.collideWith. apply andb_comm. Qed.

Lemma box_collide_merge_r (x acc y : Box.Aabb) :
  Box.collideWith x y = true -> Box.collideWith x (Box.merge acc y) = true.
Proof.
  rewrite !collide_iff, !le3_iff. cbn.
  intros [(H1 & H2 & H3) (H4 & H5 & H6)].
  repeat split; first [apply fmax_r | apply fmin_r]; assumption.
Qed.

Lemma box_collide_merge_l (x acc y z : Box.Aabb) :
  Box.collideWith x acc = true -> Box.collideWith y z = true ->
  Box.collideWith x (Box.merge acc y) = true.
Proof.
  rewrite !collide_iff, !le3_iff. cbn.
  intros [(H1 & H2 & H3) (H4 & H5 & H6)] [(G1 & G2 & G3) (G4 & G5 & G6)].
  repeat split;
    first [apply fmax_l; [assumption|eapply leb_number_r; eassumption]
          |apply fmin_l; [assumption|eapply leb_number_l; eassumption]].
Qed.

Lemma box_encloses_collides (big small x : Box.Aabb) :
  Box.encloses big small = true ->
  Box.collideWith x small = true -> Box.collideWith x big = true.
Proof.
  unfold Box.encloses. rewrite andb_true_iff, !collide_iff, !le3_iff.
  intros [(E1 & E2 & E3) (E4 & E5 & E6)] [(H1 & H2 & H3) (H4 & H5 & H6)].
  repeat split; eapply leb_trans; eassumption.
Qed.

End BoxFacts.

(** The sphere-sphere checkers meet the refiner's assumption on
    checkers: the verdict, and the contact on a hit, do not depend on what
    the caller's [temp] held. *)
Lemma checkCollide_as_specified_indep (ctx : CheckContext)
    (ca cb : Collider) (t : CollisionResult) :
  fst (checkCollide_as_specified ctx ca cb t)
  = fst (checkCollide_as_specified ctx ca cb zero)
  /\ (fst (checkCollide_as_specified ctx ca cb t) = true ->
      snd (checkCollide_as_specified ctx ca cb t)
      = snd (checkCollide_as_specified ctx ca cb zero)).
Proof.
  unfold checkCollide_as_specified, checkSphereSphere, has_nan.
  cbn [posA posB normOnB depth].
  destruct (_ && _); [|cbn [fst snd]; split; [reflexivity|discriminate]].
  destruct (_ || _); cbn [fst snd]; split;
    first [reflexivity | discriminate].
Qed.

(** When one contact is strictly deeper than all the others, it is the
    best-of-pair result. *)
Lemma deepest_unique (U : list CollisionResult) (found : Best)
    (best : CollisionResult) :
  deepest U found ->
  In best U ->
  (forall r, In r U -> r <> best -> (depth best <? depth r)%f32 = true) ->
  fst (fst found) = true /\ snd (fst found) = best.
Proof.
  unfold deepest. destruct found as [[h r] t]. cbn [fst snd].
  intros Hd Hin Hstrict. destruct h.
  - destruct Hd as [Hr Hmin]. split; [reflexivity|].
    destruct (decide (r = best)) as [Heq|Hne]; [exact Heq|].
    pose proof (Hstrict r Hr Hne) as Hlt.
    rewrite (Hmin best Hin) in Hlt. discriminate.
  - rewrite Hd in Hin. destruct Hin.
Qed.


Lemma tie_enclosed (b : ColliderTree Box.Aabb) (i : nat) (x : Box.Aabb) :
  (i < 2)%nat ->
  Box.collideWith x (aabb Tie.treeA i) = true ->
  Box.collideWith x (aabbMe Tie.treeA) = true.
Proof.
  intros Hi. destruct i as [|[|i]]; [| |lia];
    apply box_encloses_collides; vm_compute; reflexivity.
Qed.



(** ** The pair dispatcher *)

Section DispatcherFacts.

Variable MaxCollisionCount : Z.
Variable SwapResults : bool.
Variable Aabb : Type.
Variable scan : ColliderTree Aabb -> ColliderTree Aabb -> Best.

(** The array holds exactly the slots below the counter and below the
    capacity. *)
Local Abbreviation sink_ok st :=
  (0 <= numResults st
   /\ forall k, is_Some (results st !! k)
                <-> 0 <= k < Z.min (numResults st) MaxCollisionCount).

Lemma sink_ok_init : sink_ok (CollisionCheckBase1 ∅).
Proof.
  split; [reflexivity|]. intros k. cbn. rewrite lookup_empty. split.
  - intros [x Hx]. discriminate.
  - lia.
Qed.

Lemma sink_ok_size (st : ResultSink) :
  sink_ok st ->
  Z.of_nat (size (results st))
  = Z.max 0 (Z.min (numResults st) MaxCollisionCount).
Proof.
  intros [Hpos Hkeys].
  rewrite (size_initial_segment (results st)
             (Z.max 0 (Z.min (numResults st) MaxCollisionCount))).
  - lia.
  - lia.
  - intros k. rewrite Hkeys. lia.
Qed.

Lemma addResult_ok (res : CollisionResult) (st : ResultSink) :
  sink_ok st -> numResults st + 1 < 2 ^ 31 ->
  sink_ok (snd (addResult MaxCollisionCount SwapResults res st))
  /\ numResults (snd (addResult MaxCollisionCount SwapResults res st))
     = numResults st + 1.
Proof.
  intros [Hpos Hkeys] Hlt. rewrite addResult_unfold. cbn [fst snd numResults results].
  rewrite wrap32_small by lia.
  split; [|reflexivity]. split; [lia|]. intros k.
  destruct (Z.ltb_spec (numResults st) MaxCollisionCount) as [Hp|Hp].
  - rewrite lookup_insert. case_decide as Hk.
    + subst k. split; [intros _; lia|intros _; eauto].
    + rewrite Hkeys. lia.
  - rewrite Hkeys. lia.
Qed.

Lemma submit_ok (acc : Best) (st : ResultSink) :
  sink_ok st -> numResults st + 1 < 2 ^ 31 ->
  sink_ok (submit MaxCollisionCount SwapResults acc st)
  /\ numResults st <= numResults (submit MaxCollisionCount SwapResults acc st)
     <= numResults st + 1.
Proof.
  intros Hok Hlt. unfold submit. destruct acc as [[h r] t]. destruct h.
  - destruct (addResult_ok r st Hok Hlt) as [Hok' Hn]. split; [exact Hok'|lia].
  - split; [exact Hok|lia].
Qed.

(** Sequential processing: the counter stays within the capacity. *)
Lemma func_ok (pair : ColliderTree Aabb * ColliderTree Aabb) (st : ResultSink)
    (n : Z) :
  0 <= MaxCollisionCount ->
  sink_ok st -> numResults st <= n -> n + 1 < 2 ^ 31 ->
  numResults st <= MaxCollisionCount ->
  let st' := func MaxCollisionCount SwapResults Aabb scan pair st in
  sink_ok st' /\ numResults st' <= n + 1
  /\ numResults st' <= MaxCollisionCount.
Proof.
  intros HM Hok Hn Hlt Hcap st'. subst st'. unfold func, guard.
  destruct (Z.geb_spec (numResults st) MaxCollisionCount) as [Hg|Hg].
  - split; [exact Hok|]. lia.
  - destruct (submit_ok (scan (fst pair) (snd pair)) st Hok) as [Hok' Hn'];
      [lia|].
    split; [exact Hok'|]. lia.
Qed.

Lemma sequential_ok (pairs : list (ColliderTree Aabb * ColliderTree Aabb)) :
  forall (st : ResultSink) (n : Z),
    0 <= MaxCollisionCount ->
    sink_ok st -> numResults st <= n ->
    n + Z.of_nat (length pairs) < 2 ^ 31 ->
    numResults st <= MaxCollisionCount ->
    let st' :=
      fold_left
        (fun st pair => func MaxCollisionCount SwapResults Aabb scan pair st)
        pairs st in
    sink_ok st' /\ numResults st' <= n + Z.of_nat (length pairs)
    /\ numResults st' <= MaxCollisionCount.
Proof.
  induction pairs as [|pair pairs IH]; intros st n HM Hok Hn Hlt Hcap;
    cbn [fold_left length] in *.
  - split; [exact Hok|]. lia.
  - destruct (func_ok pair st n HM Hok Hn) as (Hok' & Hn' & Hcap'); [lia|lia|].
    destruct (IH _ (n + 1) HM Hok' Hn') as (Hok2 & Hn2 & Hcap2); [lia|lia|].
    split; [exact Hok2|]. lia.
Qed.

(** Parallel processing: the counter is at most the number of finished
    tasks. *)
Local Abbreviation finished ts := (length (List.filter is_finished ts)).

Lemma finished_le (ts : list TaskState) : (finished ts <= length ts)%nat.
Proof. apply List.filter_length_le. Qed.

Lemma finished_insert (ts : list TaskState) :
  forall (k : nat) (old new : TaskState),
    ts !! k = Some old ->
    (finished (<[k := new]> ts) + (if is_finished old then 1 else 0)
     = finished ts + (if is_finished new then 1 else 0))%nat.
Proof.
  induction ts as [|t ts IH]; intros k old new Hk; [destruct k; discriminate|].
  destruct k as [|k]; cbn in Hk.
  - injection Hk as ->. clear IH.
    change (<[0%nat := new]> (old :: ts)) with (new :: ts).
    cbn [List.filter].
    destruct (is_finished old), (is_finished new); cbn [length]; lia.
  - specialize (IH k old new Hk).
    change (<[S k := new]> (t :: ts)) with (t :: <[k := new]> ts).
    cbn [List.filter].
    destruct (is_finished t), (is_finished old), (is_finished new);
      cbn [length]; lia.
Qed.

Local Abbreviation pool_ok pairs pl :=
  (sink_ok (sink pl)
   /\ length (tasks pl) = length pairs
   /\ numResults (sink pl) <= Z.of_nat (finished (tasks pl))).

Lemma step_ok (pairs : list (ColliderTree Aabb * ColliderTree Aabb))
    (k : nat) (pl : Pool) :
  Z.of_nat (length pairs) < 2 ^ 31 ->
  pool_ok pairs pl ->
  pool_ok pairs (step MaxCollisionCount SwapResults Aabb scan pairs k pl).
Proof.
  intros Hlen (Hok & Hl & Hn). unfold step.
  destruct (tasks pl !! k) as [t|] eqn:Ht; [|exact (conj Hok (conj Hl Hn))].
  destruct (pairs !! k) as [[a b]|] eqn:Hp;
    [|destruct t; exact (conj Hok (conj Hl Hn))].
  pose proof (finished_le (tasks pl)) as Hle.
  destruct t.
  - destruct (guard MaxCollisionCount (sink pl)); cbn [sink tasks].
    + pose proof (finished_insert _ _ _ Finished Ht) as Hf. cbn in Hf.
      split; [exact Hok|]. split; [rewrite length_insert; exact Hl|lia].
    + pose proof (finished_insert _ _ _ Running Ht) as Hf. cbn in Hf.
      split; [exact Hok|]. split; [rewrite length_insert; exact Hl|lia].
  - cbn [sink tasks].
    pose proof (finished_insert _ _ _ Finished Ht) as Hf. cbn in Hf.
    pose proof (finished_le (<[k := Finished]> (tasks pl))) as Hle'.
    rewrite length_insert in Hle'.
    destruct (submit_ok (scan a b) (sink pl) Hok) as [Hok' Hn']; [lia|].
    split; [exact Hok'|]. split; [rewrite length_insert; exact Hl|lia].
  - exact (conj Hok (conj Hl Hn)).
Qed.

Lemma parallel_ok (pairs : list (ColliderTree Aabb * ColliderTree Aabb))
    (sched : list nat) :
  Z.of_nat (length pairs) < 2 ^ 31 ->
  pool_ok pairs
    (parallel_for_each MaxCollisionCount SwapResults Aabb scan pairs sched
       (CollisionCheckBase1 ∅)).
Proof.
  intros Hlen. unfold parallel_for_each.
  assert (H0 : pool_ok pairs
                 (mkPool (CollisionCheckBase1 ∅) (repeat Ready (length pairs)))).
  { cbn [sink tasks]. split; [exact sink_ok_init|].
    split; [apply repeat_length|]. cbn. lia. }
  revert H0. generalize (mkPool (CollisionCheckBase1 ∅)
                           (repeat Ready (length pairs))).
  induction sched as [|k sched IH]; intros pl Hpl; cbn [fold_left].
  - exact Hpl.
  - apply IH, step_ok; assumption.
Qed.

End DispatcherFacts.




(** * Further properties *)

(** ** The scans of the two refiner variants *)

Section ScanFacts.

Variable Aabb : Type.
Variable collideWith : Aabb -> Aabb -> bool.
Variable merge : Aabb -> Aabb -> Aabb.
Variable invalidate : Aabb -> Aabb.
Variable Aabb_new : Aabb.
Variable checkCollide :
  Collider -> Collider -> CollisionResult -> bool * CollisionResult.
Variables a b : ColliderTree Aabb.

Local Abbreviation step :=
  (fun (acc : Best) (p : nat * nat) =>
     test_pair Aabb collideWith checkCollide a b (fst p) (snd p) acc).

(** The result held, if any, is what the checker returned on a pair of
    colliders in range whose boxes collide. *)
Local Abbreviation sound acc :=
  (fst (fst acc) = true ->
   exists i j t,
     (i < asize_of a b)%nat /\ (j < bsize_of a b)%nat
     /\ collideWith (aabb a i) (aabb b j) = true
     /\ checkCollide (cbuf a i) (cbuf b j) t = (true, snd (fst acc))).

Lemma step_sound (acc : Best) (p : nat * nat) :
  (fst p < asize_of a b)%nat -> (snd p < bsize_of a b)%nat ->
  sound acc -> sound (step acc p).
Proof.
  intros Hi Hj Hacc. destruct acc as [[h r] t]. unfold test_pair.
  destruct (collideWith (aabb a (fst p)) (aabb b (snd p))) eqn:Hl;
    cbn [negb]; [|exact Hacc].
  destruct (checkCollide (cbuf a (fst p)) (cbuf b (snd p)) t)
    as [hit t'] eqn:Hc.
  destruct hit; [|exact Hacc].
  destruct (negb h || (depth r >? depth t')%f32); [|exact Hacc].
  intros _. exists (fst p), (snd p), t. cbn [fst snd]. repeat split; assumption.
Qed.

Lemma fold_step_sound (L : list (nat * nat)) :
  (forall p, In p L ->
             (fst p < asize_of a b)%nat /\ (snd p < bsize_of a b)%nat) ->
  forall acc, sound acc -> sound (fold_left step L acc).
Proof.
  induction L as [|p L IH]; intros HL acc Hacc; cbn [fold_left].
  - exact Hacc.
  - apply IH.
    + intros q Hq. apply HL. right. exact Hq.
    + destruct (HL p (or_introl eq_refl)) as [Hi Hj].
      apply step_sound; assumption.
Qed.

Lemma sound_init : sound best_init.
Proof. cbn. discriminate. Qed.

Lemma refine_in_range :
  let lists := refine Aabb collideWith merge invalidate Aabb_new a b in
  (forall i, In i (fst lists) -> (i < asize_of a b)%nat)
  /\ (forall j, In j (snd lists) -> (j < bsize_of a b)%nat).
Proof.
  unfold refine. rewrite collect_spec.
  destruct (nonempty _).
  - rewrite collect_spec.
    destruct (nonempty _); cbn [fst snd]; split.
    + intros i Hi. apply filter_In in Hi as [Hi _].
      apply filter_In in Hi as [Hi _]. apply in_seq in Hi. lia.
    + intros j Hj. apply filter_In in Hj as [Hj _]. apply in_seq in Hj. lia.
    + intros i Hi. apply filter_In in Hi as [Hi _]. apply in_seq in Hi. lia.
    + intros j Hj. apply filter_In in Hj as [Hj _]. apply in_seq in Hj. lia.
  - cbn [nonempty fst snd]. split.
    + intros i Hi. apply filter_In in Hi as [Hi _]. apply in_seq in Hi. lia.
    + intros j [].
Qed.

Lemma scan_refactored_sound :
  sound (scan_refactored Aabb collideWith merge invalidate Aabb_new
           checkCollide a b).
Proof.
  unfold scan_refactored.
  pose proof refine_in_range as [HA HB]. cbv zeta in HA, HB.
  destruct (refine Aabb collideWith merge invalidate Aabb_new a b) as [la lb].
  cbn [fst snd] in HA, HB.
  rewrite dispatch_scan_product.
  apply fold_step_sound; [|exact sound_init].
  intros p Hp. apply in_product in Hp as [Hi Hj]. split; [apply HA|apply HB];
    assumption.
Qed.

Lemma scan_cpu_sound :
  sound (scan_cpu Aabb collideWith checkCollide a b).
Proof.
  unfold scan_cpu. destruct (bsize_of a b <? asize_of a b)%nat.
  - rewrite (fold_left_skip
               (fun i => collideWith (aabb a i) (aabbMe b))
               (fun acc i =>
                  fold_left (fun acc j => step acc (i, j))
                    (List.filter
                       (fun j => collideWith (aabb b j) (aabbMe a))
                       (seq 0 (bsize_of a b))) acc)).
    rewrite (fold_left_product step).
    apply fold_step_sound; [|exact sound_init].
    intros p Hp. apply in_product in Hp as [Hi Hj].
    apply filter_In in Hi as [Hi _]. apply filter_In in Hj as [Hj _].
    apply in_seq in Hi. apply in_seq in Hj. lia.
  - rewrite (fold_left_skip
               (fun j => collideWith (aabb b j) (aabbMe a))
               (fun acc j =>
                  fold_left (fun acc i => step acc (i, j))
                    (List.filter
                       (fun i => collideWith (aabb a i) (aabbMe b))
                       (seq 0 (asize_of a b))) acc)).
    rewrite (fold_left_product (fun acc q => step acc (snd q, fst q))).
    set (L := product _ _).
    assert (HL : forall q, In q L ->
                   (snd q < asize_of a b)%nat /\ (fst q < bsize_of a b)%nat).
    { intros q Hq. apply in_product in Hq as [Hj Hi].
      apply filter_In in Hi as [Hi _]. apply filter_In in Hj as [Hj _].
      apply in_seq in Hi. apply in_seq in Hj. lia. }
    clearbody L. generalize sound_init. generalize best_init.
    induction L as [|q L IH]; intros acc Hacc; cbn [fold_left].
    + exact Hacc.
    + apply IH.
      * intros q' Hq'. apply HL. right. exact Hq'.
      * destruct (HL q (or_introl eq_refl)) as [Hi Hj].
        apply (step_sound acc (snd q, fst q)); assumption.
Qed.

End ScanFacts.

(** X1: whatever the boxes and the checker are, a result found by either
    variant for a coarse pair is what the checker returned, with verdict
    [true], on a collider of A and a collider of B that lie inside the
    scanned ranges and whose boxes collide.  So no contact is produced for
    two primitives whose boxes do not intersect, nor for a collider
    outside the range the kinematic flags select. *)
Theorem scan_result_provenance
    (Aabb : Type) (collideWith : Aabb -> Aabb -> bool)
    (merge : Aabb -> Aabb -> Aabb) (invalidate : Aabb -> Aabb)
    (Aabb_new : Aabb)
    (checkCollide :
       Collider -> Collider -> CollisionResult -> bool * CollisionResult)
    (a b : ColliderTree Aabb) :
  let from_pair (found : Best) :=
    fst (fst found) = true ->
    exists i j t,
      (i < asize_of a b)%nat /\ (j < bsize_of a b)%nat
      /\ collideWith (aabb a i) (aabb b j) = true
      /\ checkCollide (cbuf a i) (cbuf b j) t = (true, snd (fst found)) in
  from_pair (scan_refactored Aabb collideWith merge invalidate Aabb_new
               checkCollide a b)
  /\ from_pair (scan_cpu Aabb collideWith checkCollide a b).
Proof.
  cbv zeta. split.
  - apply scan_refactored_sound.
  - apply scan_cpu_sound.
Qed.

Section QuietFacts.

Variable MaxCollisionCount : Z.
Variable SwapResults : bool.
Variable Aabb : Type.
Variable collideWith : Aabb -> Aabb -> bool.
Variable merge : Aabb -> Aabb -> Aabb.
Variable invalidate : Aabb -> Aabb.
Variable Aabb_new : Aabb.
Variable checkCollide :
  Collider -> Collider -> CollisionResult -> bool * CollisionResult.

Lemma fold_left_fixed {A B : Type} (F : B -> A -> B) (l : list A) (acc : B) :
  (forall x, In x l -> F acc x = acc) -> fold_left F l acc = acc.
Proof.
  induction l as [|x l IH]; intros H; cbn [fold_left]; [reflexivity|].
  rewrite (H x (or_introl eq_refl)). apply IH.
  intros y Hy. apply H. right. exact Hy.
Qed.

Lemma scans_without_candidates (a b : ColliderTree Aabb) :
  (forall i, (i < asize_of a b)%nat ->
             collideWith (aabb a i) (aabbMe b) = false) ->
  scan_refactored Aabb collideWith merge invalidate Aabb_new checkCollide a b
  = best_init
  /\ scan_cpu Aabb collideWith checkCollide a b = best_init.
Proof.
  intros Hnone.
  assert (HA : List.filter (fun i => collideWith (aabb a i) (aabbMe b))
                 (seq 0 (asize_of a b)) = []).
  { apply filter_nil_iff. intros i Hi. apply in_seq in Hi. apply Hnone. lia. }
  split.
  - unfold scan_refactored, refine. rewrite collect_spec, HA. reflexivity.
  - unfold scan_cpu. destruct (bsize_of a b <? asize_of a b)%nat.
    + rewrite (fold_left_skip
                 (fun i => collideWith (aabb a i) (aabbMe b))
                 (fun acc i =>
                    fold_left
                      (fun acc j =>
                         test_pair Aabb collideWith checkCollide a b i j acc)
                      (List.filter
                         (fun j => collideWith (aabb b j) (aabbMe a))
                         (seq 0 (bsize_of a b))) acc)).
      rewrite HA. reflexivity.
    + rewrite HA. apply fold_left_fixed. intros j _.
      destruct (negb _); reflexivity.
Qed.

End QuietFacts.

(** X2: when no collider of A in range has a box that collides with the
    box of node B -- in particular when A's range is empty -- neither
    variant finds anything, and the per-pair closure leaves the sink,
    counter included, exactly as it was. *)
Theorem no_candidates_no_submission
    (Aabb : Type) (collideWith : Aabb -> Aabb -> bool)
    (merge : Aabb -> Aabb -> Aabb) (invalidate : Aabb -> Aabb)
    (Aabb_new : Aabb)
    (checkCollide :
       Collider -> Collider -> CollisionResult -> bool * CollisionResult)
    (a b : ColliderTree Aabb) :
  (forall i, (i < asize_of a b)%nat ->
             collideWith (aabb a i) (aabbMe b) = false) ->
  scan_refactored Aabb collideWith merge invalidate Aabb_new checkCollide a b
  = best_init
  /\ scan_cpu Aabb collideWith checkCollide a b = best_init
  /\ forall (MaxCollisionCount : Z) (SwapResults : bool) (st : ResultSink),
       func_refactored MaxCollisionCount SwapResults Aabb collideWith merge
         invalidate Aabb_new checkCollide (a, b) st = st
       /\ func_cpu MaxCollisionCount SwapResults Aabb collideWith checkCollide
            (a, b) st = st.
Proof.
  intros Hnone.
  destruct (scans_without_candidates Aabb collideWith merge invalidate
              Aabb_new checkCollide a b Hnone) as [Href Hcpu].
  split; [exact Href|]. split; [exact Hcpu|].
  intros MaxCollisionCount SwapResults st.
  unfold func_refactored, func_cpu, func. cbn [fst snd].
  rewrite Href, Hcpu. destruct (guard MaxCollisionCount st); split; reflexivity.
Qed.

Lemma no_candidates_no_submission_witness :
  (forall i, (i < asize_of Tie.treeA Apart.treeFar)%nat ->
             Box.collideWith (aabb Tie.treeA i) (aabbMe Apart.treeFar) = false)
  /\ Tie.refactored Tie.treeA Apart.treeFar = best_init
  /\ Tie.cpu Tie.treeA Apart.treeFar = best_init.
Proof.
  assert (H : forall i, (i < asize_of Tie.treeA Apart.treeFar)%nat ->
                Box.collideWith (aabb Tie.treeA i) (aabbMe Apart.treeFar)
                = false).
  { intros i Hi. destruct i as [|[|i]];
      [vm_compute; reflexivity|vm_compute; reflexivity|].
    exfalso. vm_compute in Hi. lia. }
  split; [exact H|].
  destruct (no_candidates_no_submission Box.Aabb Box.collideWith Box.merge
              Box.invalidate Box.Aabb_new Tie.checker Tie.treeA Apart.treeFar H)
    as (H1 & H2 & _).
  split; [exact H1|exact H2].
Defined.

(** X3: once the counter has reached [MaxCollisionCount], the per-pair
    closure returns at its guard: it neither scans nor touches the sink.
    Hence from a full sink every remaining pair leaves the sink as it is,
    whether the pairs are processed one after the other or by the pool
    under any schedule. *)
Theorem full_sink_untouched
    (MaxCollisionCount : Z) (SwapResults : bool) (Aabb : Type)
    (scan : ColliderTree Aabb -> ColliderTree Aabb -> Best)
    (pairs : list (ColliderTree Aabb * ColliderTree Aabb))
    (sched : list nat) (st : ResultSink) :
  MaxCollisionCount <= numResults st ->
  fold_left
    (fun st pair => func MaxCollisionCount SwapResults Aabb scan pair st)
    pairs st = st
  /\ sink (parallel_for_each MaxCollisionCount SwapResults Aabb scan pairs
             sched st) = st.
Proof.
  intros Hfull.
  assert (Hg : guard MaxCollisionCount st = true).
  { unfold guard. apply Z.geb_le. exact Hfull. }
  split.
  - apply fold_left_fixed. intros pair _. unfold func. rewrite Hg. reflexivity.
  - unfold parallel_for_each.
    assert (Hpool : forall (ts : list TaskState),
               Forall (fun t => t <> Running) ts ->
               let pl := fold_left
                           (fun pl k => step MaxCollisionCount SwapResults Aabb
                                          scan pairs k pl)
                           sched (mkPool st ts) in
               sink pl = st).
    { induction sched as [|k sched IH]; intros ts Hts; cbn [fold_left].
      - reflexivity.
      - unfold step at 2. cbn [sink tasks].
        destruct (ts !! k) as [t|] eqn:Hk; [|apply IH; exact Hts].
        destruct (pairs !! k) as [[a b]|];
          [|destruct t; apply IH; exact Hts].
        destruct t.
        + rewrite Hg. apply IH. apply Forall_insert; [exact Hts|discriminate].
        + exfalso. rewrite Forall_lookup in Hts. exact (Hts k Running Hk eq_refl).
        + apply IH. exact Hts. }
    apply Hpool. apply List.Forall_forall. intros t Ht.
    apply repeat_spec in Ht. subst t. discriminate.
Qed.

Lemma full_sink_untouched_witness :
  3 <= numResults Apart.full
  /\ fold_left
       (fun st pair =>
          func 3 false Box.Aabb (fun a b => Tie.refactored a b) pair st)
       [(Tie.treeA, Tie.treeB); (Tie.treeA, Tie.treeB1)] Apart.full
     = Apart.full.
Proof.
  assert (H : 3 <= numResults Apart.full) by (cbn; lia).
  split; [exact H|].
  exact (proj1 (full_sink_untouched 3 false Box.Aabb
                  (fun a b => Tie.refactored a b)
                  [(Tie.treeA, Tie.treeB); (Tie.treeA, Tie.treeB1)] []
                  Apart.full H)).
Defined.

(** ** The sink across a whole run of the dispatcher *)

Section RunFacts.

Variable MaxCollisionCount : Z.
Variable SwapResults : bool.
Variable Aabb : Type.
Variable scan : ColliderTree Aabb -> ColliderTree Aabb -> Best.
Variable pairs : list (ColliderTree Aabb * ColliderTree Aabb).

(** An invariant of the sink that every step of a run keeps is kept by
    the run, sequential or scheduled. *)
Variable good : ResultSink -> Prop.
Hypothesis good_submit :
  forall a b st, In (a, b) pairs -> good st ->
                 good (submit MaxCollisionCount SwapResults (scan a b) st).

Lemma func_good (pair : ColliderTree Aabb * ColliderTree Aabb)
    (st : ResultSink) :
  In pair pairs -> good st ->
  good (func MaxCollisionCount SwapResults Aabb scan pair st).
Proof.
  intros Hin Hst. unfold func. destruct (guard MaxCollisionCount st);
    [exact Hst|].
  destruct pair as [a b]. apply good_submit; assumption.
Qed.

Lemma sequential_good (todo : list (ColliderTree Aabb * ColliderTree Aabb)) :
  (forall pair, In pair todo -> In pair pairs) ->
  forall st, good st ->
    good (fold_left
            (fun st pair => func MaxCollisionCount SwapResults Aabb scan pair st)
            todo st).
Proof.
  induction todo as [|pair todo IH]; intros Hsub st Hst; cbn [fold_left].
  - exact Hst.
  - apply IH.
    + intros p Hp. apply Hsub. right. exact Hp.
    + apply func_good; [apply Hsub; left; reflexivity|exact Hst].
Qed.

Lemma step_good (k : nat) (pl : Pool) :
  good (sink pl) ->
  good (sink (step MaxCollisionCount SwapResults Aabb scan pairs k pl)).
Proof.
  intros Hpl. unfold step.
  destruct (tasks pl !! k) as [t|]; [|exact Hpl].
  destruct (pairs !! k) as [[a b]|] eqn:Hp; [|destruct t; exact Hpl].
  destruct t.
  - destruct (guard MaxCollisionCount (sink pl)); exact Hpl.
  - cbn [sink]. apply good_submit; [|exact Hpl].
    apply list_elem_of_In. eapply list_elem_of_lookup_2. exact Hp.
  - exact Hpl.
Qed.

Lemma parallel_good (sched : list nat) (st : ResultSink) :
  good st ->
  good (sink (parallel_for_each MaxCollisionCount SwapResults Aabb scan pairs
                sched st)).
Proof.
  intros Hst. unfold parallel_for_each.
  assert (H0 : good (sink (mkPool st (repeat Ready (length pairs)))))
    by exact Hst.
  revert H0. generalize (mkPool st (repeat Ready (length pairs))).
  induction sched as [|k sched IH]; intros pl Hpl; cbn [fold_left].
  - exact Hpl.
  - apply IH, step_good, Hpl.
Qed.

Lemma operator_call_good (hardware_concurrency : nat) (sched : list nat)
    (st st' : ResultSink) (n : Z) :
  good st ->
  operator_call MaxCollisionCount SwapResults Aabb scan hardware_concurrency
    pairs sched st = Some (n, st') ->
  good st'.
Proof.
  intros Hst. unfold operator_call.
  destruct (nonempty pairs); [|intros [= _ <-]; exact Hst].
  destruct (hardware_concurrency <=? length pairs)%nat.
  - destruct (forallb is_finished _); [|discriminate].
    intros [= _ <-]. apply parallel_good, Hst.
  - intros [= _ <-]. apply sequential_good; [auto|exact Hst].
Qed.

End RunFacts.

Section ShapeRunFacts.

Variable MaxCollisionCount : Z.
Variable Aabb : Type.
Variable collideWith : Aabb -> Aabb -> bool.
Variable merge : Aabb -> Aabb -> Aabb.
Variable invalidate : Aabb -> Aabb.
Variable Aabb_new : Aabb.
Variable sphereSphere :
  btVector3 -> btVector3 -> float -> float -> CollisionResult ->
  bool * CollisionResult.
Variable Triangle : Type.
Variable mkTri : btVector3 -> btVector3 -> btVector3 -> float -> float -> Triangle.
Variable validTri : Triangle -> bool.
Variable sphereTriangle :
  btVector3 -> float -> Triangle -> CollisionResult -> bool * CollisionResult.

(** On a hit, the contact's back-references are the two colliders the
    checker was called on. *)
Lemma CollisionChecker_roles (T : ShapeType) (ctx : CheckContext)
    (ca cb : Collider) (t r : CollisionResult) :
  CollisionChecker sphereSphere Triangle mkTri validTri sphereTriangle T ctx
    ca cb t = (true, r) ->
  colliderA r = ca /\ colliderB r = cb.
Proof.
  destruct T; cbn [CollisionChecker].
  - unfold checkCollide_vertex. destruct (sphereSphere _ _ _ _ _) as [ret res].
    intros [= _ <-]. split; reflexivity.
  - unfold checkCollide_triangle. destruct (negb _); [discriminate|].
    destruct (sphereTriangle _ _ _ _) as [ret res].
    intros [= _ <-]. split; reflexivity.
Qed.

Variable T : ShapeType.
Variable SwapResults : bool.
Variable ctx : CheckContext.
Variable pairs : list (ColliderTree Aabb * ColliderTree Aabb).

Local Abbreviation checker :=
  (CollisionChecker sphereSphere Triangle mkTri validTri sphereTriangle T ctx).

(** Where a stored contact comes from, and which side each of its
    colliders belongs to. *)
Local Abbreviation placed r :=
  (exists ta tb i j,
      In (ta, tb) pairs
      /\ (i < asize_of ta tb)%nat /\ (j < bsize_of ta tb)%nat
      /\ collideWith (aabb ta i) (aabb tb j) = true
      /\ if SwapResults
         then colliderA r = cbuf tb j /\ colliderB r = cbuf ta i
         else colliderA r = cbuf ta i /\ colliderB r = cbuf tb j).

Lemma submit_placed (a b : ColliderTree Aabb) (st : ResultSink) :
  In (a, b) pairs ->
  (forall k r, results st !! k = Some r -> placed r) ->
  forall k r,
    results
      (submit MaxCollisionCount SwapResults
         (scan_refactored Aabb collideWith merge invalidate Aabb_new checker a b)
         st) !! k = Some r ->
    placed r.
Proof.
  intros Hin Hst k r.
  pose proof (scan_refactored_sound Aabb collideWith merge invalidate Aabb_new
                checker a b) as Hsound.
  destruct (scan_refactored Aabb collideWith merge invalidate Aabb_new
              checker a b) as [[h res] t].
  cbn [fst snd] in Hsound. unfold submit. destruct h; [|apply Hst].
  destruct (Hsound eq_refl) as (i & j & t0 & Hi & Hj & Hbox & Hhit).
  apply CollisionChecker_roles in Hhit as [HA HB].
  rewrite addResult_unfold. cbn [snd results].
  destruct (numResults st <? MaxCollisionCount); [|apply Hst].
  rewrite lookup_insert. case_decide as Hk; [|apply Hst].
  intros [= <-]. exists a, b, i, j.
  split; [exact Hin|]. split; [exact Hi|]. split; [exact Hj|].
  split; [exact Hbox|].
  destruct SwapResults; cbn; split; assumption.
Qed.

Lemma run_placed (hardware_concurrency : nat) (sched : list nat)
    (n : Z) (st : ResultSink) :
  operator_call MaxCollisionCount SwapResults Aabb
    (scan_refactored Aabb collideWith merge invalidate Aabb_new checker)
    hardware_concurrency pairs sched (CollisionCheckBase1 ∅) = Some (n, st) ->
  forall k r, results st !! k = Some r -> placed r.
Proof.
  apply (operator_call_good MaxCollisionCount SwapResults Aabb _ pairs
           (fun st => forall k r, results st !! k = Some r -> placed r)).
  - intros a b st0 Hin Hst0. apply submit_placed; assumption.
  - intros k r. cbn. rewrite lookup_empty. discriminate.
Qed.

End ShapeRunFacts.

(** X4: every contact the checker leaves in a fresh collision array was
    returned by the geometry checker for a collider of the first tree of
    some coarse pair and a collider of the second, both inside the scanned
    ranges, with colliding boxes.  For [checkCollide(vertex shape, other)]
    its [colliderA] is the collider of the first tree and its [colliderB]
    that of the second; for [checkCollide(triangle shape, vertex shape)],
    which runs the algorithm on the exchanged shapes with [SwapResults],
    its [colliderA] is again a collider of the triangle shape's tree and
    its [colliderB] one of the vertex shape's tree.  This holds for
    sequential processing and for every schedule of the pool. *)
Theorem stored_contacts_roles
    (MaxCollisionCount : Z) (Aabb : Type)
    (collideWith : Aabb -> Aabb -> bool) (merge : Aabb -> Aabb -> Aabb)
    (invalidate : Aabb -> Aabb) (Aabb_new : Aabb)
    (sphereSphere :
       btVector3 -> btVector3 -> float -> float -> CollisionResult ->
       bool * CollisionResult)
    (Triangle : Type)
    (mkTri : btVector3 -> btVector3 -> btVector3 -> float -> float -> Triangle)
    (validTri : Triangle -> bool)
    (sphereTriangle :
       btVector3 -> float -> Triangle -> CollisionResult -> bool * CollisionResult)
    (checkCollisionL :
       ColliderTree Aabb -> ColliderTree Aabb ->
       list (ColliderTree Aabb * ColliderTree Aabb))
    (hardware_concurrency : nat)
    (a b : PerShape Aabb) (sched : list nat) :
  (forall T1,
      match
        checkCollide_vertex_first MaxCollisionCount Aabb collideWith merge
          invalidate Aabb_new sphereSphere Triangle mkTri validTri
          sphereTriangle checkCollisionL hardware_concurrency T1 a b ∅ sched
      with
      | None => True
      | Some (_, st) =>
          forall k r,
            results st !! k = Some r ->
            exists ta tb i j,
              In (ta, tb) (checkCollisionL (m_tree a) (m_tree b))
              /\ (i < asize_of ta tb)%nat /\ (j < bsize_of ta tb)%nat
              /\ collideWith (aabb ta i) (aabb tb j) = true
              /\ colliderA r = cbuf ta i /\ colliderB r = cbuf tb j
      end)
  /\ match
       checkCollide_triangle_first MaxCollisionCount Aabb collideWith merge
         invalidate Aabb_new sphereSphere Triangle mkTri validTri
         sphereTriangle checkCollisionL hardware_concurrency a b ∅ sched
     with
     | None => True
     | Some (_, st) =>
         forall k r,
           results st !! k = Some r ->
           exists tb ta i j,
             In (tb, ta) (checkCollisionL (m_tree b) (m_tree a))
             /\ (i < asize_of tb ta)%nat /\ (j < bsize_of tb ta)%nat
             /\ collideWith (aabb tb i) (aabb ta j) = true
             /\ colliderA r = cbuf ta j /\ colliderB r = cbuf tb i
     end.
Proof.
  split.
  - intros T1.
    destruct (checkCollide_vertex_first _ _ _ _ _ _ _ _ _ _ _ _ _ T1 a b ∅ sched)
      as [[n st]|] eqn:Hrun; [|exact I].
    intros k r Hr.
    exact (run_placed MaxCollisionCount Aabb collideWith merge invalidate
             Aabb_new sphereSphere Triangle mkTri validTri sphereTriangle
             T1 false _ _ hardware_concurrency sched n st Hrun k r Hr).
  - destruct (checkCollide_triangle_first _ _ _ _ _ _ _ _ _ _ _ _ _ a b ∅ sched)
      as [[n st]|] eqn:Hrun; [|exact I].
    intros k r Hr.
    exact (run_placed MaxCollisionCount Aabb collideWith merge invalidate
             Aabb_new sphereSphere Triangle mkTri validTri sphereTriangle
             PerTriangleShape true _ _ hardware_concurrency sched n st
             Hrun k r Hr).
Qed.

(** ** Reusing the collision array *)

Lemma wrap32_range (z : Z) : - 2 ^ 31 <= wrap32 z < 2 ^ 31.
Proof.
  unfold wrap32.
  pose proof (Z.mod_pos_bound (z + 2 ^ 31) (2 ^ 32) ltac:(lia)). lia.
Qed.

Lemma wrap32_succ_le (p : Z) :
  - 2 ^ 31 <= p < 2 ^ 31 -> wrap32 (p + 1) <= p + 1.
Proof.
  intros Hp. destruct (Z.eq_dec (p + 1) (2 ^ 31)) as [He|Hne].
  - rewrite He. vm_compute. discriminate.
  - rewrite wrap32_small by lia. lia.
Qed.

Lemma store_fresh (SwapResults : bool) (old old' res : CollisionResult) :
  store SwapResults old res = store SwapResults old' res.
Proof. destruct SwapResults; reflexivity. Qed.

Section ReuseFacts.

Variable MaxCollisionCount : Z.
Variable SwapResults : bool.
Variable Aabb : Type.
Variable scan : ColliderTree Aabb -> ColliderTree Aabb -> Best.
Variable pairs : list (ColliderTree Aabb * ColliderTree Aabb).

(** Two sinks with the same counter whose arrays agree on the slots below
    the counter and the capacity. *)
Local Abbreviation alike st st' :=
  (numResults st = numResults st'
   /\ - 2 ^ 31 <= numResults st < 2 ^ 31
   /\ forall k, 0 <= k < Z.min (numResults st) MaxCollisionCount ->
                results st !! k = results st' !! k).

Lemma addResult_alike (res : CollisionResult) (st st' : ResultSink) :
  alike st st' ->
  alike (snd (addResult MaxCollisionCount SwapResults res st))
        (snd (addResult MaxCollisionCount SwapResults res st')).
Proof.
  intros (Hn & Hr & Hk). rewrite !addResult_unfold. cbn [snd numResults results].
  rewrite <- Hn.
  split; [reflexivity|]. split; [apply wrap32_range|].
  intros k Hkr. pose proof (wrap32_succ_le (numResults st) Hr) as Hw.
  destruct (Z.ltb_spec (numResults st) MaxCollisionCount) as [Hp|Hp].
  - destruct (Z.eq_dec (numResults st) k) as [->|Hd].
    + rewrite !lookup_insert_eq. apply (f_equal Some), store_fresh.
    + rewrite !lookup_insert_ne by exact Hd. apply Hk. lia.
  - apply Hk. lia.
Qed.

Lemma submit_alike (acc : Best) (st st' : ResultSink) :
  alike st st' ->
  alike (submit MaxCollisionCount SwapResults acc st)
        (submit MaxCollisionCount SwapResults acc st').
Proof.
  intros H. unfold submit. destruct acc as [[h r] t]. destruct h; [|exact H].
  apply addResult_alike, H.
Qed.

Lemma guard_alike (st st' : ResultSink) :
  alike st st' -> guard MaxCollisionCount st = guard MaxCollisionCount st'.
Proof. intros (Hn & _). unfold guard. rewrite Hn. reflexivity. Qed.

Lemma sequential_alike (todo : list (ColliderTree Aabb * ColliderTree Aabb)) :
  forall st st',
    alike st st' ->
    alike
      (fold_left
         (fun st pair => func MaxCollisionCount SwapResults Aabb scan pair st)
         todo st)
      (fold_left
         (fun st pair => func MaxCollisionCount SwapResults Aabb scan pair st)
         todo st').
Proof.
  induction todo as [|pair todo IH]; intros st st' H; cbn [fold_left].
  - exact H.
  - apply IH. unfold func. rewrite <- (guard_alike st st' H).
    destruct (guard MaxCollisionCount st); [exact H|].
    apply submit_alike, H.
Qed.

Lemma step_alike (k : nat) (pl pl' : Pool) :
  tasks pl = tasks pl' -> alike (sink pl) (sink pl') ->
  tasks (step MaxCollisionCount SwapResults Aabb scan pairs k pl)
  = tasks (step MaxCollisionCount SwapResults Aabb scan pairs k pl')
  /\ alike (sink (step MaxCollisionCount SwapResults Aabb scan pairs k pl))
           (sink (step MaxCollisionCount SwapResults Aabb scan pairs k pl')).
Proof.
  intros Ht H. unfold step. rewrite <- Ht.
  rewrite <- (guard_alike _ _ H).
  destruct (tasks pl !! k) as [t|]; [|split; assumption].
  destruct (pairs !! k) as [[a b]|]; [|destruct t; split; assumption].
  destruct t; cbn [sink tasks].
  - destruct (guard MaxCollisionCount (sink pl)); cbn [sink tasks];
      (split; [reflexivity|exact H]).
  - split; [reflexivity|]. apply submit_alike, H.
  - split; assumption.
Qed.

Lemma parallel_alike (sched : list nat) :
  forall pl pl' : Pool,
    tasks pl = tasks pl' -> alike (sink pl) (sink pl') ->
    tasks (fold_left
             (fun pl k =>
                step MaxCollisionCount SwapResults Aabb scan pairs k pl)
             sched pl)
    = tasks (fold_left
               (fun pl k =>
                  step MaxCollisionCount SwapResults Aabb scan pairs k pl)
               sched pl')
    /\ alike
         (sink (fold_left
                  (fun pl k =>
                     step MaxCollisionCount SwapResults Aabb scan pairs k pl)
                  sched pl))
         (sink (fold_left
                  (fun pl k =>
                     step MaxCollisionCount SwapResults Aabb scan pairs k pl)
                  sched pl')).
Proof.
  induction sched as [|k sched IH]; intros pl pl' Ht H; cbn [fold_left].
  - split; assumption.
  - destruct (step_alike k pl pl' Ht H) as [Ht1 H1].
    apply IH; assumption.
Qed.

Lemma operator_call_alike (hardware_concurrency : nat) (sched : list nat)
    (r r' : gmap Z CollisionResult) :
  match
    operator_call MaxCollisionCount SwapResults Aabb scan hardware_concurrency
      pairs sched (CollisionCheckBase1 r),
    operator_call MaxCollisionCount SwapResults Aabb scan hardware_concurrency
      pairs sched (CollisionCheckBase1 r')
  with
  | Some (n, st), Some (n', st') =>
      n = n'
      /\ forall k, 0 <= k < Z.min n MaxCollisionCount ->
                   results st !! k = results st' !! k
  | None, None => True
  | _, _ => False
  end.
Proof.
  assert (H0 : alike (CollisionCheckBase1 r) (CollisionCheckBase1 r')).
  { cbn. split; [reflexivity|]. split; [lia|]. intros k Hk. lia. }
  unfold operator_call. destruct (nonempty pairs).
  - destruct (hardware_concurrency <=? length pairs)%nat.
    + unfold parallel_for_each.
      destruct (parallel_alike sched
                  (mkPool (CollisionCheckBase1 r) (repeat Ready (length pairs)))
                  (mkPool (CollisionCheckBase1 r') (repeat Ready (length pairs)))
                  eq_refl H0)
        as [Ht (Hn & _ & Hk)].
      rewrite <- Ht.
      destruct (forallb is_finished _); [|exact I].
      split; [exact Hn|exact Hk].
    + destruct (sequential_alike pairs _ _ H0) as (Hn & _ & Hk).
      split; [exact Hn|exact Hk].
  - split; [reflexivity|]. intros k Hk. lia.
Qed.

End ReuseFacts.

Section MergeExt.

Variables a b : SkinnedMeshShape.

(** [doMerge] depends on the array through the slots below [count]
    only. *)
Lemma merge_from_ext (c c' : gmap Z CollisionResult) (n : nat) :
  forall (i : Z) (buf : gmap (nat * nat) CollisionMerge),
    (forall k, i <= k < i + Z.of_nat n -> c !! k = c' !! k) ->
    MergeBuffer.merge_from a b c n i buf = MergeBuffer.merge_from a b c' n i buf.
Proof.
  induction n as [|n IH]; intros i buf Hk; cbn [MergeBuffer.merge_from].
  - reflexivity.
  - assert (He : c !!! i = c' !!! i).
    { unfold lookup_total, map_lookup_total. rewrite (Hk i) by lia.
      reflexivity. }
    rewrite He.
    destruct (_ >=? _)%f32; [reflexivity|].
    destruct (_ <? _)%f32; [reflexivity|].
    destruct (MergeBuffer.loop _ _ _) as [buf'|]; [|reflexivity].
    rewrite (IH (i + 1) buf'); [reflexivity|].
    intros k Hkr. apply Hk. lia.
Qed.

Lemma doMerge_ext (c c' : gmap Z CollisionResult) (count : Z)
    (buf : gmap (nat * nat) CollisionMerge) :
  (forall k, 0 <= k < count -> c !! k = c' !! k) ->
  MergeBuffer.doMerge a b c count buf = MergeBuffer.doMerge a b c' count buf.
Proof.
  intros Hk. unfold MergeBuffer.doMerge. apply merge_from_ext.
  intros k Hkr. apply Hk. lia.
Qed.

End MergeExt.

(** X5: the merge of a shape pair does not depend on what the collision
    array held before the pair dispatcher ran on it.  Started on two
    arrays, the dispatcher returns the same count (or leaves the same
    tasks unfinished), and [doMerge] over the clamped count reads the
    same contacts and produces the same buffer: the contacts a previous
    pass left in the array are never merged again. *)
Theorem stale_contacts_ignored (MaxCollisionCount : Z) (SwapResults : bool)
    (Aabb : Type) (scan : ColliderTree Aabb -> ColliderTree Aabb -> Best)
    (hardware_concurrency : nat)
    (pairs : list (ColliderTree Aabb * ColliderTree Aabb))
    (sched : list nat) (shape0 shape1 : SkinnedMeshShape)
    (r r' : gmap Z CollisionResult)
    (buf : gmap (nat * nat) CollisionMerge) :
  match
    operator_call MaxCollisionCount SwapResults Aabb scan hardware_concurrency
      pairs sched (CollisionCheckBase1 r),
    operator_call MaxCollisionCount SwapResults Aabb scan hardware_concurrency
      pairs sched (CollisionCheckBase1 r')
  with
  | Some (n, st), Some (n', st') =>
      n = n'
      /\ MergeBuffer.doMerge shape0 shape1 (results st)
           (Z.min n MaxCollisionCount) buf
         = MergeBuffer.doMerge shape0 shape1 (results st')
             (Z.min n MaxCollisionCount) buf
  | None, None => True
  | _, _ => False
  end.
Proof.
  pose proof (operator_call_alike MaxCollisionCount SwapResults Aabb scan pairs
                hardware_concurrency sched r r') as H.
  destruct (operator_call _ _ _ _ _ _ _ (CollisionCheckBase1 r))
    as [[n st]|];
    destruct (operator_call _ _ _ _ _ _ _ (CollisionCheckBase1 r'))
      as [[n' st']|]; try exact H.
  destruct H as [Hn Hk]. split; [exact Hn|].
  apply doMerge_ext, Hk.
Qed.

(** ** Tasks that do not interleave *)

Lemma repeat_snoc {A : Type} (x : A) (i : nat) (l : list A) :
  repeat x i ++ x :: l = repeat x (S i) ++ l.
Proof. induction i as [|i IH]; cbn [repeat app]; [|rewrite IH]; reflexivity. Qed.

Section SerialFacts.

Variable MaxCollisionCount : Z.
Variable SwapResults : bool.
Variable Aabb : Type.
Variable scan : ColliderTree Aabb -> ColliderTree Aabb -> Best.
Variable pairs : list (ColliderTree Aabb * ColliderTree Aabb).

Lemma serial_task (i n : nat) (pair : ColliderTree Aabb * ColliderTree Aabb)
    (st : ResultSink) :
  pairs !! i = Some pair ->
  let pl := mkPool st (repeat Finished i ++ repeat Ready (S n)) in
  step MaxCollisionCount SwapResults Aabb scan pairs i
    (step MaxCollisionCount SwapResults Aabb scan pairs i pl)
  = mkPool (func MaxCollisionCount SwapResults Aabb scan pair st)
           (repeat Finished (S i) ++ repeat Ready n).
Proof.
  intros Hp pl. subst pl.
  assert (Hlen : length (repeat Finished i) = i) by apply repeat_length.
  assert (Hi : forall (t : TaskState) (l : list TaskState),
             (repeat Finished i ++ t :: l) !! i = Some t).
  { intros t l. rewrite lookup_app_r by lia. rewrite Hlen, Nat.sub_diag.
    reflexivity. }
  assert (Hs : forall (t t' : TaskState) (l : list TaskState),
             <[i := t']> (repeat Finished i ++ t :: l)
             = repeat Finished i ++ t' :: l).
  { intros t t' l. rewrite insert_app_r_alt by lia.
    rewrite Hlen, Nat.sub_diag. reflexivity. }
  cbn [repeat]. unfold step at 2. cbn [sink tasks]. rewrite Hi, Hp.
  unfold func. destruct pair as [a b]. cbn [fst snd].
  destruct (guard MaxCollisionCount st).
  - rewrite Hs. unfold step. cbn [sink tasks]. rewrite Hi.
    rewrite repeat_snoc. reflexivity.
  - rewrite Hs. unfold step. cbn [sink tasks]. rewrite Hi, Hp, Hs.
    rewrite repeat_snoc. reflexivity.
Qed.

Lemma serial_from (n : nat) :
  forall (i : nat) (st : ResultSink),
    (i + n)%nat = length pairs ->
    fold_left
      (fun pl k => step MaxCollisionCount SwapResults Aabb scan pairs k pl)
      (flat_map (fun k => [k; k]) (seq i n))
      (mkPool st (repeat Finished i ++ repeat Ready n))
    = mkPool
        (fold_left
           (fun st pair =>
              func MaxCollisionCount SwapResults Aabb scan pair st)
           (drop i pairs) st)
        (repeat Finished (length pairs)).
Proof.
  induction n as [|n IH]; intros i st Hlen.
  - rewrite Nat.add_0_r in Hlen. subst i. rewrite drop_all.
    cbn [seq flat_map fold_left repeat]. rewrite app_nil_r. reflexivity.
  - destruct (lookup_lt_is_Some_2 pairs i ltac:(lia)) as [pair Hp].
    rewrite (drop_S _ _ _ Hp).
    cbn [seq flat_map app fold_left].
    rewrite (serial_task i n pair st Hp).
    apply IH. lia.
Qed.

Lemma forallb_finished (n : nat) :
  forallb is_finished (repeat Finished n) = true.
Proof. induction n as [|n IH]; [reflexivity|exact IH]. Qed.

End SerialFacts.

(** X6: when the tasks of [parallel_for_each] run one after the other,
    the parallel branch of [operator()] gives exactly the result of its
    sequential branch: every task finishes, and the count and the array
    are those of the plain loop over the pairs. *)
Theorem serial_schedule_sequential (MaxCollisionCount : Z)
    (SwapResults : bool) (Aabb : Type)
    (scan : ColliderTree Aabb -> ColliderTree Aabb -> Best)
    (hardware_concurrency : nat)
    (pairs : list (ColliderTree Aabb * ColliderTree Aabb))
    (st : ResultSink) :
  operator_call MaxCollisionCount SwapResults Aabb scan hardware_concurrency
    pairs (serial_schedule (length pairs)) st
  = (if nonempty pairs
     then
       let st' :=
         fold_left
           (fun st pair =>
              func MaxCollisionCount SwapResults Aabb scan pair st)
           pairs st in
       Some (numResults st', st')
     else Some (0, st)).
Proof.
  unfold operator_call. destruct (nonempty pairs); [|reflexivity].
  destruct (hardware_concurrency <=? length pairs)%nat; [|reflexivity].
  unfold parallel_for_each, serial_schedule.
  pose proof (serial_from MaxCollisionCount SwapResults Aabb scan pairs
                (length pairs) 0%nat st eq_refl) as H.
  cbn [repeat app] in H. rewrite drop_0 in H. rewrite H. cbn [sink tasks].
  rewrite forallb_finished. reflexivity.
Qed.

(** ** The cells [doMerge] writes *)

(** A loop whose every step is in a reflexive and transitive relation
    relates its start to its end. *)
Lemma loop_related {A B : Type} (R : B -> B -> Prop)
    (body : B -> A -> option B) :
  (forall acc, R acc acc) ->
  (forall x y z, R x y -> R y z -> R x z) ->
  forall (l : list A) (acc out : B),
    (forall acc x acc', In x l -> body acc x = Some acc' -> R acc acc') ->
    MergeBuffer.loop body l acc = Some out -> R acc out.
Proof.
  intros Hrefl Htrans. induction l as [|x l IH]; intros acc out Hstep;
    cbn [MergeBuffer.loop].
  - intros [= <-]. apply Hrefl.
  - destruct (body acc x) as [acc'|] eqn:Hb; [|discriminate].
    intros Hl. apply (Htrans _ acc').
    + apply (Hstep acc x acc'); [left; reflexivity|exact Hb].
    + apply IH; [|exact Hl]. intros acc0 x0 acc0' Hin.
      apply Hstep. right. exact Hin.
Qed.

Section FrameFacts.

Variables a b : SkinnedMeshShape.

(** Contact [res] contributes to the cell of the bones [x] and [y]:
    they are bones of its two colliders, inside the owners' bone vectors,
    with weights above their thresholds, and not both kinematic. *)
Local Abbreviation written res x y :=
  (exists (ib jb : nat) (bone0 bone1 : SkinnedBone),
      (ib < getBonePerCollider a)%nat
      /\ (jb < getBonePerCollider b)%nat
      /\ x = getColliderBoneIndex a (colliderA res) ib
      /\ y = getColliderBoneIndex b (colliderB res) jb
      /\ m_skinnedBones (m_owner a) !! x = Some bone0
      /\ m_skinnedBones (m_owner b) !! y = Some bone1
      /\ F32.leb (getColliderBoneWeight a (colliderA res) ib)
                 (weightThreshold bone0) = false
      /\ F32.leb (getColliderBoneWeight b (colliderB res) jb)
                 (weightThreshold bone1) = false
      /\ bone_isKinematic bone0 && bone_isKinematic bone1 = false).

(** [out] differs from [buf] at most in the cells selected by [Q]. *)
Local Abbreviation frame Q buf out :=
  (forall x y : nat,
      out !! (x, y) = buf !! (x, y) \/ Q x y).

Lemma frame_refl (Q : nat -> nat -> Prop)
    (buf : gmap (nat * nat) CollisionMerge) : frame Q buf buf.
Proof. intros x y. left. reflexivity. Qed.

Lemma frame_trans (Q : nat -> nat -> Prop)
    (b1 b2 b3 : gmap (nat * nat) CollisionMerge) :
  frame Q b1 b2 -> frame Q b2 b3 -> frame Q b1 b3.
Proof.
  intros H12 H23 x y.
  destruct (H23 x y) as [E23|HQ]; [|right; exact HQ].
  destruct (H12 x y) as [E12|HQ]; [|right; exact HQ].
  left. rewrite E23. exact E12.
Qed.

Lemma merge_bone_frame (res : CollisionResult) (flexible0 : float)
    (buf out : gmap (nat * nat) CollisionMerge) (ib : nat) :
  (ib < getBonePerCollider a)%nat ->
  MergeBuffer.merge_bone a b res flexible0 buf ib = Some out ->
  frame (fun x y => written res x y) buf out.
Proof.
  intros Hib. unfold MergeBuffer.merge_bone.
  destruct (m_skinnedBones (m_owner a) !! _) as [bone0|] eqn:H0; [|discriminate].
  destruct (_ <=? _)%f32 eqn:Hw0.
  { intros [= <-]. apply frame_refl. }
  apply (loop_related (fun b1 b2 => frame (fun x y => written res x y) b1 b2)).
  - intros acc. apply frame_refl.
  - intros b1 b2 b3. apply frame_trans.
  - intros acc jb acc' Hjb. apply in_seq in Hjb.
    unfold MergeBuffer.merge_bone_pair.
    destruct (m_skinnedBones (m_owner b) !! _) as [bone1|] eqn:H1;
      [|discriminate].
    destruct (getColliderBoneWeight b (colliderB res) jb
              <=? weightThreshold bone1)%f32 eqn:Hw1.
    { intros [= <-]. apply frame_refl. }
    destruct (bone_isKinematic bone0 && bone_isKinematic bone1) eqn:Hk.
    { intros [= <-]. apply frame_refl. }
    intros [= <-] x y.
    destruct (decide ((getColliderBoneIndex a (colliderA res) ib,
                       getColliderBoneIndex b (colliderB res) jb) = (x, y)))
      as [[= <- <-]|Hne].
    + right. exists ib, jb, bone0, bone1.
      split; [exact Hib|]. split; [lia|].
      split; [reflexivity|]. split; [reflexivity|].
      split; [exact H0|]. split; [exact H1|].
      split; [exact Hw0|]. split; [exact Hw1|exact Hk].
    + left. apply lookup_insert_ne. exact Hne.
Qed.

Lemma merge_from_frame (collision : gmap Z CollisionResult) (n : nat) :
  forall (i : Z) (buf out : gmap (nat * nat) CollisionMerge),
    snd (MergeBuffer.merge_from a b collision n i buf) = Some out ->
    frame (fun x y =>
             exists k, i <= k < i + Z.of_nat n
                       /\ (depth (collision !!! k) >=? - FLT_EPSILON)%f32 = false
                       /\ written (collision !!! k) x y)
          buf out.
Proof.
  induction n as [|n IH]; intros i buf out; cbn [MergeBuffer.merge_from].
  - intros [= <-]. apply frame_refl.
  - destruct (_ >=? _)%f32 eqn:Hd.
    { intros [= <-]. apply frame_refl. }
    destruct (_ <? _)%f32.
    { intros [= <-]. apply frame_refl. }
    destruct (MergeBuffer.loop _ _ _) as [buf'|] eqn:Hl; [|discriminate].
    specialize (IH (i + 1) buf' out).
    destruct (MergeBuffer.merge_from a b collision n (i + 1) buf')
      as [rd out'].
    cbn [snd] in *. intros Hout. specialize (IH Hout).
    assert (H1 : frame (fun x y => written (collision !!! i) x y) buf buf').
    { revert Hl.
      apply (loop_related
               (fun b1 b2 =>
                  frame (fun x y => written (collision !!! i) x y) b1 b2)).
      - intros acc. apply frame_refl.
      - intros b1 b2 b3. apply frame_trans.
      - intros acc ib acc' Hib. apply in_seq in Hib.
        apply merge_bone_frame. lia. }
    intros x y.
    destruct (IH x y) as [E2|(k & Hk & Hdk & Hw)].
    2:{ right. exists k. split; [lia|]. split; [exact Hdk|exact Hw]. }
    destruct (H1 x y) as [E1|Hw].
    2:{ right. exists i. split; [lia|]. split; [exact Hd|exact Hw]. }
    left. rewrite E2. exact E1.
Qed.

End FrameFacts.

(** X7: whatever the contacts, [doMerge] leaves every cell of the merge
    buffer as it was except the cells of bone pairs that a contact below
    [count] contributes to, a contact whose depth failed the loop's test
    [depth >= -FLT_EPSILON] (it is deeper than the tolerance, or not a
    number); such a pair lies inside the two bone vectors (so inside the
    allocated table), the tests [weight <= threshold] failed for both of
    its bones and its bones are not both kinematic. *)
Theorem doMerge_frame (a b : SkinnedMeshShape)
    (collision : gmap Z CollisionResult) (count : Z)
    (buf : gmap (nat * nat) CollisionMerge) :
  match snd (MergeBuffer.doMerge a b collision count buf) with
  | None => True
  | Some out =>
      forall x y : nat,
        out !! (x, y) = buf !! (x, y)
        \/ exists (k : Z) (ib jb : nat) (bone0 bone1 : SkinnedBone),
             0 <= k < count
             /\ (depth (collision !!! k) >=? - FLT_EPSILON)%f32 = false
             /\ (ib < getBonePerCollider a)%nat
             /\ (jb < getBonePerCollider b)%nat
             /\ x = getColliderBoneIndex a (colliderA (collision !!! k)) ib
             /\ y = getColliderBoneIndex b (colliderB (collision !!! k)) jb
             /\ m_skinnedBones (m_owner a) !! x = Some bone0
             /\ m_skinnedBones (m_owner b) !! y = Some bone1
             /\ (x < length (m_skinnedBones (m_owner a)))%nat
             /\ (y < length (m_skinnedBones (m_owner b)))%nat
             /\ (getColliderBoneWeight a (colliderA (collision !!! k)) ib
                 <=? weightThreshold bone0)%f32 = false
             /\ (getColliderBoneWeight b (colliderB (collision !!! k)) jb
                 <=? weightThreshold bone1)%f32 = false
             /\ bone_isKinematic bone0 && bone_isKinematic bone1 = false
  end.
Proof.
  unfold MergeBuffer.doMerge.
  pose proof (merge_from_frame a b collision (Z.to_nat count) 0 buf) as H.
  destruct (snd (MergeBuffer.merge_from a b collision (Z.to_nat count) 0 buf))
    as [out|]; [|exact I].
  intros x y.
  destruct (H out eq_refl x y)
    as [E|(k & Hk & Hd & ib & jb & bone0 & bone1 & Hib & Hjb & Hx & Hy
           & H0 & H1 & Hw0 & Hw1 & Hkin)];
    [left; exact E|right].
  exists k, ib, jb, bone0, bone1.
  split; [lia|]. split; [exact Hd|]. split; [exact Hib|]. split; [exact Hjb|].
  split; [exact Hx|]. split; [exact Hy|]. split; [exact H0|].
  split; [exact H1|].
  split; [apply lookup_lt_Some in H0; exact H0|].
  split; [apply lookup_lt_Some in H1; exact H1|].
  split; [exact Hw0|]. split; [exact Hw1|exact Hkin].
Qed.

(** ** From the merge to the dispatcher *)

Lemma untouched_cell_weight (buf : gmap (nat * nat) CollisionMerge)
    (i j : nat) :
  buf !! (i, j) = None ->
  (weight (MergeBuffer.get buf i j) <? FLT_EPSILON)%f32 = true.
Proof.
  intros H. unfold MergeBuffer.get. rewrite lookup_total_alt, H.
  vm_compute. reflexivity.
Qed.

Lemma apply_untouched (body0 body1 : SkinnedMeshBody)
    (rigid : nat -> RigidBody) (buf : gmap (nat * nat) CollisionMerge) :
  (forall i j,
      (weight (MergeBuffer.get buf i j) <? FLT_EPSILON)%f32 = true) ->
  MergeBuffer.apply body0 body1 rigid buf = [].
Proof.
  intros Hw.
  destruct (MergeBuffer.apply body0 body1 rigid buf) as [|e es] eqn:Ha;
    [reflexivity|].
  assert (He : In e (MergeBuffer.apply body0 body1 rigid buf)).
  { rewrite Ha. left. reflexivity. }
  destruct (apply_gates _ _ _ _ _ He)
    as (bone0 & bone1 & _ & _ & _ & _ & _ & Hf & _).
  rewrite Hw in Hf. discriminate.
Qed.

(** X8: after merging into a fresh buffer, every request [apply] sends
    to the dispatcher is for a bone pair that some contact below [count]
    is skinned to, a contact whose depth failed the loop's test
    [depth >= -FLT_EPSILON] (it is deeper than the tolerance, or not a
    number): bone [i] is one of the bones of its collider on A and bone
    [j] one of the bones of its collider on B.  A bone pair no contact
    reached gets neither a manifold nor a point. *)
Theorem events_have_contacts (a b : SkinnedMeshShape)
    (collision : gmap Z CollisionResult) (count : Z)
    (body0 body1 : SkinnedMeshBody) (rigid : nat -> RigidBody) :
  match snd (MergeBuffer.doMerge a b collision count MergeBuffer.alloc) with
  | None => True
  | Some out =>
      Forall
        (fun e =>
           exists (k : Z) (ib jb : nat),
             0 <= k < count
             /\ (depth (collision !!! k) >=? - FLT_EPSILON)%f32 = false
             /\ (ib < getBonePerCollider a)%nat
             /\ (jb < getBonePerCollider b)%nat
             /\ fst (event_bones e)
                = getColliderBoneIndex a (colliderA (collision !!! k)) ib
             /\ snd (event_bones e)
                = getColliderBoneIndex b (colliderB (collision !!! k)) jb)
        (MergeBuffer.apply body0 body1 rigid out)
  end.
Proof.
  unfold MergeBuffer.doMerge.
  pose proof (merge_from_frame a b collision (Z.to_nat count) 0
                MergeBuffer.alloc) as H.
  destruct (snd (MergeBuffer.merge_from a b collision (Z.to_nat count) 0
                   MergeBuffer.alloc)) as [out|]; [|exact I].
  apply List.Forall_forall. intros e He.
  destruct (apply_gates _ _ _ _ _ He)
    as (bone0 & bone1 & _ & _ & _ & _ & _ & Hf & _).
  destruct (H out eq_refl (fst (event_bones e)) (snd (event_bones e)))
    as [E|(k & Hk & Hd & ib & jb & b0 & b1 & Hib & Hjb & Hx & Hy & _)].
  - unfold MergeBuffer.alloc in E. rewrite lookup_empty in E.
    rewrite (untouched_cell_weight _ _ _ E) in Hf. discriminate.
  - exists k, ib, jb.
    split; [lia|]. split; [exact Hd|]. split; [exact Hib|].
    split; [exact Hjb|]. split; [exact Hx|exact Hy].
Qed.

(** X9: when the checker reports no contact for any shape pair,
    [processCollision] reads nothing from the collision array and sends
    nothing to the dispatcher, whatever the bodies and their shapes. *)
Theorem processCollision_no_contact (MaxCollisionCount : Z)
    (checkCollide :
       SkinnedMeshShape -> SkinnedMeshShape -> gmap Z CollisionResult ->
       Z * gmap Z CollisionResult)
    (body0 body1 : SkinnedMeshBody) (shape0 shape1 : ShapeViews)
    (rigid : nat -> RigidBody) :
  (forall s0 s1 c, fst (checkCollide s0 s1 c) <= 0) ->
  processCollision MaxCollisionCount checkCollide body0 body1 shape0 shape1
    rigid = ([], Some []).
Proof.
  intros Hc.
  assert (Hs : forall s0 s1 c,
             processCollision_shapes MaxCollisionCount checkCollide s0 s1
               (mkStage [] c (Some MergeBuffer.alloc))
             = mkStage [] (snd (checkCollide s0 s1 c))
                 (Some MergeBuffer.alloc)).
  { intros s0 s1 c. unfold processCollision_shapes. cbn [merge collision reads].
    specialize (Hc s0 s1 c).
    destruct (checkCollide s0 s1 c) as [r coll]. cbn [fst snd] in *.
    destruct (Z.ltb_spec 0 (Z.min r MaxCollisionCount)) as [Hlt|_];
      [lia|reflexivity]. }
  assert (Ha : MergeBuffer.apply body0 body1 rigid MergeBuffer.alloc = []).
  { apply apply_untouched. intros i j. apply untouched_cell_weight.
    apply lookup_empty. }
  unfold processCollision.
  destruct (asPerTriangleShape shape0) as [t0|],
           (asPerTriangleShape shape1) as [t1|];
    rewrite ?Hs; cbn [reads merge fmap option_fmap option_map];
    rewrite Ha; reflexivity.
Qed.

Lemma processCollision_no_contact_witness :
  processCollision 256 (fun _ _ c => (0, c)) Demo.bodyA Demo.bodyB
    (mkViews Demo.shapeA (Some Demo.shapeA)) (mkViews Demo.shapeB None)
    Demo.rigid = ([], Some []).
Proof.
  apply (processCollision_no_contact 256 (fun _ _ c => (0, c))).
  intros s0 s1 c. cbn [fst]. lia.
Defined.

(** ** The shape of what [apply] sends *)

Lemma indexed_keys {A : Type} (v : list A) :
  map fst (MergeBuffer.indexed v) = seq 0 (length v).
Proof.
  unfold MergeBuffer.indexed. generalize 0%nat.
  induction v as [|x v IH]; intros k; cbn [length seq combine map fst].
  - reflexivity.
  - rewrite IH. reflexivity.
Qed.

(** Lists of events produced for items with distinct keys, each event
    tagged with the key of its item, have distinct labels as soon as
    each item's own events have. *)
Lemma NoDup_tagged {A E K : Type} (h : E -> K) (g : A -> nat)
    (tag : K -> nat) (keep : E -> bool) (f : A -> list E) (l : list A) :
  List.NoDup (map g l) ->
  (forall x e, In x l -> In e (f x) -> tag (h e) = g x) ->
  (forall x, In x l -> List.NoDup (map h (List.filter keep (f x)))) ->
  List.NoDup (map h (List.filter keep (flat_map f l))).
Proof.
  induction l as [|x l IH]; intros Hl Htag Hone; cbn [flat_map].
  - constructor.
  - cbn [map] in Hl. apply List.NoDup_cons_iff in Hl as [Hx Hl].
    rewrite List.filter_app, List.map_app.
    apply List.NoDup_app.
    + apply Hone. left. reflexivity.
    + apply IH; [exact Hl| |].
      * intros x' e Hx' He. apply Htag; [right; exact Hx'|exact He].
      * intros x' Hx'. apply Hone. right. exact Hx'.
    + intros k Hk1 Hk2.
      apply List.in_map_iff in Hk1 as (e1 & <- & He1).
      apply List.in_map_iff in Hk2 as (e2 & Heq & He2).
      apply List.filter_In in He1 as [He1 _].
      apply List.filter_In in He2 as [He2 _].
      apply List.in_flat_map in He2 as (x' & Hx' & He2).
      apply Hx. apply List.in_map_iff. exists x'. split; [|exact Hx'].
      rewrite <- (Htag x' e2 (or_intror Hx') He2).
      rewrite <- (Htag x e1 (or_introl eq_refl) He1).
      rewrite Heq. reflexivity.
Qed.

Lemma NoDup_short {E K : Type} (h : E -> K) (l : list E) :
  (length l <= 1)%nat -> List.NoDup (map h l).
Proof.
  destruct l as [|e [|e' l]]; cbn [length map]; intros Hl.
  - constructor.
  - constructor; [intros []|constructor].
  - lia.
Qed.

Section ApplyShape.

Variables body0 body1 : SkinnedMeshBody.
Variable rigid : nat -> RigidBody.
Variable buf : gmap (nat * nat) CollisionMerge.

(** What one bone pair sends: nothing, a manifold request, or a manifold
    request followed by one point. *)
Lemma emit_shape (i j : nat) (bone0 bone1 : SkinnedBone) :
  let es := MergeBuffer.emit rigid buf i j bone0 bone1 in
  es = []
  \/ es = [GetNewManifold i j (ptr bone0) (ptr bone1)]
  \/ exists pt,
       es = [GetNewManifold i j (ptr bone0) (ptr bone1);
             AddManifoldPoint i j (ptr bone0) (ptr bone1) pt].
Proof.
  unfold MergeBuffer.emit.
  destruct (_ <? _)%f32; [left; reflexivity|].
  destruct (_ && _); [left; reflexivity|].
  destruct (Nat.eqb _ _); [left; reflexivity|].
  destruct (Vec.fuzzyZero _); [right; left; reflexivity|].
  destruct (_ >=? _)%f32; [right; left; reflexivity|].
  right. right. eexists. reflexivity.
Qed.

Lemma emit_bones (i j : nat) (bone0 bone1 : SkinnedBone) (e : Event) :
  In e (MergeBuffer.emit rigid buf i j bone0 bone1) -> event_bones e = (i, j).
Proof.
  destruct (emit_shape i j bone0 bone1) as [H|[H|[pt H]]];
    cbv zeta in H; rewrite H.
  - intros [].
  - intros [<-|[]]. reflexivity.
  - intros [<-|[<-|[]]]; reflexivity.
Qed.

Lemma emit_one (keep : bool) (i j : nat) (bone0 bone1 : SkinnedBone) :
  (length (List.filter (fun e => Bool.eqb (is_point e) keep)
             (MergeBuffer.emit rigid buf i j bone0 bone1)) <= 1)%nat.
Proof.
  destruct (emit_shape i j bone0 bone1) as [H|[H|[pt H]]];
    cbv zeta in H; rewrite H; destruct keep; cbn; lia.
Qed.

Lemma apply_one (keep : bool) :
  List.NoDup
    (map event_bones
       (List.filter (fun e => Bool.eqb (is_point e) keep)
          (MergeBuffer.apply body0 body1 rigid buf))).
Proof.
  unfold MergeBuffer.apply.
  apply (NoDup_tagged event_bones fst fst).
  - rewrite indexed_keys. apply List.seq_NoDup.
  - intros [i bone0] e _ He. cbn [fst].
    destruct (negb _); [destruct He|].
    apply List.in_flat_map in He as ([j bone1] & _ & He).
    destruct (negb _); [destruct He|].
    apply emit_bones in He. rewrite He. reflexivity.
  - intros [i bone0] _.
    destruct (negb _); [constructor|].
    apply (NoDup_tagged event_bones fst snd).
    + rewrite indexed_keys. apply List.seq_NoDup.
    + intros [j bone1] e _ He. cbn [fst].
      destruct (negb _); [destruct He|].
      apply emit_bones in He. rewrite He. reflexivity.
    + intros [j bone1] _.
      destruct (negb _); [constructor|].
      apply NoDup_short, emit_one.
Qed.

End ApplyShape.

(** X10: in one [apply], no bone pair gets more than one contact point
    and no bone pair is asked a manifold for more than once, whatever the
    merge buffer holds. *)
Theorem apply_one_point_per_pair (body0 body1 : SkinnedMeshBody)
    (rigid : nat -> RigidBody) (buf : gmap (nat * nat) CollisionMerge) :
  let sent := MergeBuffer.apply body0 body1 rigid buf in
  List.NoDup (map event_bones (List.filter is_point sent))
  /\ List.NoDup
       (map event_bones (List.filter (fun e => negb (is_point e)) sent)).
Proof.
  cbv zeta. split.
  - rewrite (List.filter_ext is_point (fun e => Bool.eqb (is_point e) true)).
    + apply apply_one.
    + intros e. destruct (is_point e); reflexivity.
  - rewrite (List.filter_ext (fun e => negb (is_point e))
               (fun e => Bool.eqb (is_point e) false)).
    + apply apply_one.
    + intros e. destruct (is_point e); reflexivity.
Qed.

Section PointFacts.

Variables body0 body1 : SkinnedMeshBody.
Variable rigid : nat -> RigidBody.
Variable buf : gmap (nat * nat) CollisionMerge.

(** Every point of [l] comes right after the manifold request of its
    bone pair and carries the averages of that pair's cell; its distance
    failed the test [>= -FLT_EPSILON], so it is below [-FLT_EPSILON]
    unless it is not a number. *)
Local Abbreviation pointed l :=
  (forall (before after : list Event) (i j rb0 rb1 : nat)
          (pt : btManifoldPoint),
      l = before ++ AddManifoldPoint i j rb0 rb1 pt :: after ->
      (exists before', before = before' ++ [GetNewManifold i j rb0 rb1])
      /\ F32.ltb (weight (MergeBuffer.get buf i j)) FLT_EPSILON = false
      /\ Vec.fuzzyZero
           (Vec.scale (normal (MergeBuffer.get buf i j))
              (F32.div F32.one (weight (MergeBuffer.get buf i j)))) = false
      /\ F32.geb (m_distance1 pt) (F32.opp FLT_EPSILON) = false
      /\ (F32.is_nan (m_distance1 pt) = false ->
          F32.ltb (m_distance1 pt) (F32.opp FLT_EPSILON) = true)
      /\ m_distance1 pt
         = F32.opp
             (Vec.length
                (Vec.scale (normal (MergeBuffer.get buf i j))
                   (F32.div F32.one (weight (MergeBuffer.get buf i j)))))
      /\ m_normalWorldOnB pt
         = Vec.neg
             (Vec.normalized
                (Vec.scale (normal (MergeBuffer.get buf i j))
                   (F32.div F32.one (weight (MergeBuffer.get buf i j)))))
      /\ m_positionWorldOnA pt
         = Vec.scale (pos0 (MergeBuffer.get buf i j))
             (F32.div F32.one (weight (MergeBuffer.get buf i j)))
      /\ m_positionWorldOnB pt
         = Vec.scale (pos1 (MergeBuffer.get buf i j))
             (F32.div F32.one (weight (MergeBuffer.get buf i j)))).

Lemma pointed_nil : pointed (@nil Event).
Proof.
  intros before after i j rb0 rb1 pt H.
  destruct before; discriminate H.
Qed.

Lemma pointed_app (l1 l2 : list Event) :
  pointed l1 -> pointed l2 -> pointed (l1 ++ l2).
Proof.
  intros H1 H2 before after i j rb0 rb1 pt H.
  apply List.app_eq_app in H as [l [[Hl1 Hl2]|[Hb Hl2]]].
  - destruct l as [|e l].
    + cbn [app] in Hl2. symmetry in Hl2.
      destruct (H2 [] after i j rb0 rb1 pt Hl2) as [[before' Hb] _].
      destruct before'; discriminate Hb.
    + cbn [app] in Hl2. injection Hl2 as <- ->.
      exact (H1 before l i j rb0 rb1 pt Hl1).
  - destruct (H2 l after i j rb0 rb1 pt Hl2) as [[before' Hb'] Hfacts].
    split; [|exact Hfacts].
    exists (l1 ++ before'). rewrite Hb, Hb'. apply List.app_assoc.
Qed.

Lemma pointed_flat_map {A : Type} (f : A -> list Event) (l : list A) :
  (forall x, pointed (f x)) -> pointed (flat_map f l).
Proof.
  intros Hf. induction l as [|x l IH]; cbn [flat_map].
  - exact pointed_nil.
  - apply pointed_app; [apply Hf|exact IH].
Qed.

Lemma pointed_emit (i j : nat) (bone0 bone1 : SkinnedBone) :
  pointed (MergeBuffer.emit rigid buf i j bone0 bone1).
Proof.
  unfold MergeBuffer.emit.
  destruct (_ <? _)%f32 eqn:Hw; [exact pointed_nil|].
  destruct (_ && _); [exact pointed_nil|].
  destruct (Nat.eqb _ _); [exact pointed_nil|].
  destruct (Vec.fuzzyZero _) eqn:Hz.
  { intros [|e [|e' before]] after i' j' rb0 rb1 pt H; discriminate H. }
  destruct (_ >=? _)%f32 eqn:Hd.
  { intros [|e [|e' before]] after i' j' rb0 rb1 pt H; discriminate H. }
  intros [|e [|e' before]] after i' j' rb0 rb1 pt H; try discriminate H.
  - injection H as <- <- <- <- <- <- <-.
    split; [exists []; reflexivity|].
    split; [exact Hw|]. split; [exact Hz|]. split; [exact Hd|].
    split; [|repeat split].
    intros Hn. apply not_geb_ltb; [exact Hn|reflexivity|exact Hd].
  - injection H as _ _ H. destruct before; discriminate H.
Qed.

Lemma pointed_apply : pointed (MergeBuffer.apply body0 body1 rigid buf).
Proof.
  unfold MergeBuffer.apply.
  apply pointed_flat_map. intros [i bone0].
  destruct (negb _); [exact pointed_nil|].
  apply pointed_flat_map. intros [j bone1].
  destruct (negb _); [exact pointed_nil|].
  apply pointed_emit.
Qed.

End PointFacts.

(** X11: every contact point [apply] hands to the dispatcher comes right
    after the manifold request of its bone pair and belongs to a cell
    whose weight is not below the tolerance and whose averaged normal is
    not (fuzzily) zero.  Its distance failed the test
    [distance >= -FLT_EPSILON]: it is below [-FLT_EPSILON], unless it is
    not a number, which fails the test as well.  The point carries the
    cell's averages: the distance is minus the length of the averaged
    normal, the normal its negated direction, the world positions the
    averaged positions. *)
Theorem apply_points_penetrate (body0 body1 : SkinnedMeshBody)
    (rigid : nat -> RigidBody) (buf : gmap (nat * nat) CollisionMerge)
    (before after : list Event) (i j rb0 rb1 : nat) (pt : btManifoldPoint) :
  MergeBuffer.apply body0 body1 rigid buf
  = before ++ AddManifoldPoint i j rb0 rb1 pt :: after ->
  let c := MergeBuffer.get buf i j in
  let invWeight := (F32.one / weight c)%f32 in
  let normal0 := Vec.scale (normal c) invWeight in
  (exists before', before = before' ++ [GetNewManifold i j rb0 rb1])
  /\ (weight c <? FLT_EPSILON)%f32 = false
  /\ Vec.fuzzyZero normal0 = false
  /\ (m_distance1 pt >=? - FLT_EPSILON)%f32 = false
  /\ (F32.is_nan (m_distance1 pt) = false ->
      (m_distance1 pt <? - FLT_EPSILON)%f32 = true)
  /\ m_distance1 pt = (- Vec.length normal0)%f32
  /\ m_normalWorldOnB pt = Vec.neg (Vec.normalized normal0)
  /\ m_positionWorldOnA pt = Vec.scale (pos0 c) invWeight
  /\ m_positionWorldOnB pt = Vec.scale (pos1 c) invWeight.
Proof.
  intros H. exact (pointed_apply body0 body1 rigid buf _ _ _ _ _ _ _ H).
Qed.

Lemma apply_points_penetrate_witness :
  exists pt : btManifoldPoint,
    MergeBuffer.apply Demo.bodyA Demo.bodyB Demo.rigid OneCell.table
    = [GetNewManifold 0 0 10 20] ++ AddManifoldPoint 0 0 10 20 pt :: []
    /\ (m_distance1 pt >=? - FLT_EPSILON)%f32 = false
    /\ m_distance1 pt = F32.of_Z (-1).
Proof.
  eexists.
  assert (H : MergeBuffer.apply Demo.bodyA Demo.bodyB Demo.rigid OneCell.table
              = [GetNewManifold 0 0 10 20]
                ++ AddManifoldPoint 0 0 10 20 _ :: [])
    by (vm_compute; reflexivity).
  split; [exact H|]. split.
  - exact (proj1 (proj2 (proj2 (proj2
             (apply_points_penetrate Demo.bodyA Demo.bodyB Demo.rigid
                OneCell.table _ _ _ _ _ _ _ H))))).
  - vm_compute. reflexivity.
Defined.

(** The tests of [apply] are false on a value that is not a number: a
    cell whose accumulated normal holds one gets a point whose distance is
    not a number. *)
Example apply_nan_cell :
  map (fun e =>
         match e with
         | AddManifoldPoint _ _ _ _ pt => Some (m_distance1 pt)
         | GetNewManifold _ _ _ _ => None
         end)
      (MergeBuffer.apply Demo.bodyA Demo.bodyB Demo.rigid
         (<[(0%nat, 0%nat) :=
              mkMerge (mkVec S754_nan F32.zero F32.zero) Vec.zero Vec.zero
                      F32.one]> ∅))
  = [None; Some S754_nan].
Proof. vm_compute. reflexivity. Qed.

(** ** One array for both stages *)

Section ReuseStages.

Variable MaxCollisionCount : Z.
Variable checkCollide :
  SkinnedMeshShape -> SkinnedMeshShape -> gmap Z CollisionResult ->
  Z * gmap Z CollisionResult.

(** The count and the slots below the clamped count do not depend on
    what the array held. *)
Hypothesis checkCollide_fresh :
  forall s0 s1 c c',
    fst (checkCollide s0 s1 c) = fst (checkCollide s0 s1 c')
    /\ forall k, 0 <= k < Z.min (fst (checkCollide s0 s1 c)) MaxCollisionCount ->
                 snd (checkCollide s0 s1 c) !! k
                 = snd (checkCollide s0 s1 c') !! k.

Lemma processCollision_shapes_fresh (shape0 shape1 : SkinnedMeshShape)
    (s s' : Stage) :
  reads s = reads s' -> merge s = merge s' ->
  let out := processCollision_shapes MaxCollisionCount checkCollide
               shape0 shape1 s in
  let out' := processCollision_shapes MaxCollisionCount
                (fun s0 s1 _ => checkCollide s0 s1 ∅) shape0 shape1 s' in
  reads out = reads out' /\ merge out = merge out'.
Proof.
  intros Hr Hm. cbv zeta. unfold processCollision_shapes. rewrite <- Hm.
  destruct (merge s) as [buf|] eqn:E; [|split; [exact Hr|congruence]].
  destruct (checkCollide_fresh shape0 shape1 (collision s) ∅) as [Hn Hk].
  destruct (checkCollide shape0 shape1 (collision s)) as [n coll].
  destruct (checkCollide shape0 shape1 ∅) as [n' coll'].
  cbn [fst snd] in Hn, Hk. subst n'.
  destruct (0 <? Z.min n MaxCollisionCount).
  - rewrite (doMerge_ext shape0 shape1 coll coll' _ buf Hk).
    destruct (MergeBuffer.doMerge shape0 shape1 coll' _ buf) as [rd out].
    cbn [reads merge]. rewrite Hr. split; reflexivity.
  - cbn [reads merge]. split; [exact Hr|reflexivity].
Qed.

End ReuseStages.

(** X12: [processCollision] hands one collision array to both of its
    stages.  For a checker whose count and whose slots below the clamped
    count do not depend on what the array held -- as is the case for the
    pair dispatcher -- this reuse cannot be observed: the indices read and
    the requests sent are those obtained when every stage starts on an
    empty array. *)
Theorem processCollision_array_reuse (MaxCollisionCount : Z)
    (checkCollide :
       SkinnedMeshShape -> SkinnedMeshShape -> gmap Z CollisionResult ->
       Z * gmap Z CollisionResult)
    (body0 body1 : SkinnedMeshBody) (shape0 shape1 : ShapeViews)
    (rigid : nat -> RigidBody) :
  (forall s0 s1 c c',
      fst (checkCollide s0 s1 c) = fst (checkCollide s0 s1 c')
      /\ forall k,
           0 <= k < Z.min (fst (checkCollide s0 s1 c)) MaxCollisionCount ->
           snd (checkCollide s0 s1 c) !! k = snd (checkCollide s0 s1 c') !! k) ->
  processCollision MaxCollisionCount checkCollide body0 body1 shape0 shape1
    rigid
  = processCollision MaxCollisionCount (fun s0 s1 _ => checkCollide s0 s1 ∅)
      body0 body1 shape0 shape1 rigid.
Proof.
  intros Hfresh.
  pose proof (processCollision_shapes_fresh MaxCollisionCount checkCollide
                Hfresh) as Hstage.
  cbv zeta in Hstage.
  unfold processCollision.
  destruct (asPerTriangleShape shape0) as [t0|],
           (asPerTriangleShape shape1) as [t1|].
  - destruct (Hstage t0 (asPerVertexShape shape1)
                (mkStage [] ∅ (Some MergeBuffer.alloc))
                (mkStage [] ∅ (Some MergeBuffer.alloc)) eq_refl eq_refl)
      as [Hr1 Hm1].
    destruct (Hstage (asPerVertexShape shape0) t1 _ _ Hr1 Hm1) as [Hr2 Hm2].
    rewrite Hr2, Hm2. reflexivity.
  - destruct (Hstage t0 (asPerVertexShape shape1)
                (mkStage [] ∅ (Some MergeBuffer.alloc))
                (mkStage [] ∅ (Some MergeBuffer.alloc)) eq_refl eq_refl)
      as [Hr1 Hm1].
    rewrite Hr1, Hm1. reflexivity.
  - destruct (Hstage (asPerVertexShape shape0) t1
                (mkStage [] ∅ (Some MergeBuffer.alloc))
                (mkStage [] ∅ (Some MergeBuffer.alloc)) eq_refl eq_refl)
      as [Hr1 Hm1].
    rewrite Hr1, Hm1. reflexivity.
  - destruct (Hstage (asPerVertexShape shape0) (asPerVertexShape shape1)
                (mkStage [] ∅ (Some MergeBuffer.alloc))
                (mkStage [] ∅ (Some MergeBuffer.alloc)) eq_refl eq_refl)
      as [Hr1 Hm1].
    rewrite Hr1, Hm1. reflexivity.
Qed.

Lemma processCollision_array_reuse_witness :
  processCollision 256 (fun _ _ c => (1, <[0 := sample_contact]> c))
    Demo.bodyA Demo.bodyB
    (mkViews Demo.shapeA (Some Demo.shapeA))
    (mkViews Demo.shapeB (Some Demo.shapeB)) Demo.rigid
  = processCollision 256 (fun _ _ _ => (1, <[0 := sample_contact]> ∅))
      Demo.bodyA Demo.bodyB
      (mkViews Demo.shapeA (Some Demo.shapeA))
      (mkViews Demo.shapeB (Some Demo.shapeB)) Demo.rigid.
Proof.
  apply (processCollision_array_reuse 256
           (fun _ _ c => (1, <[0 := sample_contact]> c))).
  intros s0 s1 c c'. cbn [fst snd]. split; [reflexivity|].
  intros k Hk. assert (k = 0) as -> by lia.
  rewrite !lookup_insert_eq. reflexivity.
Defined.

(** ** The sequential loop stores the hits in order *)

Section SequentialFacts.

Variable MaxCollisionCount : Z.
Variable SwapResults : bool.
Variable Aabb : Type.
Variable scan : ColliderTree Aabb -> ColliderTree Aabb -> Best.

Lemma sequential_spec (pairs : list (ColliderTree Aabb * ColliderTree Aabb)) :
  forall st : ResultSink,
    0 <= numResults st <= MaxCollisionCount ->
    numResults st + Z.of_nat (length pairs) < 2 ^ 31 ->
    let found := found_contacts scan pairs in
    let n := numResults st in
    let st' :=
      fold_left
        (fun st pair => func MaxCollisionCount SwapResults Aabb scan pair st)
        pairs st in
    numResults st' = Z.min (n + Z.of_nat (length found)) MaxCollisionCount
    /\ (forall k, ~ n <= k < numResults st' ->
                  results st' !! k = results st !! k)
    /\ (forall (i : nat) (r : CollisionResult),
          found !! i = Some r -> n + Z.of_nat i < MaxCollisionCount ->
          results st' !! (n + Z.of_nat i)
          = Some (store SwapResults (results st !!! (n + Z.of_nat i)) r)).
Proof.
  induction pairs as [|pair pairs IH]; intros st Hn Hlen; cbv zeta.
  - cbn [found_contacts flat_map fold_left length]. split; [lia|].
    split; [reflexivity|]. intros i r Hi. destruct i; discriminate Hi.
  - cbn [length] in Hlen. cbn [fold_left found_contacts flat_map].
    fold (found_contacts scan pairs).
    remember (func MaxCollisionCount SwapResults Aabb scan pair st) as st1
      eqn:Est1.
    unfold func, guard in Est1.
    destruct (Z.geb_spec (numResults st) MaxCollisionCount) as [Hfull|Hroom].
    + (* the counter stands at the capacity *)
      subst st1.
      destruct (IH st Hn ltac:(lia)) as (Hc & Hout & _).
      cbv zeta in Hc, Hout.
      split; [rewrite Hc, length_app; lia|]. split.
      * intros k Hk. apply Hout. lia.
      * intros i r _ Hi. lia.
    + unfold submit in Est1.
      destruct (scan (fst pair) (snd pair)) as [[h res] t]. destruct h.
      * (* a hit: it takes the next slot *)
        rewrite addResult_unfold in Est1. cbn [snd] in Est1.
        apply Z.ltb_lt in Hroom as Hroom'. rewrite Hroom' in Est1.
        assert (H1 : numResults st1 = numResults st + 1).
        { subst st1. cbn [numResults]. apply wrap32_small. lia. }
        assert (Hst1 : forall k, k <> numResults st ->
                                 results st1 !! k = results st !! k).
        { intros k Hk. subst st1. cbn [results].
          apply lookup_insert_ne. congruence. }
        assert (Hst0 : results st1 !! numResults st
                       = Some (store SwapResults
                                 (results st !!! numResults st) res)).
        { subst st1. cbn [results]. apply lookup_insert_eq. }
        clear Est1.
        destruct (IH st1 ltac:(lia) ltac:(lia)) as (Hc & Hout & Hin).
        cbv zeta in Hc, Hout, Hin. rewrite H1 in Hc, Hout, Hin.
        cbn [app length].
        split; [rewrite Hc; lia|]. split.
        -- intros k Hk. rewrite Hout by lia. apply Hst1. lia.
        -- intros [|i] r Hi Hlt.
           ++ injection Hi as ->. change (Z.of_nat 0) with 0.
              rewrite Z.add_0_r. rewrite Hout by lia. exact Hst0.
           ++ change ((res :: found_contacts scan pairs) !! S i)
                with (found_contacts scan pairs !! i) in Hi.
              replace (numResults st + Z.of_nat (S i))
                with (numResults st + 1 + Z.of_nat i) in * by lia.
              rewrite (Hin i r Hi Hlt).
              assert (He : results st1 !!! (numResults st + 1 + Z.of_nat i)
                           = results st !!! (numResults st + 1 + Z.of_nat i)).
              { rewrite !lookup_total_alt. rewrite Hst1 by lia. reflexivity. }
              rewrite He. reflexivity.
      * (* no hit: the sink is left as it is *)
        subst st1. cbn [app]. exact (IH st Hn ltac:(lia)).
Qed.

End SequentialFacts.

(** X13: when the coarse pairs are fewer than the hardware threads,
    [operator()] processes them in order and the array ends up holding
    the first [MaxCollisionCount] contacts found, in the order of their
    pairs: the returned count is the number of contacts found, capped at
    the capacity; slot [i] holds the [i]-th contact found (stored the way
    [addResult] stores it); every other slot is as it was. *)
Theorem sequential_first_hits (MaxCollisionCount : Z) (SwapResults : bool)
    (Aabb : Type) (scan : ColliderTree Aabb -> ColliderTree Aabb -> Best)
    (hardware_concurrency : nat)
    (pairs : list (ColliderTree Aabb * ColliderTree Aabb))
    (sched : list nat) (r : gmap Z CollisionResult) :
  0 <= MaxCollisionCount ->
  Z.of_nat (length pairs) < 2 ^ 31 ->
  (length pairs < hardware_concurrency)%nat ->
  let found := found_contacts scan pairs in
  exists st,
    operator_call MaxCollisionCount SwapResults Aabb scan hardware_concurrency
      pairs sched (CollisionCheckBase1 r)
    = Some (Z.min (Z.of_nat (length found)) MaxCollisionCount, st)
    /\ (forall (i : nat) (res : CollisionResult),
          found !! i = Some res -> Z.of_nat i < MaxCollisionCount ->
          results st !! Z.of_nat i
          = Some (store SwapResults (r !!! Z.of_nat i) res))
    /\ (forall k,
          ~ 0 <= k < Z.min (Z.of_nat (length found)) MaxCollisionCount ->
          results st !! k = r !! k).
Proof.
  intros HM Hlen Hseq. cbv zeta. unfold operator_call.
  destruct pairs as [|pair pairs'] eqn:Hpairs.
  - cbn [nonempty]. exists (CollisionCheckBase1 r).
    cbn [found_contacts flat_map length].
    split; [f_equal; f_equal; lia|]. split.
    + intros i res Hi. destruct i; discriminate Hi.
    + intros k _. reflexivity.
  - cbn [nonempty]. rewrite <- Hpairs in *. clear Hpairs pair pairs'.
    destruct (Nat.leb_spec hardware_concurrency (length pairs)) as [Hpar|_];
      [lia|].
    destruct (sequential_spec MaxCollisionCount SwapResults Aabb scan pairs
                (CollisionCheckBase1 r)) as (Hc & Hout & Hin).
    { cbn [CollisionCheckBase1 numResults]. lia. }
    { cbn [CollisionCheckBase1 numResults]. lia. }
    cbv zeta in Hc, Hout, Hin.
    cbn [CollisionCheckBase1 numResults results] in Hc, Hout, Hin.
    rewrite Z.add_0_l in Hc.
    eexists. split; [rewrite Hc; reflexivity|]. split.
    + intros i res Hi Hlt. exact (Hin i res Hi Hlt).
    + intros k Hk. apply Hout. rewrite Hc. exact Hk.
Qed.

Lemma sequential_first_hits_witness :
  0 <= 256
  /\ (length [(Tie.treeA, Tie.treeB)] < 2)%nat
  /\ exists st,
       operator_call 256 false Box.Aabb (fun a b => Tie.refactored a b) 2
         [(Tie.treeA, Tie.treeB)] [] (CollisionCheckBase1 ∅)
       = Some (Z.min
                 (Z.of_nat
                    (length (found_contacts (fun a b => Tie.refactored a b)
                               [(Tie.treeA, Tie.treeB)])))
                 256, st).
Proof.
  assert (H0 : 0 <= 256) by lia.
  assert (H1 : Z.of_nat (length [(Tie.treeA, Tie.treeB)]) < 2 ^ 31)
    by (cbn; lia).
  assert (H2 : (length [(Tie.treeA, Tie.treeB)] < 2)%nat) by (cbn; lia).
  destruct (sequential_first_hits 256 false Box.Aabb
              (fun a b => Tie.refactored a b) 2 [(Tie.treeA, Tie.treeB)] []
              ∅ H0 H1 H2) as (st & E & _).
  split; [exact H0|]. split; [exact H2|]. exists st. exact E.
Defined.

(** ** Below the capacity no contact is lost *)

Section KeepFacts.

Variable MaxCollisionCount : Z.
Variable SwapResults : bool.
Variable Aabb : Type.
Variable scan : ColliderTree Aabb -> ColliderTree Aabb -> Best.
Variable pairs : list (ColliderTree Aabb * ColliderTree Aabb).

Hypothesis pairs_fit : Z.of_nat (length pairs) < 2 ^ 31.

(** Task [k] found contact [res]. *)
Local Abbreviation found_at k res :=
  (exists pair t, pairs !! k = Some pair
                  /\ scan (fst pair) (snd pair) = (true, res, t)).

Local Abbreviation has_hit pair := (fst (fst (scan (fst pair) (snd pair)))).

(** The number of finished tasks that found a contact. *)
Local Abbreviation hits_done l ts :=
  (length
     (List.filter (fun x => is_finished (snd x) && has_hit (fst x))
        (combine l ts))).

Lemma hits_done_insert (l : list (ColliderTree Aabb * ColliderTree Aabb)) :
  forall (ts : list TaskState) (k : nat) (old new : TaskState)
         (pair : ColliderTree Aabb * ColliderTree Aabb),
    ts !! k = Some old -> l !! k = Some pair ->
    (hits_done l (<[k := new]> ts)
     + (if is_finished old && has_hit pair then 1 else 0)
     = hits_done l ts
       + (if is_finished new && has_hit pair then 1 else 0))%nat.
Proof.
  induction l as [|p l IH]; intros ts k old new pair Ht Hp;
    [destruct k; discriminate Hp|].
  destruct ts as [|t ts]; [destruct k; discriminate Ht|].
  destruct k as [|k].
  - injection Ht as ->. injection Hp as ->.
    change (<[0%nat := new]> (old :: ts)) with (new :: ts).
    cbn [combine List.filter fst snd].
    destruct (is_finished old && has_hit pair),
             (is_finished new && has_hit pair); cbn [length]; lia.
  - change (<[S k := new]> (t :: ts)) with (t :: <[k := new]> ts).
    change ((t :: ts) !! S k) with (ts !! k) in Ht.
    change ((p :: l) !! S k) with (l !! k) in Hp.
    specialize (IH ts k old new pair Ht Hp).
    cbn [combine List.filter fst snd].
    destruct (is_finished t && has_hit p); cbn [length]; lia.
Qed.

Lemma hits_done_all (l : list (ColliderTree Aabb * ColliderTree Aabb)) :
  forall ts : list TaskState,
    length ts = length l -> forallb is_finished ts = true ->
    hits_done l ts = length (found_contacts scan l).
Proof.
  induction l as [|p l IH]; intros ts Hl Hf.
  - reflexivity.
  - destruct ts as [|t ts]; [discriminate Hl|].
    cbn [forallb] in Hf. apply andb_true_iff in Hf as [Ht Hf].
    cbn [length] in Hl. injection Hl as Hl.
    cbn [combine List.filter fst snd found_contacts flat_map].
    fold (found_contacts scan l). rewrite Ht, length_app. cbn [andb].
    rewrite <- (IH ts Hl Hf).
    destruct (scan (fst p) (snd p)) as [[h r] t0]. cbn [fst].
    destruct h; reflexivity.
Qed.

Lemma found_contacts_at (res : CollisionResult) :
  In res (found_contacts scan pairs) <-> exists k, found_at k res.
Proof.
  unfold found_contacts. rewrite in_flat_map. split.
  - intros (pair & Hin & Hres).
    apply list_elem_of_In, list_elem_of_lookup_1 in Hin as [k Hk].
    exists k, pair.
    destruct (scan (fst pair) (snd pair)) as [[h r] t].
    destruct h; [|destruct Hres].
    destruct Hres as [->|[]]. exists t. split; [exact Hk|reflexivity].
  - intros (k & pair & t & Hk & Hs). exists pair.
    split; [apply list_elem_of_In, (list_elem_of_lookup_2 _ _ _ Hk)|].
    rewrite Hs. left. reflexivity.
Qed.

(** What every reachable pool satisfies on a fresh array: the slots hold
    contacts of finished tasks, and while the counter is below the
    capacity it counts the finished tasks that found a contact, each of
    which has its contact in a slot. *)
Local Abbreviation kept pl :=
  (length (tasks pl) = length pairs
   /\ 0 <= numResults (sink pl)
      <= Z.of_nat (length (List.filter is_finished (tasks pl)))
   /\ (forall slot r,
         results (sink pl) !! slot = Some r ->
         0 <= slot < numResults (sink pl)
         /\ exists k res,
              tasks pl !! k = Some Finished /\ found_at k res
              /\ r = store SwapResults zero res)
   /\ (numResults (sink pl) < MaxCollisionCount ->
       numResults (sink pl) = Z.of_nat (hits_done pairs (tasks pl))
       /\ forall k res,
            tasks pl !! k = Some Finished -> found_at k res ->
            exists slot,
              0 <= slot < numResults (sink pl)
              /\ results (sink pl) !! slot
                 = Some (store SwapResults zero res))).

Lemma kept_init :
  kept (mkPool (CollisionCheckBase1 ∅) (repeat Ready (length pairs))).
Proof.
  cbn [sink tasks CollisionCheckBase1 numResults results].
  assert (Hnone : forall k, repeat Ready (length pairs) !! k <> Some Finished).
  { intros k Hk. apply list_elem_of_lookup_2, list_elem_of_In in Hk.
    apply repeat_spec in Hk. discriminate Hk. }
  assert (Hf : forall n, List.filter is_finished (repeat Ready n) = []).
  { induction n as [|n IHn]; [reflexivity|exact IHn]. }
  assert (Hh : forall (l : list (ColliderTree Aabb * ColliderTree Aabb)) n,
             hits_done l (repeat Ready n) = 0%nat).
  { induction l as [|p l IHl]; intros [|n]; try reflexivity.
    cbn [repeat combine List.filter snd is_finished andb]. apply IHl. }
  split; [apply repeat_length|]. split; [rewrite Hf; cbn; lia|]. split.
  - intros slot r Hs. rewrite lookup_empty in Hs. discriminate Hs.
  - intros _. split; [rewrite Hh; reflexivity|].
    intros k res Hk. destruct (Hnone k Hk).
Qed.

Lemma kept_step (k : nat) (pl : Pool) :
  kept pl -> kept (step MaxCollisionCount SwapResults Aabb scan pairs k pl).
Proof.
  intros (Hl & Hn & Hsound & Hfull). unfold step.
  destruct (tasks pl !! k) as [t|] eqn:Ht;
    [|exact (conj Hl (conj Hn (conj Hsound Hfull)))].
  destruct (pairs !! k) as [[a b]|] eqn:Hp;
    [|destruct t; exact (conj Hl (conj Hn (conj Hsound Hfull)))].
  pose proof (finished_le (tasks pl)) as Hle.
  assert (Hother : forall (new : TaskState) (k0 : nat),
             t <> Finished -> tasks pl !! k0 = Some Finished ->
             <[k := new]> (tasks pl) !! k0 = Some Finished).
  { intros new k0 Hne Hk0. rewrite list_lookup_insert_ne; [exact Hk0|].
    intros ->. rewrite Ht in Hk0. injection Hk0 as ->. apply Hne. reflexivity. }
  assert (Hback : forall (new : TaskState) (k0 : nat),
             k0 <> k -> <[k := new]> (tasks pl) !! k0 = Some Finished ->
             tasks pl !! k0 = Some Finished).
  { intros new k0 Hne Hk0. rewrite list_lookup_insert_ne in Hk0 by congruence.
    exact Hk0. }
  destruct t.
  - (* the task reads the counter *)
    destruct (guard MaxCollisionCount (sink pl)) eqn:Hg; cbn [sink tasks].
    + pose proof (finished_insert _ _ _ Finished Ht) as Hf. cbn in Hf.
      split; [rewrite length_insert; exact Hl|]. split; [lia|]. split.
      * intros slot r Hs. destruct (Hsound slot r Hs) as (Hr & k0 & res & Hk0 & H).
        split; [exact Hr|]. exists k0, res.
        split; [apply Hother; [discriminate|exact Hk0]|exact H].
      * intros Hroom. unfold guard in Hg. apply Z.geb_le in Hg. lia.
    + pose proof (finished_insert _ _ _ Running Ht) as Hf. cbn in Hf.
      pose proof (hits_done_insert pairs _ _ _ Running _ Ht Hp) as Hh.
      cbn [is_finished andb] in Hh.
      split; [rewrite length_insert; exact Hl|]. split; [lia|]. split.
      * intros slot r Hs. destruct (Hsound slot r Hs) as (Hr & k0 & res & Hk0 & H).
        split; [exact Hr|]. exists k0, res.
        split; [apply Hother; [discriminate|exact Hk0]|exact H].
      * intros Hroom. destruct (Hfull Hroom) as [Hc Hall].
        split; [lia|]. intros k0 res Hk0 Hfound.
        destruct (Nat.eq_dec k0 k) as [->|Hne].
        { rewrite list_lookup_insert_eq in Hk0 by (apply lookup_lt_Some in Ht; exact Ht).
          discriminate Hk0. }
        exact (Hall k0 res (Hback _ _ Hne Hk0) Hfound).
  - (* the task submits what it found *)
    cbn [sink tasks].
    pose proof (finished_insert _ _ _ Finished Ht) as Hf. cbn in Hf.
    pose proof (finished_le (<[k := Finished]> (tasks pl))) as Hle'.
    rewrite length_insert in Hle'.
    pose proof (hits_done_insert pairs _ _ _ Finished _ Ht Hp) as Hh.
    cbn [is_finished andb fst snd] in Hh.
    assert (Hkfin : <[k := Finished]> (tasks pl) !! k = Some Finished).
    { apply list_lookup_insert_eq. apply lookup_lt_Some in Ht. exact Ht. }
    unfold submit. destruct (scan a b) as [[h res] t0] eqn:Hscan.
    cbn [fst] in Hh. destruct h.
    + rewrite addResult_unfold. cbn [snd numResults results].
      rewrite wrap32_small by lia.
      split; [rewrite length_insert; exact Hl|]. split; [lia|]. split.
      * intros slot r Hs.
        destruct (Z.ltb_spec (numResults (sink pl)) MaxCollisionCount)
          as [Hroom|Hno].
        -- destruct (Z.eq_dec (numResults (sink pl)) slot) as [<-|Hne].
           ++ rewrite lookup_insert_eq in Hs. injection Hs as <-.
              split; [lia|]. exists k, res. split; [exact Hkfin|].
              split; [exists (a, b), t0; split; [exact Hp|exact Hscan]|].
              apply store_fresh.
           ++ rewrite lookup_insert_ne in Hs by exact Hne.
              destruct (Hsound slot r Hs) as (Hr & k0 & res0 & Hk0 & H).
              split; [lia|]. exists k0, res0.
              split; [apply Hother; [discriminate|exact Hk0]|exact H].
        -- destruct (Hsound slot r Hs) as (Hr & k0 & res0 & Hk0 & H).
           split; [lia|]. exists k0, res0.
           split; [apply Hother; [discriminate|exact Hk0]|exact H].
      * intros Hroom.
        assert (Hroom0 : numResults (sink pl) < MaxCollisionCount) by lia.
        destruct (Hfull Hroom0) as [Hc Hall].
        apply Z.ltb_lt in Hroom0 as Hb. rewrite Hb.
        split; [lia|]. intros k0 res0 Hk0 Hfound.
        destruct (Nat.eq_dec k0 k) as [->|Hne].
        -- destruct Hfound as (pair & t1 & Hpair & Hs).
           rewrite Hp in Hpair. injection Hpair as <-. cbn [fst snd] in Hs.
           rewrite Hscan in Hs. injection Hs as <- _.
           exists (numResults (sink pl)). split; [lia|].
           rewrite lookup_insert_eq. apply (f_equal Some), store_fresh.
        -- destruct (Hall k0 res0 (Hback _ _ Hne Hk0) Hfound)
             as (slot & Hslot & Hs).
           exists slot. split; [lia|].
           rewrite lookup_insert_ne by lia. exact Hs.
    + split; [rewrite length_insert; exact Hl|]. split; [lia|]. split.
      * intros slot r Hs. destruct (Hsound slot r Hs) as (Hr & k0 & res0 & Hk0 & H).
        split; [exact Hr|]. exists k0, res0.
        split; [apply Hother; [discriminate|exact Hk0]|exact H].
      * intros Hroom. destruct (Hfull Hroom) as [Hc Hall].
        split; [lia|]. intros k0 res0 Hk0 Hfound.
        destruct (Nat.eq_dec k0 k) as [->|Hne].
        -- destruct Hfound as (pair & t1 & Hpair & Hs).
           rewrite Hp in Hpair. injection Hpair as <-. cbn [fst snd] in Hs.
           rewrite Hscan in Hs. discriminate Hs.
        -- exact (Hall k0 res0 (Hback _ _ Hne Hk0) Hfound).
  - exact (conj Hl (conj Hn (conj Hsound Hfull))).
Qed.

Lemma kept_run (sched : list nat) :
  kept (parallel_for_each MaxCollisionCount SwapResults Aabb scan pairs sched
          (CollisionCheckBase1 ∅)).
Proof.
  unfold parallel_for_each. pose proof kept_init as H0. revert H0.
  generalize (mkPool (CollisionCheckBase1 ∅) (repeat Ready (length pairs))).
  induction sched as [|k sched IH]; intros pl Hpl; cbn [fold_left].
  - exact Hpl.
  - apply IH, kept_step, Hpl.
Qed.

(** Once every task has finished, every slot holds a contact that was
    found; with the counter below the capacity the array holds exactly
    the contacts found. *)
Lemma kept_final (pl : Pool) :
  kept pl -> forallb is_finished (tasks pl) = true ->
  (forall slot r,
      results (sink pl) !! slot = Some r ->
      0 <= slot < numResults (sink pl)
      /\ exists res,
           In res (found_contacts scan pairs)
           /\ r = store SwapResults zero res)
  /\ (numResults (sink pl) < MaxCollisionCount ->
      numResults (sink pl) = Z.of_nat (length (found_contacts scan pairs))
      /\ forall res,
           In res (found_contacts scan pairs) ->
           exists slot,
             0 <= slot < numResults (sink pl)
             /\ results (sink pl) !! slot = Some (store SwapResults zero res)).
Proof.
  intros (Hl & Hn & Hsound & Hfull) Hfin. split.
  - intros slot r Hs. destruct (Hsound slot r Hs) as (Hr & k & res & _ & Hk & ->).
    split; [exact Hr|]. exists res. split; [|reflexivity].
    apply found_contacts_at. exists k. exact Hk.
  - intros Hroom. destruct (Hfull Hroom) as [Hc Hall].
    split; [rewrite Hc, (hits_done_all pairs _ Hl Hfin); reflexivity|].
    intros res Hres. apply found_contacts_at in Hres as (k & Hk).
    apply (Hall k res); [|exact Hk].
    destruct Hk as (pair & t & Hp & _).
    apply lookup_lt_Some in Hp. rewrite <- Hl in Hp.
    destruct (lookup_lt_is_Some_2 _ _ Hp) as [ts Hts].
    rewrite forallb_forall in Hfin.
    pose proof (Hfin ts (proj1 (list_elem_of_In _ _)
                           (list_elem_of_lookup_2 _ _ _ Hts))) as Hf.
    destruct ts; try discriminate Hf. exact Hts.
Qed.

End KeepFacts.

(** X14: on a fresh array and under every interleaving of the tasks,
    each slot [operator()] leaves in the array lies below the returned
    count and holds the contact the scan found for one of the coarse
    pairs (stored the way [addResult] stores it).  When the returned
    count is below [MaxCollisionCount] no contact was lost: the count is
    the number of coarse pairs for which the scan found a contact, and
    every such contact sits in a slot. *)
Theorem no_contact_lost (MaxCollisionCount : Z) (SwapResults : bool)
    (Aabb : Type) (scan : ColliderTree Aabb -> ColliderTree Aabb -> Best)
    (hardware_concurrency : nat)
    (pairs : list (ColliderTree Aabb * ColliderTree Aabb))
    (sched : list nat) :
  Z.of_nat (length pairs) < 2 ^ 31 ->
  match
    operator_call MaxCollisionCount SwapResults Aabb scan hardware_concurrency
      pairs sched (CollisionCheckBase1 ∅)
  with
  | None => True
  | Some (n, st) =>
      (forall slot r,
          results st !! slot = Some r ->
          0 <= slot < n
          /\ exists res,
               In res (found_contacts scan pairs)
               /\ r = store SwapResults zero res)
      /\ (n < MaxCollisionCount ->
          n = Z.of_nat (length (found_contacts scan pairs))
          /\ forall res,
               In res (found_contacts scan pairs) ->
               exists slot,
                 0 <= slot < n
                 /\ results st !! slot = Some (store SwapResults zero res))
  end.
Proof.
  intros Hlen. unfold operator_call.
  destruct (nonempty pairs) eqn:Hne.
  - destruct (hardware_concurrency <=? length pairs)%nat.
    + pose proof (kept_run MaxCollisionCount SwapResults Aabb scan pairs Hlen
                    sched) as Hkept.
      destruct (forallb is_finished _) eqn:Hfin; [|exact I].
      exact (kept_final MaxCollisionCount SwapResults Aabb scan pairs _
               Hkept Hfin).
    + pose proof (kept_run MaxCollisionCount SwapResults Aabb scan pairs Hlen
                    (serial_schedule (length pairs))) as Hkept.
      unfold parallel_for_each, serial_schedule in Hkept.
      pose proof (serial_from MaxCollisionCount SwapResults Aabb scan pairs
                    (length pairs) 0%nat (CollisionCheckBase1 ∅) eq_refl) as H.
      cbn [repeat app] in H. rewrite drop_0 in H. rewrite H in Hkept.
      apply (kept_final MaxCollisionCount SwapResults Aabb scan pairs _ Hkept).
      apply forallb_finished.
  - destruct pairs as [|pair pairs']; [|discriminate Hne].
    cbn [found_contacts flat_map length CollisionCheckBase1
           numResults results].
    split.
    + intros slot r Hs. rewrite lookup_empty in Hs. discriminate Hs.
    + intros _. split; [reflexivity|]. intros res [].
Qed.

Lemma no_contact_lost_witness :
  Z.of_nat (length [(Tie.treeA, Tie.treeB)]) < 2 ^ 31
  /\ match
       operator_call 256 false Box.Aabb (fun a b => Tie.refactored a b) 1
         [(Tie.treeA, Tie.treeB)] [0%nat; 0%nat] (CollisionCheckBase1 ∅)
     with
     | None => True
     | Some (n, st) =>
         n < 256 ->
         n = Z.of_nat
               (length (found_contacts (fun a b => Tie.refactored a b)
                          [(Tie.treeA, Tie.treeB)]))
     end.
Proof.
  assert (H : Z.of_nat (length [(Tie.treeA, Tie.treeB)]) < 2 ^ 31)
    by (cbn; lia).
  split; [exact H|].
  pose proof (no_contact_lost 256 false Box.Aabb
                (fun a b => Tie.refactored a b) 1 [(Tie.treeA, Tie.treeB)]
                [0%nat; 0%nat] H) as K.
  destruct (operator_call 256 false Box.Aabb (fun a b => Tie.refactored a b) 1
              [(Tie.treeA, Tie.treeB)] [0%nat; 0%nat] (CollisionCheckBase1 ∅))
    as [[n st]|]; [|exact I].
  intros Hn. exact (proj1 (proj2 K Hn)).
Defined.

(** ** The cells [apply] reads *)

Lemma flat_map_ext_in {A B : Type} (f g : A -> list B) (l : list A) :
  (forall x, In x l -> f x = g x) -> flat_map f l = flat_map g l.
Proof.
  induction l as [|x l IH]; intros H; cbn [flat_map]; [reflexivity|].
  rewrite (H x (or_introl eq_refl)), IH; [reflexivity|].
  intros y Hy. apply H. right. exact Hy.
Qed.

(** X15: [apply] reads the merge buffer only at the cells of the
    allocated table, row [i] below the number of bones of [body0] and
    column [j] below that of [body1]: two buffers that agree there make
    it send the same requests. *)
Theorem apply_reads_table (body0 body1 : SkinnedMeshBody)
    (rigid : nat -> RigidBody) (buf buf' : gmap (nat * nat) CollisionMerge) :
  (forall i j,
      (i < length (m_skinnedBones body0))%nat ->
      (j < length (m_skinnedBones body1))%nat ->
      MergeBuffer.get buf i j = MergeBuffer.get buf' i j) ->
  MergeBuffer.apply body0 body1 rigid buf
  = MergeBuffer.apply body0 body1 rigid buf'.
Proof.
  intros Hsame. unfold MergeBuffer.apply.
  apply flat_map_ext_in. intros [i bone0] Hi.
  apply indexed_lookup, lookup_lt_Some in Hi.
  destruct (negb _); [reflexivity|].
  apply flat_map_ext_in. intros [j bone1] Hj.
  apply indexed_lookup, lookup_lt_Some in Hj.
  destruct (negb _); [reflexivity|].
  unfold MergeBuffer.emit. rewrite (Hsame i j Hi Hj). reflexivity.
Qed.

Lemma apply_reads_table_witness :
  MergeBuffer.apply Demo.bodyA Demo.bodyB Demo.rigid OneCell.table
  = MergeBuffer.apply Demo.bodyA Demo.bodyB Demo.rigid
      (<[(2%nat, 0%nat) := OneCell.cell]> OneCell.table).
Proof.
  apply apply_reads_table. intros i j Hi Hj.
  unfold MergeBuffer.get. rewrite !lookup_total_alt.
  rewrite lookup_insert_ne; [reflexivity|].
  intros [= <- _]. cbn in Hi. lia.
Defined.
